(** * Weather dashboard (app.js): alert aggregation, observation selection,
      endpoint cache, auto-refresh back-off and compass conversion.

    A shallow embedding of the decision logic of [app.js].  The browser and
    the network are not part of the program: they appear as the record
    [Host] (what [fetch], [URL], [URLSearchParams] and [Date] answer, and
    whether the page has its list of alerts), and every function that reads
    them takes the host as an argument.

    Conventions
    - a JavaScript number that is used arithmetically as a double
      ([degToCompass]) is a binary64 [float]; millisecond counts, that the
      code only doubles, compares and subtracts, are in [Z];
    - a field that may be missing is an [option]; a string is falsy when it
      is missing or empty;
    - [lat] and [lon] are carried as the text a template literal makes of
      them, the only way the code uses them;
    - a promise that settles is a value of [fetched]: [Rejected] or
      [Resolved];
    - where the code counts the UTF-16 code units of a string (the snippet
      of [getJSON]), the string is the list of its code units. *)

From Stdlib Require Import ZArith Floats List Lia Permutation Sorted Ascii String.
From stdpp Require Import gmap strings list.

Local Open Scope Z_scope.

(** ** JavaScript numbers: doubles are Rocq's primitive binary64 floats,
       with the operations of [degToCompass] that those do not have *)
Module Num.

(** The double that holds the integer [z] (exact when |z| < 2^53). *)
Definition float_of_Z (z : Z) : float :=
  SF2Prim (binary_normalize prec emax z 0 false).

(** [x % n] for a positive integer literal [n]: the remainder of the
    truncated division, computed exactly, with the sign of [x].  A double is
    [m * 2^e]; both operands are brought to the common exponent
    [min e 0], where the remainder of the mantissas is the answer. *)
Definition js_rem (x : float) (n : Z) : float :=
  match Prim2SF x with
  | S754_finite s m e =>
      let num := if s then Z.neg m else Z.pos m in
      let '(mz, ez) := if 0 <=? e then (num * 2 ^ e, 0) else (num, e) in
      SF2Prim (binary_normalize prec emax (Z.rem mz (n * 2 ^ (- ez))) ez s)
  | S754_zero _ => x
  | _ => nan
  end.

(** [Math.round x]: the integer nearest to [x], a tie going up, that is
    [floor (x + 1/2)] on the exact value; [None] for NaN and the
    infinities. *)
Definition Math_round (x : float) : option Z :=
  match Prim2SF x with
  | S754_finite s m e =>
      let num := if s then Z.neg m else Z.pos m in
      Some (if 0 <=? e then num * 2 ^ e
            else (2 * num + 2 ^ (- e)) / 2 ^ (1 - e))
  | S754_zero _ => Some 0
  | _ => None
  end.

End Num.

(** ** Formatting helpers *)
Module Compass.
Import Num.

Definition dirs : list string :=
  ["N"; "NNE"; "NE"; "ENE"; "E"; "ESE"; "SE"; "SSE";
   "S"; "SSW"; "SW"; "WSW"; "W"; "WNW"; "NW"; "NNW"]%string.

(** [(deg % 360 + 360) % 360] *)
Definition normalize (deg : float) : float :=
  js_rem (js_rem deg 360 + 360)%float 360.

(** [Math.round(d / 22.5) % 16] *)
Definition index (d : float) : option Z :=
  match Math_round (d / 22.5)%float with
  | Some r => Some (Z.rem r 16)
  | None => None
  end.

(** [degToCompass(deg)]; [None] is the argument [null] or [undefined] and
    a result that is no direction ([null], or [undefined] for an index
    outside of the table). *)
Definition degToCompass (deg : option float) : option string :=
  match deg with
  | None => None
  | Some deg =>
      if negb (is_finite deg) then None
      else match index (normalize deg) with
           | Some idx => if idx <? 0 then None else dirs !! Z.to_nat idx
           | None => None
           end
  end.

(** Checking a predicate on the [n] integers from [lo] upwards. *)
Fixpoint range_all (n : nat) (lo : Z) (p : Z -> bool) : bool :=
  match n with
  | O => true
  | S n' => p lo && range_all n' (lo + 1) p
  end.

(** What [degToCompass] makes of [r = deg % 360], the rest of its body. *)
Definition fromResidue (r : float) : option string :=
  match index (js_rem (r + 360)%float 360) with
  | Some idx => if idx <? 0 then None else dirs !! Z.to_nat idx
  | None => None
  end.

Definition residue_agrees (r : Z) : bool :=
  bool_decide (fromResidue (float_of_Z r) = fromResidue (float_of_Z (r mod 360))).

End Compass.

(** ** JavaScript values as the code reads them *)
Module Js.

(** A settled promise. *)
Inductive fetched (A : Type) : Type :=
  | Rejected (message : string)
  | Resolved (body : A).
Arguments Rejected {A} message.
Arguments Resolved {A} body.

(** Truthiness of a string field: missing and [''] are falsy. *)
Definition truthy (s : option string) : bool :=
  match s with
  | Some s => negb (String.eqb s "")
  | None => false
  end.

(** [a || b] with a string to fall back on. *)
Definition or_str (a : option string) (b : string) : string :=
  match a with
  | Some s => if String.eqb s "" then b else s
  | None => b
  end.

(** [a || b] between two fields. *)
Definition or_field (a b : option string) : option string :=
  if truthy a then a else b.

(** [xs.includes(x)] on an array of strings. *)
Definition includes (xs : list string) (x : string) : bool :=
  existsb (String.eqb x) xs.

(** The loop
    [[
      const seen = new Set(); const unique = [];
      for (const f of all) { const key = k(f);
        if (seen.has(key)) continue; seen.add(key); unique.push(f); }
    ]]
    as a left fold over [all] on the pair [(seen, unique)]. *)
Definition unique_step {A} (key : A -> string) (st : gset string * list A) (f : A)
  : gset string * list A :=
  let '(seen, unique) := st in
  let k := key f in
  if bool_decide (k ∈ seen) then st
  else ({[ k ]} ∪ seen, unique ++ [f]).

Definition unique_by {A} (key : A -> string) (all : list A) : list A :=
  snd (fold_left (unique_step key) all (∅, [])).

(** The same loop from a given [seen], as a recursion on [all]
    ([fold_unique_step] relates the two). *)
Fixpoint unique_from {A} (key : A -> string) (seen : gset string) (all : list A) : list A :=
  match all with
  | [] => []
  | f :: rest =>
      if bool_decide (key f ∈ seen) then unique_from key seen rest
      else f :: unique_from key ({[ key f ]} ∪ seen) rest
  end.

(** [Array.prototype.sort(cmp)].  The comparator answers a number, [None]
    standing for NaN, which the sort reads as [+0].  For a comparator that
    is a consistent total preorder the result is fixed by the standard: the
    stable sorted permutation; what an engine does with an inconsistent
    comparator is left to it.  The model is the stable insertion sort, so
    its result is the standard's wherever that one is fixed. *)
Definition cmp_le {A} (cmp : A -> A -> option Z) (x y : A) : bool :=
  match cmp x y with
  | Some v => v <=? 0
  | None => true
  end.

Fixpoint sort_insert {A} (cmp : A -> A -> option Z) (x : A) (l : list A) : list A :=
  match l with
  | [] => [x]
  | y :: l' => if cmp_le cmp x y then x :: y :: l' else y :: sort_insert cmp x l'
  end.

Definition sort {A} (cmp : A -> A -> option Z) (l : list A) : list A :=
  foldr (sort_insert cmp) [] l.

(** [s.split('/')]: the pieces of [s] between slashes, one more than there
    are slashes. *)
Fixpoint split_slash (s : string) : list string :=
  match s with
  | EmptyString => [""%string]
  | String c rest =>
      if Ascii.eqb c "/"%char then ""%string :: split_slash rest
      else match split_slash rest with
           | piece :: pieces => String c piece :: pieces
           | [] => [String c ""]
           end
  end.

(** [a - b] on numbers that may be NaN. *)
Definition sub_nan (a b : option Z) : option Z :=
  match a, b with
  | Some x, Some y => Some (x - y)
  | _, _ => None
  end.

End Js.

(** ** The documents of api.weather.gov, at the fields the code reads *)
Module Doc.

(** [properties] of a [/points] answer. *)
Record PointProps := {
  forecastZone : option string;
  county : option string;
  fireWeatherZone : option string;
  forecastHourly : option string;
  forecast : option string;
  observationStations : option string;
}.

Record Points := { points_properties : option PointProps }.

(** [properties] of an alert feature; [geocode_UGC] is
    [properties.geocode.UGC] when that is an array. *)
Record AlertProps := {
  p_id : option string;
  p_at_id : option string;
  sent : option string;
  effective : option string;
  onset : option string;
  ends : option string;
  expires : option string;
  event : option string;
  severity : option string;
  headline : option string;
  geocode_UGC : option (list string);
}.

Record Feature := {
  f_id : option string;
  properties : option AlertProps;
}.

Record Alerts := { alerts_features : option (list Feature) }.

(** A measured quantity of an observation: [value] and [unitCode]. *)
Record Quantity := {
  value : option float;
  unitCode : option string;
}.

(** [properties] of [/stations/{id}/observations/latest]. *)
Record ObsProps := {
  temperature : option Quantity;
  relativeHumidity : option Quantity;
  windSpeed : option Quantity;
  windDirection : option Quantity;
  textDescription : option string;
  timestamp : option string;
}.

Record Latest := { latest_properties : option ObsProps }.

Record Station := { station_id : option string }.

Record Stations := { stations_features : option (list Station) }.

End Doc.

(** ** The host: network, URL handling, clock and page *)
Module Env.
Import Js Doc.

(** [getJSON_*] is [getJSON(url)] read at the document the caller expects
    ([None] is a JSON [null]); the requests of one aggregation or of one
    selection are simultaneous, and the answer is a function of the URL.
    [URL_pathname s] is [new URL(s).pathname], [None] when the constructor
    throws; [urlencode] is the serialisation of one [URLSearchParams] value;
    [Date_getTime s] is [new Date(s).getTime()], [None] for NaN;
    [has_alerts_list] tells whether the page has the element with the id
    [alerts-list]. *)
Record Host := {
  getJSON_points : string -> fetched (option Points);
  getJSON_alerts : string -> fetched (option Alerts);
  getJSON_latest : string -> fetched (option Latest);
  URL_pathname : string -> option string;
  urlencode : string -> string;
  Date_getTime : string -> option Z;
  has_alerts_list : bool;
}.

End Env.

(** ** Alerts helpers and the aggregator *)
Module Alerts.
Import Js Doc Env.

Local Open Scope string_scope.

Definition API : string := "https://api.weather.gov".

(** An object without fields: the [{}] of [f?.properties || {}]. *)
Definition no_props : AlertProps :=
  {| p_id := None; p_at_id := None; sent := None; effective := None;
     onset := None; ends := None; expires := None; event := None;
     severity := None; headline := None; geocode_UGC := None |}.

Definition props_of (f : Feature) : AlertProps :=
  match properties f with
  | Some p => p
  | None => no_props
  end.

(** [alertKey(f)] *)
Definition alertKey (f : Feature) : string :=
  if truthy (f_id f) then or_str (f_id f) ""
  else
    let p := props_of f in
    if truthy (p_id p) then or_str (p_id p) ""
    else if truthy (p_at_id p) then or_str (p_at_id p) ""
    else
      let sent := or_str (sent p) (or_str (effective p) (or_str (onset p) "")) in
      or_str (event p) "Unknown" ++ "|" ++ sent.

(** [zonesFromAlert(f)] *)
Definition zonesFromAlert (f : Feature) : list string :=
  match properties f with
  | Some p => match geocode_UGC p with
              | Some ugc => ugc
              | None => []
              end
  | None => []
  end.

(** The inner [zoneCode(zUrl)] of [zoneCodesFromPoints]: the last of the
    non-empty pieces of the path ([null] when there is none), or, when the
    string is no URL, whatever follows its last slash. *)
Definition zoneCode (h : Host) (zUrl : option string) : option string :=
  match zUrl with
  | Some u =>
      if String.eqb u "" then None
      else match URL_pathname h u with
           | Some pathname =>
               let segs := List.filter (fun s => negb (String.eqb s ""))
                                       (split_slash pathname) in
               last segs
           | None => last (split_slash u)
           end
  | None => None
  end.

(** [zoneCodesFromPoints(points)]: the three codes, the falsy ones dropped,
    in the order of a [Set] built from them. *)
Definition zoneCodesFromPoints (h : Host) (points : option Points) : list string :=
  let props := match points with
               | Some d => points_properties d
               | None => None
               end in
  let zForecast := match props with Some p => forecastZone p | None => None end in
  let zCounty := match props with Some p => county p | None => None end in
  let zFire := match props with Some p => fireWeatherZone p | None => None end in
  let codes := [zoneCode h zForecast; zoneCode h zCounty; zoneCode h zFire] in
  unique_by (fun z => z)
            (omap (fun c => if truthy c then c else None) codes).

Definition alertsQueryParamsBase : string :=
  "status=actual&message_type=alert&active=1".

Definition alertsUrlFromPoint (h : Host) (lat lon : string) : string :=
  API ++ "/alerts?" ++ alertsQueryParamsBase ++ "&point=" ++ urlencode h (lat ++ "," ++ lon).

Definition alertsUrlFromZone (h : Host) (z : string) : string :=
  API ++ "/alerts?" ++ alertsQueryParamsBase ++ "&zone=" ++ urlencode h z.

(** One entry of [results]: the request with [ok] and [features]. *)
Record AlertQueryResult := {
  label : string;
  url : string;
  ok : bool;
  features : list Feature;
}.

(** The body of [reqs.map(async r => ...)]: a request that fails gives the
    empty list. *)
Definition runRequest (h : Host) (r : string * string) : AlertQueryResult :=
  match getJSON_alerts h (snd r) with
  | Resolved resp =>
      let fs := match resp with
                | Some d => match alerts_features d with
                            | Some fs => fs
                            | None => []
                            end
                | None => []
                end in
      {| label := fst r; url := snd r; ok := true; features := fs |}
  | Rejected _ =>
      {| label := fst r; url := snd r; ok := false; features := [] |}
  end.

(** The features that the request for [url] contributes. *)
Definition queryFeatures (h : Host) (url : string) : list Feature :=
  features (runRequest h ("", url)).

(** [results], in the order of [reqs]: the zones, then the point. *)
Definition alertResults (h : Host) (lat lon : string) (zoneCodes : list string)
  : list AlertQueryResult :=
  let zoneReqs := map (fun z => ("zone:" ++ z, alertsUrlFromZone h z)) zoneCodes in
  let pointReq := ("point:" ++ lat ++ "," ++ lon, alertsUrlFromPoint h lat lon) in
  map (runRequest h) (zoneReqs ++ [pointReq]).

Definition pointFeatures (results : list AlertQueryResult) : list Feature :=
  match find (fun r => String.prefix "point:" (label r)) results with
  | Some r => features r
  | None => []
  end.

Definition zoneFeaturesAll (results : list AlertQueryResult) : list Feature :=
  flat_map features (List.filter (fun r => String.prefix "zone:" (label r)) results).

(** [fZones.some(z => zoneCodes.includes(z))] *)
Definition inZones (zoneCodes : list string) (f : Feature) : bool :=
  existsb (fun z => includes zoneCodes z) (zonesFromAlert f).

Definition zoneFiltered (zoneCodes : list string) (results : list AlertQueryResult)
  : list Feature :=
  List.filter (inZones zoneCodes) (zoneFeaturesAll results).

(** [all]: the point features, then the zone features that passed. *)
Definition merged (zoneCodes : list string) (results : list AlertQueryResult)
  : list Feature :=
  pointFeatures results ++ zoneFiltered zoneCodes results.

(** [all] of the run whose [/points] answer is [points]. *)
Definition allAlerts (h : Host) (lat lon : string) (points : option Points) : list Feature :=
  let zoneCodes := zoneCodesFromPoints h points in
  merged zoneCodes (alertResults h lat lon zoneCodes).

(** [fetchAlertsCombined(lat, lon)] *)
Definition fetchAlertsCombined (h : Host) (lat lon : string) : fetched (list Feature) :=
  match getJSON_points h (API ++ "/points/" ++ lat ++ "," ++ lon) with
  | Rejected e => Rejected e
  | Resolved points => Resolved (unique_by alertKey (allAlerts h lat lon points))
  end.

(** *** Severity order and the comparator of [renderAlertsForPrimary] *)

(** What [SEVERITY_ORDER[k]] can be: a number of the table, a member that
    the object literal inherits from [Object.prototype], or [undefined]. *)
Inductive looked_up :=
  | Undefined
  | Number (n : Z)
  | Inherited (name : string).

Definition SEVERITY_ORDER : list (string * Z) :=
  [("Extreme", 5%Z); ("Severe", 4%Z); ("Moderate", 3%Z); ("Minor", 2%Z); ("Unknown", 1%Z)].

Definition Object_prototype : list string :=
  ["constructor"; "hasOwnProperty"; "isPrototypeOf"; "propertyIsEnumerable";
   "toLocaleString"; "toString"; "valueOf"; "__proto__";
   "__defineGetter__"; "__defineSetter__"; "__lookupGetter__"; "__lookupSetter__"].

Fixpoint assoc (k : string) (tbl : list (string * Z)) : option Z :=
  match tbl with
  | [] => None
  | (k', v) :: tbl' => if String.eqb k k' then Some v else assoc k tbl'
  end.

(** [SEVERITY_ORDER[sev]]; a missing [sev] reads the key ["undefined"]. *)
Definition SEVERITY_ORDER_get (sev : option string) : looked_up :=
  let k := match sev with Some s => s | None => "undefined" end in
  match assoc k SEVERITY_ORDER with
  | Some n => Number n
  | None => if includes Object_prototype k then Inherited k else Undefined
  end.

(** [a?.properties?.severity] *)
Definition severityOf (f : Feature) : option string :=
  match properties f with
  | Some p => severity p
  | None => None
  end.

(** [SEVERITY_ORDER[a?.properties?.severity] || 0]: the numbers of the table
    and a function or object are truthy. *)
Definition severityRank (f : Feature) : looked_up :=
  match SEVERITY_ORDER_get (severityOf f) with
  | Undefined => Number 0
  | Number n => Number n
  | Inherited k => Inherited k
  end.

Definition looked_up_eqb (a b : looked_up) : bool :=
  match a, b with
  | Undefined, Undefined => true
  | Number x, Number y => (x =? y)%Z
  | Inherited x, Inherited y => String.eqb x y
  | _, _ => false
  end.

(** [sb - sa]: a function or an object in a subtraction gives NaN. *)
Definition looked_up_sub (b a : looked_up) : option Z :=
  match b, a with
  | Number y, Number x => Some (y - x)%Z
  | _, _ => None
  end.

(** [new Date(a?.properties?.onset || a?.properties?.effective ||
    Date.now()).getTime()], the clock reading [now]. *)
Definition alertTime (h : Host) (now : Z) (f : Feature) : option Z :=
  let p := properties f in
  let onset_ := match p with Some p => onset p | None => None end in
  let effective_ := match p with Some p => effective p | None => None end in
  match or_field onset_ effective_ with
  | Some s => if String.eqb s "" then Some now else Date_getTime h s
  | None => Some now
  end.

(** The comparator handed to [active.sort]. *)
Definition compareAlerts (h : Host) (now : Z) (a b : Feature) : option Z :=
  let sa := severityRank a in
  let sb := severityRank b in
  if negb (looked_up_eqb sb sa) then looked_up_sub sb sa
  else sub_nan (alertTime h now a) (alertTime h now b).

(** What [renderAlertsForPrimary] builds and returns: the cards in the order
    of the fragment (one per alert; none for the "No active alerts" card or
    the error message), which go into [#alerts-list] when the page has it,
    and the record [{ activeCount, hadError }]. *)
Record Rendered := {
  cards : list Feature;
  activeCount : nat;
  hadError : bool;
}.

(** [renderAlertsForPrimary(lat, lon)], with the clock reading [now] during
    the sort.  The branch of the empty list appends its card to [list]
    without the test [if (list)] of the other branch: on a page without
    [#alerts-list] that throws, and the [catch] answers as for a failed
    aggregation.  Nothing else in the [try] throws, the text fields of an
    alert being strings or missing, as the API gives them. *)
Definition renderAlertsForPrimary (h : Host) (now : Z) (lat lon : string) : Rendered :=
  match fetchAlertsCombined h lat lon with
  | Resolved active =>
      match active with
      | [] =>
          if has_alerts_list h
          then {| cards := []; activeCount := 0; hadError := false |}
          else {| cards := []; activeCount := 0; hadError := true |}
      | _ :: _ =>
          let sorted := sort (compareAlerts h now) active in
          {| cards := sorted; activeCount := length sorted; hadError := false |}
      end
  | Rejected _ => {| cards := []; activeCount := 0; hadError := true |}
  end.

(** The two sort keys as numbers, for alerts on which the comparator
    computes with numbers ([sortable]). *)
Definition rankOf (f : Feature) : Z :=
  match severityRank f with
  | Number n => n
  | _ => 0%Z
  end.

Definition timeOf (h : Host) (now : Z) (f : Feature) : Z :=
  match alertTime h now f with
  | Some t => t
  | None => 0%Z
  end.

(** The severity is not the name of an inherited member and the stamp that
    is read is a date. *)
Definition sortable (h : Host) (now : Z) (f : Feature) : bool :=
  match severityRank f, alertTime h now f with
  | Number _, Some _ => true
  | _, _ => false
  end.

(** Severity descending, then time ascending. *)
Definition alert_order (h : Host) (now : Z) (a b : Feature) : Prop :=
  (rankOf b < rankOf a)%Z
  \/ (rankOf a = rankOf b /\ (timeOf h now a <= timeOf h now b)%Z).

(** The tie-break key in the words of the specification, "earliest of
    (onset, effective, now)": the least of the clock reading and of those
    of the two stamps that are there and are dates. *)
Definition earliestOf (h : Host) (now : Z) (f : Feature) : Z :=
  let p := props_of f in
  let read (s : option string) : option Z :=
    match s with
    | Some s => if String.eqb s "" then None else Date_getTime h s
    | None => None
    end in
  foldr Z.min now (omap read [onset p; effective p]).

(** The order in the words of the specification: severity descending, then
    the earliest of (onset, effective, now) ascending. *)
Definition spec_order (h : Host) (now : Z) (a b : Feature) : Prop :=
  (rankOf b < rankOf a)%Z
  \/ (rankOf a = rankOf b /\ (earliestOf h now a <= earliestOf h now b)%Z).

(** Whether the stamp [s] is a date before that of [best]. *)
Definition earlier (h : Host) (s best : string) : bool :=
  match Date_getTime h s, Date_getTime h best with
  | Some t, Some u => (t <? u)%Z
  | Some _, None => true
  | None, _ => false
  end.

(** The earliest of the feature's timestamps, [""] when it has none. *)
Definition earliestStamp (h : Host) (p : AlertProps) : string :=
  let given := List.filter (fun s => negb (String.eqb s ""))
                 (omap (fun s => s) [sent p; effective p; onset p; ends p; expires p]) in
  match given with
  | [] => ""
  | s :: rest => fold_left (fun best s => if earlier h s best then s else best) rest s
  end.

(** The identity key in the words of the specification: the feature id when
    present (any of the three ids the code reads), else a composite of the
    event name and the earliest timestamp (in the text of the code's
    composite). *)
Definition alertKey_spec (h : Host) (f : Feature) : string :=
  let p := props_of f in
  if truthy (f_id f) then or_str (f_id f) ""
  else if truthy (p_id p) then or_str (p_id p) ""
  else if truthy (p_at_id p) then or_str (p_at_id p) ""
  else or_str (event p) "Unknown" ++ "|" ++ earliestStamp h p.

End Alerts.

(** ** Endpoint cache *)
Module Endpoints.
Import Js Doc.

Local Open Scope string_scope.

Record EndpointSet := {
  hourlyUrl : string;
  dailyUrl : string;
  stationsUrl : string;
}.

(** The page's session as the resolver sees it: the module-level
    [endpointCache] and the requests sent so far, the latest first. *)
Record Session := {
  endpointCache : gmap string EndpointSet;
  requests : list string;
}.

Definition fresh : Session := {| endpointCache := ∅; requests := [] |}.

(** The network over time: the answer to the [n]-th request of the session
    when it asks for [url]. *)
Definition Network := nat -> string -> fetched (option Points).

Definition keyFromLatLon (lat lon : string) : string := lat ++ "," ++ lon.

(** [resolveEndpointsForPoint(lat, lon)]: the settled promise and the
    session after it. *)
Definition resolveEndpointsForPoint (net : Network) (lat lon : string) (s : Session)
  : fetched EndpointSet * Session :=
  let key := keyFromLatLon lat lon in
  match endpointCache s !! key with
  | Some v => (Resolved v, s)
  | None =>
      let u := Alerts.API ++ "/points/" ++ lat ++ "," ++ lon in
      let s1 := {| endpointCache := endpointCache s; requests := u :: requests s |} in
      match net (length (requests s)) u with
      | Rejected e => (Rejected e, s1)
      | Resolved points =>
          let props := match points with
                       | Some d => points_properties d
                       | None => None
                       end in
          let hourly := match props with Some p => forecastHourly p | None => None end in
          let daily := match props with Some p => forecast p | None => None end in
          let stations := match props with Some p => observationStations p | None => None end in
          if negb (truthy hourly) || negb (truthy daily) || negb (truthy stations)
          then (Rejected "Could not resolve NWS endpoints from /points.", s1)
          else
            let v := {| hourlyUrl := or_str hourly ""; dailyUrl := or_str daily "";
                        stationsUrl := or_str stations "" |} in
            (Resolved v, {| endpointCache := <[ key := v ]> (endpointCache s);
                            requests := u :: requests s |})
      end
  end.

(** A later moment of the same session: any number of further resolutions,
    for any coordinates, have run in between. *)
Inductive later (net : Network) : Session -> Session -> Prop :=
  | later_refl s : later net s s
  | later_step s lat lon s' :
      later net s s' ->
      later net s (snd (resolveEndpointsForPoint net lat lon s')).

End Endpoints.

(** ** Observation selector *)
Module Observations.
Import Js Doc Env.

Local Open Scope string_scope.

(** An entry of [Promise.allSettled]: rejected, or fulfilled with
    [{ p: latest?.properties, id: f.id }]. *)
Record Candidate := {
  p : option ObsProps;
  id : string;
}.

Definition has_value (q : option Quantity) : bool :=
  match q with
  | Some q => match value q with Some _ => true | None => false end
  | None => false
  end.

(** The inner [score(p)]. *)
Definition score (p : ObsProps) : Z :=
  let hasTemp := has_value (temperature p) in
  let hasHumidity := has_value (relativeHumidity p) in
  let hasWindSpd := has_value (windSpeed p) in
  let hasWindDir := has_value (windDirection p) in
  let hasDesc := truthy (textDescription p) in
  if hasTemp && hasHumidity && hasWindSpd && hasWindDir then 3
  else if hasTemp && hasDesc then 2
  else if hasTemp || hasDesc then 1
  else 0.

(** The score in the words of the specification. *)
Definition score_spec (p : ObsProps) : Z :=
  let temp := has_value (temperature p) in
  let desc := truthy (textDescription p) in
  if temp && has_value (relativeHumidity p) && has_value (windSpeed p)
     && has_value (windDirection p) then 3
  else if temp && desc then 2
  else if xorb temp desc then 1
  else 0.

(** [new Date(a.p.timestamp || Date.now()).getTime()] *)
Definition obsTime (h : Host) (now : Z) (p : ObsProps) : option Z :=
  match timestamp p with
  | Some s => if String.eqb s "" then Some now else Date_getTime h s
  | None => Some now
  end.

(** The time as a number and whether it is one, for the statements. *)
Definition obsTimeOf (h : Host) (now : Z) (p : ObsProps) : Z :=
  match obsTime h now p with
  | Some t => t
  | None => 0%Z
  end.

Definition dated (h : Host) (now : Z) (p : ObsProps) : bool :=
  match obsTime h now p with
  | Some _ => true
  | None => false
  end.

(** What the comparator has for the time of an observation: [t] is the date
    of its timestamp, or the clock reading when it has none. *)
Definition reads_time (h : Host) (now : Z) (p : ObsProps) (t : Z) : Prop :=
  (exists s, timestamp p = Some s /\ s <> "" /\ Date_getTime h s = Some t)
  \/ (truthy (timestamp p) = false /\ t = now).

(** The tie-break in the words of the specification: no candidate of the
    score of [best] has an earlier time than [best]. *)
Definition earliest_of_its_score (h : Host) (now : Z)
           (candidates : list (ObsProps * string)) (best : ObsProps) : Prop :=
  forall c tb tc,
    In c candidates -> score (fst c) = score best ->
    reads_time h now best tb -> reads_time h now (fst c) tc -> (tb <= tc)%Z.

(** Score descending. *)
Definition by_score (a b : ObsProps * string) : Prop :=
  (score (fst b) <= score (fst a))%Z.

(** Score descending, then time ascending. *)
Definition by_score_then_time (h : Host) (now : Z) (a b : ObsProps * string) : Prop :=
  (score (fst b) < score (fst a))%Z
  \/ (score (fst a) = score (fst b)
      /\ (obsTimeOf h now (fst a) <= obsTimeOf h now (fst b))%Z).

(** The comparator of the sort of [usable]. *)
Definition compareObs (h : Host) (now : Z) (a b : ObsProps * string) : option Z :=
  let sa := score (fst a) in
  let sb := score (fst b) in
  if negb (sb =? sa)%Z then Some (sb - sa)%Z
  else sub_nan (obsTime h now (fst a)) (obsTime h now (fst b)).

(** [feats.slice(0, 10).filter(f => f?.id)], as the ids. *)
Definition subset (stations : option Stations) : list string :=
  let feats := match stations with
               | Some d => match stations_features d with
                           | Some fs => fs
                           | None => []
                           end
               | None => []
               end in
  omap (fun f => if truthy (station_id f) then station_id f else None) (take 10 feats).

(** One request: [getJSON(`${f.id}/observations/latest`).then(...)]. *)
Definition request (h : Host) (station : string) : fetched Candidate :=
  match getJSON_latest h (station ++ "/observations/latest") with
  | Rejected e => Rejected e
  | Resolved latest =>
      Resolved {| p := match latest with
                       | Some d => latest_properties d
                       | None => None
                       end;
                  id := station |}
  end.

(** [results.filter(r => r.status === 'fulfilled' && r.value?.p).map(r =>
    r.value)], each kept entry with its [p] at hand. *)
Definition usable_of (results : list (fetched Candidate)) : list (ObsProps * string) :=
  omap (fun r => match r with
                 | Resolved c => match p c with
                                 | Some props => Some (props, id c)
                                 | None => None
                                 end
                 | Rejected _ => None
                 end) results.

(** The selection on the settled requests. *)
Definition selectBest (h : Host) (now : Z) (results : list (fetched Candidate))
  : fetched ObsProps :=
  match sort (compareObs h now) (usable_of results) with
  | best :: _ => Resolved (fst best)
  | [] => Rejected "No recent observations available from nearby stations."
  end.

(** [getNearestObservationParallel(stations)] *)
Definition getNearestObservationParallel (h : Host) (now : Z) (stations : option Stations)
  : fetched ObsProps :=
  selectBest h now (map (request h) (subset stations)).

End Observations.

(** ** Auto-refresh scheduler *)
Module Scheduler.

(** How the awaited [renderAlertsForPrimary] ends inside [tick]. *)
Inductive RenderOutcome :=
  | Returned (hadError : bool)
  | Threw.

(** The closure of [startAlertsAutoRefresh]: its two options, its three
    variables, and the timers of the page that are armed for [tick], each
    with its handle and its delay.  Handles are positive, hence truthy. *)
Record State := {
  intervalMs : Z;
  maxBackoffMs : Z;
  nextDelay : Z;
  timerId : option positive;
  running : bool;
  armed : list (positive * Z);
  nextHandle : positive;
}.

(** [setTimeout(tick, delay)], its handle stored in [timerId]. *)
Definition setTimeout_tick (delay : Z) (s : State) : State :=
  {| intervalMs := intervalMs s; maxBackoffMs := maxBackoffMs s;
     nextDelay := nextDelay s;
     timerId := Some (nextHandle s);
     running := running s;
     armed := armed s ++ [(nextHandle s, delay)];
     nextHandle := Pos.succ (nextHandle s) |}.

(** [if (timerId) clearTimeout(timerId); timerId = null;] *)
Definition clear_timer (s : State) : State :=
  {| intervalMs := intervalMs s; maxBackoffMs := maxBackoffMs s;
     nextDelay := nextDelay s;
     timerId := None;
     running := running s;
     armed := match timerId s with
              | Some t => List.filter (fun a => negb (Pos.eqb (fst a) t)) (armed s)
              | None => armed s
              end;
     nextHandle := nextHandle s |}.

(** [startAlertsAutoRefresh(lat, lon, opts)] up to its [return]. *)
Definition startAlertsAutoRefresh (opt_intervalMs opt_maxBackoffMs : option Z) : State :=
  let intervalMs := match opt_intervalMs with Some v => v | None => 5 * 60 * 1000 end in
  let maxBackoffMs := match opt_maxBackoffMs with Some v => v | None => 30 * 60 * 1000 end in
  setTimeout_tick intervalMs
    {| intervalMs := intervalMs; maxBackoffMs := maxBackoffMs;
       nextDelay := intervalMs; timerId := None; running := false;
       armed := []; nextHandle := 1%positive |}.

(** What can happen to the closure. *)
Inductive Event :=
  | Fire (t : positive)
  | Settle (r : RenderOutcome)
  | Hidden
  | Visible
  | Cancel.

(** [tick] up to its [await]: the run guard and [running = true]. *)
Definition tick_begin (s : State) : State :=
  if running s then s
  else {| intervalMs := intervalMs s; maxBackoffMs := maxBackoffMs s;
          nextDelay := nextDelay s; timerId := timerId s; running := true;
          armed := armed s; nextHandle := nextHandle s |}.

(** The delay that the [try] and [catch] branches of [tick] assign. *)
Definition delay_after (s : State) (r : RenderOutcome) : Z :=
  match r with
  | Returned false => intervalMs s
  | Returned true => Z.min (nextDelay s * 2) (maxBackoffMs s)
  | Threw => Z.min (nextDelay s * 2) (maxBackoffMs s)
  end.

(** [tick] from the end of its [await]: the new delay, then [finally]. *)
Definition tick_end (s : State) (r : RenderOutcome) : State :=
  let d := delay_after s r in
  setTimeout_tick d
    {| intervalMs := intervalMs s; maxBackoffMs := maxBackoffMs s;
       nextDelay := d; timerId := timerId s; running := false;
       armed := armed s; nextHandle := nextHandle s |}.

(** One event.  A timer fires only while it is armed, and a render settles
    only while one is awaited; otherwise nothing happens. *)
Definition step (s : State) (e : Event) : State :=
  match e with
  | Fire t =>
      if existsb (fun a => Pos.eqb (fst a) t) (armed s)
      then tick_begin
             {| intervalMs := intervalMs s; maxBackoffMs := maxBackoffMs s;
                nextDelay := nextDelay s; timerId := timerId s; running := running s;
                armed := List.filter (fun a => negb (Pos.eqb (fst a) t)) (armed s);
                nextHandle := nextHandle s |}
      else s
  | Settle r => if running s then tick_end s r else s
  | Hidden => clear_timer s
  | Visible =>
      match timerId s with
      | Some _ => s
      | None => setTimeout_tick 1000 s
      end
  | Cancel => clear_timer s
  end.

Definition run (s : State) (es : list Event) : State := fold_left step es s.

(** A tick fails when the render throws or reports [hadError]. *)
Definition failed (r : RenderOutcome) : bool :=
  match r with
  | Returned hadError => hadError
  | Threw => true
  end.

End Scheduler.

(** ** A concrete host, for the examples *)
Module Demo.
Import Js Doc Env.

Local Open Scope string_scope.

(** [s] up to the first character that [stop] accepts, and [s] from there. *)
Fixpoint break (stop : ascii -> bool) (s : string) : string * string :=
  match s with
  | EmptyString => ("", "")
  | String c rest =>
      if stop c then ("", s)
      else let '(before, after) := break stop rest in (String c before, after)
  end.

(** [s] without the prefix [p], when it begins with it. *)
Fixpoint strip_prefix (p s : string) : option string :=
  match p, s with
  | EmptyString, _ => Some s
  | String a p', String b s' => if Ascii.eqb a b then strip_prefix p' s' else None
  | String _ _, EmptyString => None
  end.

(** [new URL(s).pathname] for the strings of these examples: of a URL that
    begins with [http://] or [https://] and whose path needs no normalising
    (no dot segments, no character that is escaped), the part from the first
    slash after the host up to the query or the fragment, [/] when there is
    none; a string without scheme does not parse (other schemes do not
    occur). *)
Definition pathname (s : string) : option string :=
  let after_scheme := match strip_prefix "https://" s with
                      | Some r => Some r
                      | None => strip_prefix "http://" s
                      end in
  match after_scheme with
  | Some r =>
      let among (cs : list ascii) (c : ascii) := existsb (Ascii.eqb c) cs in
      let '(_, from_path) := break (among ["/"; "?"; "#"]%char) r in
      let '(path, _) := break (among ["?"; "#"]%char) from_path in
      Some (if String.eqb path "" then "/" else path)
  | None => None
  end.

(** Form encoding, on the one character of these examples that needs it. *)
Fixpoint encode_commas (s : string) : string :=
  match s with
  | EmptyString => ""
  | String c rest =>
      if Ascii.eqb c ","%char then "%2C" ++ encode_commas rest
      else String c (encode_commas rest)
  end.

(** [new Date(s).getTime()] on the instants of the examples. *)
Definition instants : list (string * Z) :=
  [("2024-06-01T08:00:00Z", 1717228800000%Z);
   ("2024-06-01T14:00:00Z", 1717250400000%Z);
   ("2024-06-01T14:05:00Z", 1717250700000%Z);
   ("2024-06-02T00:00:00Z", 1717286400000%Z);
   ("2024-06-03T00:00:00Z", 1717372800000%Z)].

(** Noon of 2024-06-01 (UTC), a clock reading for the examples. *)
Definition noon : Z := 1717243200000%Z.

Definition host (points : string -> fetched (option Points))
                (alerts : string -> fetched (option Alerts))
                (latest : string -> fetched (option Latest)) : Host :=
  {| getJSON_points := points;
     getJSON_alerts := alerts;
     getJSON_latest := latest;
     URL_pathname := pathname;
     urlencode := encode_commas;
     Date_getTime := fun s => Alerts.assoc s instants;
     has_alerts_list := true |}.

(** The host [h] with a page that lacks [#alerts-list]. *)
Definition without_list (h : Host) : Host :=
  {| getJSON_points := getJSON_points h;
     getJSON_alerts := getJSON_alerts h;
     getJSON_latest := getJSON_latest h;
     URL_pathname := URL_pathname h;
     urlencode := urlencode h;
     Date_getTime := Date_getTime h;
     has_alerts_list := false |}.

(** A network that answers from a table and fails elsewhere. *)
Fixpoint answer {A} (table : list (string * A)) (url : string) : fetched A :=
  match table with
  | [] => Rejected "Request failed (404 Not Found): "
  | (u, a) :: rest => if String.eqb url u then Resolved a else answer rest url
  end.

(** An alert feature with the given fields and nothing else. *)
Definition alert (id_ : option string) (event_ severity_ : string)
                 (sent_ effective_ onset_ : option string) (ugc : list string) : Feature :=
  {| f_id := id_;
     properties := Some {| p_id := None; p_at_id := None; sent := sent_;
                           effective := effective_; onset := onset_;
                           ends := None; expires := None; event := Some event_;
                           severity := Some severity_; headline := None;
                           geocode_UGC := Some ugc |} |}.

(** The page's own coordinates ([LAT], [LON]) and its [/points] answer with
    two zones. *)
Definition LAT : string := "30.54879530015167".
Definition LON : string := "-97.62424544848307".

Definition points_url : string :=
  "https://api.weather.gov/points/30.54879530015167,-97.62424544848307".
Definition point_alerts_url : string :=
  "https://api.weather.gov/alerts?status=actual&message_type=alert&active=1&point=30.54879530015167%2C-97.62424544848307".
Definition zone_alerts_url (z : string) : string :=
  "https://api.weather.gov/alerts?status=actual&message_type=alert&active=1&zone=" ++ z.

Definition two_zones : option Points :=
  Some {| points_properties := Some
    {| forecastZone := Some "https://api.weather.gov/zones/forecast/TX209";
       county := Some "https://api.weather.gov/zones/county/TX453";
       fireWeatherZone := Some "https://api.weather.gov/zones/fire/TX209";
       forecastHourly := Some "https://api.weather.gov/gridpoints/EWX/158,107/forecast/hourly";
       forecast := Some "https://api.weather.gov/gridpoints/EWX/158,107/forecast";
       observationStations := Some "https://api.weather.gov/gridpoints/EWX/158,107/stations" |} |}.

Definition features_doc (fs : list Feature) : option Alerts :=
  Some {| alerts_features := Some fs |}.

(** The run with the given alert answers (a URL that is not listed fails). *)
Definition alerts_host (alerts : list (string * option Alerts)) : Host :=
  host (answer [(points_url, two_zones)]) (answer alerts) (fun _ => Rejected "").

(** Two answers for one alert, whose texts differ, and a second alert. *)
Definition flood_point : Feature :=
  alert (Some "urn:oid:2.49.0.1.840.0.1") "Flood Warning" "Severe"
    (Some "2024-06-01T08:00:00Z") (Some "2024-06-01T08:00:00Z")
    (Some "2024-06-01T14:00:00Z") ["TX209"].
Definition flood_zone : Feature :=
  alert (Some "urn:oid:2.49.0.1.840.0.1") "Flood Warning (update)" "Severe"
    (Some "2024-06-01T08:00:00Z") (Some "2024-06-01T08:00:00Z")
    (Some "2024-06-01T14:00:00Z") ["TX209"; "TX453"].
Definition heat_zone : Feature :=
  alert (Some "urn:oid:2.49.0.1.840.0.2") "Heat Advisory" "Minor"
    (Some "2024-06-01T08:00:00Z") (Some "2024-06-01T08:00:00Z")
    (Some "2024-06-02T00:00:00Z") ["TX453"].
(** An alert of a neighbouring zone. *)
Definition neighbour : Feature :=
  alert (Some "urn:oid:2.49.0.1.840.0.3") "Wind Advisory" "Minor"
    (Some "2024-06-01T08:00:00Z") (Some "2024-06-01T08:00:00Z")
    (Some "2024-06-02T00:00:00Z") ["ZZ999"].

(** A watch issued at 08:00 for a flood that begins on 3 June, and a
    warning issued at 14:00 for a storm that begins at 14:05. *)
Definition flood_watch : Feature :=
  alert (Some "urn:oid:2.49.0.1.840.0.4") "Flood Watch" "Severe"
    (Some "2024-06-01T08:00:00Z") (Some "2024-06-01T08:00:00Z")
    (Some "2024-06-03T00:00:00Z") ["TX209"].
Definition storm_warning : Feature :=
  alert (Some "urn:oid:2.49.0.1.840.0.5") "Severe Thunderstorm Warning" "Severe"
    (Some "2024-06-01T14:00:00Z") (Some "2024-06-01T14:00:00Z")
    (Some "2024-06-01T14:05:00Z") ["TX209"].

(** Three stations: a full observation, one with the temperature only,
    and a station whose request fails. *)
Definition measured (v : float) (unit : string) : option Quantity :=
  Some {| value := Some v; unitCode := Some unit |}.
Definition not_measured (unit : string) : option Quantity :=
  Some {| value := None; unitCode := Some unit |}.

Definition obs_A : ObsProps :=
  {| temperature := measured 31.5 "wmoUnit:degC";
     relativeHumidity := measured 48.25 "wmoUnit:percent";
     windSpeed := measured 14.75 "wmoUnit:km_h-1";
     windDirection := measured 180 "wmoUnit:degree_(angle)";
     textDescription := Some "Mostly Cloudy";
     timestamp := Some "2024-06-01T14:00:00Z" |}.
Definition obs_B : ObsProps :=
  {| temperature := measured 30.5 "wmoUnit:degC";
     relativeHumidity := not_measured "wmoUnit:percent";
     windSpeed := not_measured "wmoUnit:km_h-1";
     windDirection := not_measured "wmoUnit:degree_(angle)";
     textDescription := Some "";
     timestamp := Some "2024-06-01T08:00:00Z" |}.

(** A full observation of 08:00, and one whose timestamp is no date. *)
Definition obs_early : ObsProps :=
  {| temperature := measured 27.5 "wmoUnit:degC";
     relativeHumidity := measured 61.5 "wmoUnit:percent";
     windSpeed := measured 9.25 "wmoUnit:km_h-1";
     windDirection := measured 90 "wmoUnit:degree_(angle)";
     textDescription := Some "Clear";
     timestamp := Some "2024-06-01T08:00:00Z" |}.
Definition obs_undated : ObsProps :=
  {| temperature := measured 29.5 "wmoUnit:degC";
     relativeHumidity := measured 55.5 "wmoUnit:percent";
     windSpeed := measured 11.5 "wmoUnit:km_h-1";
     windDirection := measured 135 "wmoUnit:degree_(angle)";
     textDescription := Some "Fair";
     timestamp := Some "not-a-date" |}.

Definition three_stations : option Stations :=
  Some {| stations_features := Some
    [ {| station_id := Some "https://api.weather.gov/stations/KGTU" |};
      {| station_id := Some "https://api.weather.gov/stations/KAUS" |};
      {| station_id := Some "https://api.weather.gov/stations/KRYW" |} ] |}.

Definition stations_host : Host :=
  host (fun _ => Rejected "") (fun _ => Rejected "")
    (answer
       [("https://api.weather.gov/stations/KGTU/observations/latest",
         Some {| latest_properties := Some obs_A |});
        ("https://api.weather.gov/stations/KAUS/observations/latest",
         Some {| latest_properties := Some obs_B |})]).

(** The three stations with the observation of 14:00 at the nearest and
    that of 08:00 at the second (the third fails). *)
Definition tie_host : Host :=
  host (fun _ => Rejected "") (fun _ => Rejected "")
    (answer
       [("https://api.weather.gov/stations/KGTU/observations/latest",
         Some {| latest_properties := Some obs_A |});
        ("https://api.weather.gov/stations/KAUS/observations/latest",
         Some {| latest_properties := Some obs_early |})]).

(** The same with the undated observation between the two. *)
Definition undated_host : Host :=
  host (fun _ => Rejected "") (fun _ => Rejected "")
    (answer
       [("https://api.weather.gov/stations/KGTU/observations/latest",
         Some {| latest_properties := Some obs_A |});
        ("https://api.weather.gov/stations/KAUS/observations/latest",
         Some {| latest_properties := Some obs_undated |});
        ("https://api.weather.gov/stations/KRYW/observations/latest",
         Some {| latest_properties := Some obs_early |})]).

(** 2024-06-01T18:00:00Z, a clock reading after both were issued. *)
Definition evening : Z := 1717264800000%Z.

End Demo.

From stdpp Require Import pretty.

Local Open Scope Z_scope.

(** ** Hosts that differ in their alert answers *)
Module Variation.
Import Js Doc Env.

(** The host [h] with [alerts] for its answers to the alert queries. *)
Definition with_alerts (h : Host) (alerts : string -> fetched (option Alerts)) : Host :=
  {| getJSON_points := getJSON_points h;
     getJSON_alerts := alerts;
     getJSON_latest := getJSON_latest h;
     URL_pathname := URL_pathname h;
     urlencode := urlencode h;
     Date_getTime := Date_getTime h;
     has_alerts_list := has_alerts_list h |}.

End Variation.

(** ** The zone references of a point *)
Module Zones.
Import Doc.

(** The references of a [/points] answer to its three zones. *)
Definition zone_refs (points : option Points) : list (option string) :=
  match points with
  | Some d => match points_properties d with
              | Some p => [forecastZone p; county p; fireWeatherZone p]
              | None => []
              end
  | None => []
  end.

Local Open Scope string_scope.

Fixpoint has_slash (s : string) : bool :=
  match s with
  | EmptyString => false
  | String c rest => Ascii.eqb c "/"%char || has_slash rest
  end.

(** [k] slashes. *)
Fixpoint slashes (k : nat) : string :=
  match k with
  | O => ""
  | S k => String "/"%char (slashes k)
  end.

(** [pieces.join('/')] *)
Fixpoint join_slash (pieces : list string) : string :=
  match pieces with
  | [] => ""
  | piece :: rest =>
      match rest with
      | [] => piece
      | _ :: _ => piece ++ String "/"%char (join_slash rest)
      end
  end.

(** [before] is empty or ends with a slash. *)
Definition ends_segment (before : string) : Prop :=
  before = "" \/ exists b, before = b ++ "/".

(** [z] is the last segment of [path]: not empty, without a slash, at the
    start of [path] or right after a slash, and followed by slashes only. *)
Definition last_segment (z path : string) : Prop :=
  z <> "" /\ has_slash z = false
  /\ exists before k, path = before ++ z ++ slashes k /\ ends_segment before.

(** [z] is what follows the last slash of [u] (the whole of [u] when it has
    none). *)
Definition after_last_slash (z u : string) : Prop :=
  has_slash z = false /\ exists before, u = before ++ z /\ ends_segment before.

End Zones.

(** ** Who comes first *)
Module Order.
Import Js Doc Env.

(** The first element of [l] that no element of [l] precedes strictly: the
    first [x] with [le x y] for every [y] of [l]. *)
Definition first_best {A} (le : A -> A -> bool) (l : list A) : option A :=
  find (fun x => forallb (le x) l) l.

(** An observation is not after another, for the times [time] of the
    observations: a higher score, or the same score and a time that is not
    later. *)
Definition obs_le (time : ObsProps -> Z) (a b : ObsProps * string) : bool :=
  (Observations.score (fst b) <? Observations.score (fst a))
  || ((Observations.score (fst b) =? Observations.score (fst a))
      && (time (fst a) <=? time (fst b))).

(** Two alerts that the comparator cannot tell apart: both sortable, the
    same severity rank and the same time. *)
Definition same_place (h : Host) (now : Z) (x y : Feature) : bool :=
  Alerts.sortable h now x && Alerts.sortable h now y
  && (Alerts.rankOf x =? Alerts.rankOf y)
  && (Alerts.timeOf h now x =? Alerts.timeOf h now y).

End Order.

(** ** Runs of the scheduler *)
Module Refresh.
Import Scheduler.

(** A tick of the undisturbed loop: the timer that [timerId] names fires and
    the render settles with [r]. *)
Definition plain_tick (s : State) (r : RenderOutcome) : State :=
  match timerId s with
  | Some t => run s [Fire t; Settle r]
  | None => s
  end.

Definition plain_run (s : State) (rs : list RenderOutcome) : State :=
  fold_left plain_tick rs s.

(** The loop at rest: no render awaited and one timer armed, the one that
    [timerId] names, for the next delay. *)
Definition at_rest (s : State) : Prop :=
  running s = false
  /\ exists t, timerId s = Some t /\ armed s = [(t, nextDelay s)].

(** A delay that the scheduler may arm: the resume delay of the visibility
    handler, or one between the base interval and the cap. *)
Definition allowed_delay (s : State) (d : Z) : Prop :=
  d = 1000 \/ intervalMs s <= d <= maxBackoffMs s.

(** Events other than the page becoming visible. *)
Definition not_visible (e : Event) : bool :=
  match e with
  | Visible => false
  | _ => true
  end.

End Refresh.

(** ** What the endpoint cache holds *)
Module Cache.
Import Endpoints.

Local Open Scope string_scope.

(** An EndpointSet with its three URLs. *)
Definition complete (v : EndpointSet) : Prop :=
  hourlyUrl v <> "" /\ dailyUrl v <> "" /\ stationsUrl v <> "".

End Cache.

(** ** Unit conversions *)
Module Convert.
Import Num Compass.

Local Open Scope string_scope.

(** [toF(valueC)] *)
Definition toF (valueC : option float) : option float :=
  match valueC with
  | None => None
  | Some c =>
      if negb (is_finite c) then None
      else let f := (c * 9 / 5 + 32)%float in
           if is_finite f then Some f else None
  end.

(** The doubles of the literals [0.621371] and [2.23694]. *)
Definition km_h_to_mph : float := 0x1.3e2456f75d9a1p-1%float.
Definition m_s_to_mph : float := 0x1.1e540cc78e9f7p+1%float.

(** [windToMph(value, unitCode)] *)
Definition windToMph (value : option float) (unitCode : option string) : option float :=
  match value with
  | None => None
  | Some v =>
      if negb (is_finite v) then None
      else if bool_decide (unitCode = Some "wmoUnit:km_h-1") then Some (v * km_h_to_mph)%float
      else if bool_decide (unitCode = Some "wmoUnit:m_s-1") then Some (v * m_s_to_mph)%float
      else if bool_decide (unitCode = Some "wmoUnit:mi_h-1") then Some v
      else Some v
  end.

(** The double that [JSON.parse] makes of a decimal with one digit after
    the point, [t / 10]: the nearest double, which the division of the two
    whole numbers gives as well. *)
Definition tenths (t : Z) : float := (float_of_Z t / float_of_Z 10)%float.

(** The whole number that is displayed: [Math.round] of a conversion. *)
Definition rounded (x : option float) : option Z :=
  match x with
  | Some f => Math_round f
  | None => None
  end.

(** The sector of a whole number of degrees in [0, 360), in exact
    arithmetic: [floor(r / 22.5 + 1/2) mod 16]. *)
Definition sector (r : Z) : Z := ((4 * r + 45) / 90) mod 16.

Definition sector_agrees (r : Z) : bool :=
  bool_decide (fromResidue (float_of_Z r) = dirs !! Z.to_nat (sector r)).

Definition toF_agrees (t : Z) : bool :=
  bool_decide (rounded (toF (Some (tenths t))) = Some ((9 * t + 1625) / 50)).

Definition km_h_agrees (t : Z) : bool :=
  bool_decide (rounded (windToMph (Some (tenths t)) (Some "wmoUnit:km_h-1"))
               = Some ((1242742 * t + 10000000) / 20000000)).

Definition m_s_agrees (t : Z) : bool :=
  bool_decide (rounded (windToMph (Some (tenths t)) (Some "wmoUnit:m_s-1"))
               = Some ((447388 * t + 1000000) / 2000000)).

Definition mph_agrees (t : Z) : bool :=
  bool_decide (rounded (windToMph (Some (tenths t)) (Some "wmoUnit:mi_h-1"))
               = Some ((t + 5) / 10)).

End Convert.

(** ** The extended forecast table *)
Module Table.
Import Js.

Local Open Scope string_scope.

(** A period of the daily forecast, at the fields the table reads; the
    temperature is the whole number that the API sends. *)
Record Period := {
  name : option string;
  temperature : option Z;
  temperatureUnit : option string;
  shortForecast : option string;
  isDaytime : bool;
}.

(** Of the host: [s.trim()] and [s.replace(/\bDay$/i, '')]. *)
Record Text := {
  trim : string -> string;
  stripDay : string -> string;
}.

(** The five cells of a row. *)
Record Row := {
  day : string;
  dayHigh : string;
  dayCond : string;
  nightLow : string;
  nightCond : string;
}.

(** [(p && p.temperature != null && p.temperatureUnit)
      ? `${p.temperature}°${p.temperatureUnit}` : '—'] *)
Definition tempCell (p : option Period) : string :=
  match p with
  | Some d =>
      match temperature d with
      | Some t => if truthy (temperatureUnit d)
                  then pretty t ++ "°" ++ or_str (temperatureUnit d) ""
                  else "—"
      | None => "—"
      end
  | None => "—"
  end.

(** [p ? (p.shortForecast || '').trim() || '—' : '—'] *)
Definition condCell (tx : Text) (p : option Period) : string :=
  match p with
  | Some d => or_str (Some (trim tx (or_str (shortForecast d) ""))) "—"
  | None => "—"
  end.

(** The row of a daytime period and of the night that follows it, if one
    does. *)
Definition row (tx : Text) (d : Period) (night : option Period) : Row :=
  let dayName := trim tx (stripDay tx (or_str (name d) "")) in
  {| day := or_str (Some dayName) "—";
     dayHigh := tempCell (Some d);
     dayCond := condCell tx (Some d);
     nightLow := tempCell night;
     nightCond := condCell tx night |}.

(** The loop over [dailyData]: a row for each daytime period, with the next
    period when that one is not daytime; the index [i + 1] of the loop is the
    head of the rest of the list. *)
Fixpoint extendedRows (tx : Text) (dailyData : list Period) : list Row :=
  match dailyData with
  | [] => []
  | d :: rest =>
      if isDaytime d
      then
        let night := match rest with
                     | n :: _ => if negb (isDaytime n) then Some n else None
                     | [] => None
                     end in
        row tx d night :: extendedRows tx rest
      else extendedRows tx rest
  end.

(** A forecast that alternates: each day with its night. *)
Definition alternating (pairs : list (Period * Period)) : list Period :=
  flat_map (fun dn => [fst dn; snd dn]) pairs.

End Table.

(** ** The helpers that write to the page *)
Module Dom.

Local Open Scope string_scope.

(** An element of the page, at what the helpers touch. *)
Record Element := {
  textContent : string;
  classList : gset string;
}.

(** The elements of the page that have an id. *)
Definition Document := gmap string Element.

(** [setText(id, text, suffix)]; [text] is a string here (a number that is
    passed has been rendered), [None] being [null] or [undefined]. *)
Definition setText (id : string) (text : option string) (suffix : option string)
           (doc : Document) : Document :=
  match doc !! id with
  | None => doc
  | Some el =>
      let safe := match text with
                  | None => "—"
                  | Some t => if String.eqb t "" then "—" else t
                  end in
      <[ id := {| textContent := safe ++ match suffix with Some s => s | None => "" end;
                  classList := classList el ∖ {[ "loading" ]} |} ]> doc
  end.

(** [showError(id, msg)] *)
Definition showError (id : string) (msg : option string) (doc : Document) : Document :=
  match doc !! id with
  | None => doc
  | Some el =>
      <[ id := {| textContent := match msg with
                                 | Some m => m
                                 | None => "An error occurred."
                                 end;
                  classList := classList el ∖ {[ "is-hidden" ]} |} ]> doc
  end.

(** [hideError(id)] *)
Definition hideError (id : string) (doc : Document) : Document :=
  match doc !! id with
  | None => doc
  | Some el =>
      <[ id := {| textContent := "";
                  classList := {[ "is-hidden" ]} ∪ classList el |} ]> doc
  end.

End Dom.

(** ** The fetch helper *)
Module Fetch.
Import Js.

Local Open Scope string_scope.

(** A JavaScript string as its UTF-16 code units, which [slice] counts. *)
Definition units := list N.

(** The code units of a text in ASCII. *)
Definition units_of (s : string) : units :=
  map N_of_ascii (list_ascii_of_string s).

(** What [fetch] comes to within [getJSON]: a rejection with an error named
    [AbortError] (the timer has fired), a rejection with another error, or a
    response, with what reading its body as text ([None] when that fails,
    for whatever reason) and as JSON gives. *)
Inductive Reply (J : Type) :=
  | Aborted
  | Failed (error : string)
  | Response (ok : bool) (status : N) (statusText : units)
             (text : option units) (json : fetched J).
Arguments Aborted {J}.
Arguments Failed {J} error.
Arguments Response {J} ok status statusText text json.

(** How the promise of [getJSON] settles: an [Error] made by [getJSON] with
    its message, the error of [fetch] as it came, or the promise of
    [res.json()]. *)
Inductive Outcome (J : Type) :=
  | Threw (message : units)
  | Rethrew (error : string)
  | Json (body : fetched J).
Arguments Threw {J} message.
Arguments Rethrew {J} error.
Arguments Json {J} body.

Definition timed_out : units := units_of "Request timed out. Please retry.".

(** [`Request failed (${res.status} ${res.statusText}): `] *)
Definition request_failed (status : N) (statusText : units) : units :=
  (units_of "Request failed (" ++ units_of (pretty status) ++ units_of " "
   ++ statusText ++ units_of "): ")%list.

(** [getJSON(url)] on the reply to its request.  A failure of [res.text()]
    is caught on the spot and reads as the empty text; [res.json()] is
    returned without [await], so that its failure passes as it is. *)
Definition getJSON {J} (reply : Reply J) : Outcome J :=
  match reply with
  | Aborted => Threw timed_out
  | Failed e => Rethrew e
  | Response ok status statusText text json =>
      if ok then Json json
      else
        let text := match text with Some t => t | None => [] end in
        Threw (request_failed status statusText ++ take 160 text)%list
  end.

End Fetch.

(** * Properties *)

(** ** Doubles that hold whole numbers *)
Section WholeDoubles.
Import Num.

Lemma digits2_iter_xO (m p : positive) :
  digits2_pos (Pos.iter xO m p) = (digits2_pos m + p)%positive.
Proof.
  induction p as [|p IH] using Pos.peano_ind.
  - simpl. lia.
  - rewrite Pos.iter_succ. simpl. rewrite IH. lia.
Qed.

Lemma Zpos_iter_xO (m p : positive) :
  Z.pos (Pos.iter xO m p) = Z.pos m * 2 ^ Z.pos p.
Proof.
  induction p as [|p IH] using Pos.peano_ind.
  - simpl. lia.
  - rewrite Pos.iter_succ, Pos2Z.inj_xO, IH, Pos2Z.inj_succ, Z.pow_succ_r by lia. lia.
Qed.

(** A mantissa of 53 digits in the normal range is left as it is. *)
Lemma binary_round_aux_canonical (s : bool) (m : positive) (e : Z) :
  Z.pos (digits2_pos m) = 53 -> -1074 <= e <= 971 ->
  binary_round_aux prec emax s (Z.pos m) e loc_Exact = S754_finite s m e.
Proof.
  intros Hd He. unfold binary_round_aux, shr_fexp, fexp, emin, prec, emax.
  cbn [Zdigits2 shr_record_of_loc]. rewrite Hd.
  replace (Z.max (53 + e - 53) (3 - 1024 - 53) - e) with 0 by lia.
  cbn [shr shr_m loc_of_shr_record round_nearest_even Zdigits2 shr_record_of_loc].
  rewrite Hd.
  replace (Z.max (53 + e - 53) (3 - 1024 - 53) - e) with 0 by lia.
  cbn [shr shr_m].
  replace (e <=? 1024 - 53) with true by (symmetry; apply Z.leb_le; lia).
  reflexivity.
Qed.

Lemma binary_round_exact (s : bool) (m : positive) (e : Z) :
  let d := Z.pos (digits2_pos m) in
  d <= 53 -> -1074 <= e + d - 53 <= 971 ->
  exists M, binary_round prec emax s m e = S754_finite s M (e + d - 53)
            /\ Z.pos M = Z.pos m * 2 ^ (53 - d).
Proof.
  intros d Hd He. unfold binary_round, fexp, emin, prec, emax. fold d.
  replace (Z.max (d + e - 53) (3 - 1024 - 53)) with (d + e - 53) by lia.
  unfold shl_align.
  destruct (d + e - 53 - e) as [|p|p] eqn:E; try lia.
  - exists m. replace (e + d - 53) with e by lia.
    rewrite binary_round_aux_canonical by (unfold d in *; lia).
    split; [reflexivity|]. replace (53 - d) with 0 by lia. lia.
  - exists (Pos.iter xO m p). replace (e + d - 53) with (d + e - 53) by lia.
    rewrite binary_round_aux_canonical.
    + split; [reflexivity|]. rewrite Zpos_iter_xO. f_equal. f_equal. lia.
    + rewrite digits2_iter_xO. unfold d in *. lia.
    + lia.
Qed.

Lemma digits2_bound (m : positive) (n : Z) :
  0 <= n -> Z.pos m < 2 ^ n -> Z.pos (digits2_pos m) <= n.
Proof.
  revert n. induction m as [m IH|m IH|]; intros n Hn Hm; simpl.
  - destruct (Z.eq_dec n 0) as [->|]; [simpl in Hm; lia|].
    rewrite Pos2Z.inj_succ. specialize (IH (n - 1)).
    replace n with (Z.succ (n - 1)) in Hm by lia. rewrite Z.pow_succ_r in Hm by lia.
    lia.
  - destruct (Z.eq_dec n 0) as [->|]; [simpl in Hm; lia|].
    rewrite Pos2Z.inj_succ. specialize (IH (n - 1)).
    replace n with (Z.succ (n - 1)) in Hm by lia. rewrite Z.pow_succ_r in Hm by lia.
    lia.
  - destruct (Z.eq_dec n 0) as [->|]; [simpl in Hm; lia|]. lia.
Qed.

Lemma digits2_scaled (q r : positive) (p : Z) :
  0 <= p -> Z.pos q = Z.pos r * 2 ^ p ->
  Z.pos (digits2_pos q) = Z.pos (digits2_pos r) + p.
Proof.
  intros Hp E. destruct p as [|p|p]; [| |lia].
  - rewrite Z.pow_0_r, Z.mul_1_r in E. injection E as ->. lia.
  - rewrite <- Zpos_iter_xO in E. injection E as ->.
    rewrite digits2_iter_xO. lia.
Qed.

(** The double of a whole number below 2^53 in size: its sign, and a
    mantissa of 53 digits that is the number scaled by a power of two. *)
Lemma normalize_whole (s : bool) (q : positive) (e : Z) :
  let d := Z.pos (digits2_pos q) in
  d <= 53 -> -1074 <= e + d - 53 <= 971 ->
  exists M, binary_round prec emax s q e = S754_finite s M (e + d - 53)
            /\ Z.pos M = Z.pos q * 2 ^ (53 - d)
            /\ valid_binary (S754_finite s M (e + d - 53)) = true.
Proof.
  intros d Hd He.
  destruct (binary_round_exact s q e Hd He) as (M & HM & HZ).
  exists M. split; [exact HM|]. split; [exact HZ|].
  pose proof (digits2_scaled M q (53 - d) ltac:(lia) HZ) as HdM. fold d in HdM.
  unfold SpecFloat.valid_binary, bounded, canonical_mantissa, fexp, emin, prec, emax.
  apply andb_true_intro. split.
  - apply Z.eqb_eq. lia.
  - apply Z.leb_le. lia.
Qed.

(** Two presentations [q * 2^-p = r] of one number normalise alike. *)
Lemma binary_round_same (s : bool) (q r : positive) (p : Z) :
  0 <= p -> Z.pos q = Z.pos r * 2 ^ p ->
  Z.pos (digits2_pos q) <= 53 -> p <= 52 ->
  binary_round prec emax s q (- p) = binary_round prec emax s r 0.
Proof.
  intros Hp E Hd Hp52.
  pose proof (digits2_scaled q r p Hp E) as Hdq.
  assert (0 < Z.pos (digits2_pos r)) by lia.
  destruct (normalize_whole s q (- p)) as (M1 & -> & Z1 & _); [lia|lia|].
  destruct (normalize_whole s r 0) as (M2 & -> & Z2 & _); [lia|lia|].
  f_equal; [|lia].
  apply Pos2Z.inj. rewrite Z1, Z2, E, Hdq, <- Z.mul_assoc, <- Z.pow_add_r by lia.
  f_equal. f_equal. lia.
Qed.

Lemma digits2_upper (m : positive) : Z.pos m < 2 ^ Z.pos (digits2_pos m).
Proof.
  induction m as [m IH|m IH|]; simpl; [| |lia];
    rewrite Pos2Z.inj_succ, Z.pow_succ_r by lia; lia.
Qed.

Lemma scaled_below (z : Z) :
  z <> 0 -> Z.abs z * 2 ^ (53 - Zdigits2 z) < 2 ^ 53.
Proof.
  intros Hz.
  assert (H : Z.abs z < 2 ^ Zdigits2 z).
  { destruct z as [|q|q]; [congruence| |]; apply digits2_upper. }
  assert (0 < Zdigits2 z) by (destruct z; [congruence| |]; simpl; lia).
  destruct (Z.le_gt_cases (Zdigits2 z) 53) as [Hle|Hgt].
  - replace (2 ^ 53) with (2 ^ Zdigits2 z * 2 ^ (53 - Zdigits2 z)).
    + apply Z.mul_lt_mono_pos_r; [apply Z.pow_pos_nonneg; lia|exact H].
    + rewrite <- Z.pow_add_r by lia. f_equal. lia.
  - rewrite Z.pow_neg_r by lia. lia.
Qed.

Lemma Prim2SF_float_of_Z (z : Z) :
  z <> 0 -> Z.abs z < 2 ^ 53 ->
  exists M, Prim2SF (float_of_Z z)
            = S754_finite (z <? 0) M (Zdigits2 z - 53)
            /\ (if z <? 0 then Z.neg M else Z.pos M) = z * 2 ^ (53 - Zdigits2 z)
            /\ 0 <= 53 - Zdigits2 z <= 52.
Proof.
  intros Hz Hb. unfold float_of_Z.
  destruct z as [|q|q]; [congruence| |]; cbn [binary_normalize Zdigits2 Z.ltb Z.compare].
  - pose proof (digits2_bound q 53 ltac:(lia) ltac:(lia)) as Hd.
    destruct (normalize_whole false q 0 Hd ltac:(lia)) as (M & HM & HZ & Hv).
    exists M. rewrite HM, Prim2SF_SF2Prim by exact Hv.
    split; [f_equal; lia|]. split; [exact HZ|lia].
  - pose proof (digits2_bound q 53 ltac:(lia) ltac:(lia)) as Hd.
    destruct (normalize_whole true q 0 Hd ltac:(lia)) as (M & HM & HZ & Hv).
    exists M. rewrite HM, Prim2SF_SF2Prim by exact Hv.
    split; [f_equal; lia|]. split; [|lia].
    rewrite <- !Pos2Z.opp_pos, HZ. lia.
Qed.

(** [%] on the double of a whole number is the remainder of the whole
    numbers; a zero remainder has the sign of the dividend. *)
Lemma js_rem_whole (z n : Z) :
  0 < n -> Z.abs z < 2 ^ 53 ->
  js_rem (float_of_Z z) n
  = if Z.rem z n =? 0 then (if z <? 0 then PrimFloat.neg_zero else PrimFloat.zero)
    else float_of_Z (Z.rem z n).
Proof.
  intros Hn Hb. destruct (Z.eq_dec z 0) as [->|Hz].
  { rewrite Z.rem_0_l by lia. reflexivity. }
  destruct (Prim2SF_float_of_Z z Hz Hb) as (M & HP & HM & Hp).
  unfold js_rem. rewrite HP. set (p := 53 - Zdigits2 z) in *.
  replace (Zdigits2 z - 53) with (- p) by lia.
  assert (Hrem : Z.rem (z * 2 ^ p) (n * 2 ^ p) = Z.rem z n * 2 ^ p).
  { apply Z.mul_rem_distr_r; [lia|]. apply Z.pow_nonzero; lia. }
  assert (Hbody : (let '(mz, ez) :=
                     if 0 <=? - p
                     then ((if z <? 0 then Z.neg M else Z.pos M) * 2 ^ (- p), 0)
                     else (if z <? 0 then Z.neg M else Z.pos M, - p) in
                   SF2Prim (binary_normalize prec emax (Z.rem mz (n * 2 ^ (- ez))) ez (z <? 0)))
                  = SF2Prim (binary_normalize prec emax (Z.rem z n * 2 ^ p) (- p) (z <? 0))).
  { destruct (Z.leb_spec 0 (- p)).
    - assert (p = 0) as Hp0 by lia. rewrite HM, Hp0. cbn [Z.opp Z.pow].
      rewrite !Z.mul_1_r. reflexivity.
    - rewrite HM, Z.opp_involutive, Hrem. reflexivity. }
  rewrite Hbody. clear Hbody.
  assert (Hrb : Z.abs (Z.rem z n) <= Z.abs z).
  { destruct (Z.le_gt_cases 0 z) as [Hz0|Hz0].
    - pose proof (Z.rem_le z n Hz0 Hn). pose proof (Z.rem_nonneg z n ltac:(lia) Hz0). lia.
    - pose proof (Z.rem_le (- z) n ltac:(lia) Hn).
      pose proof (Z.rem_nonneg (- z) n ltac:(lia) ltac:(lia)).
      rewrite Z.rem_opp_l in * by lia. lia. }
  pose proof (Z.rem_sign_nz z n ltac:(lia)) as Hrs.
  assert (Hpow : 0 < 2 ^ p) by (apply Z.pow_pos_nonneg; lia).
  destruct (Z.rem z n) as [|r|r] eqn:Er.
  - cbn [Z.mul binary_normalize Z.eqb]. now destruct (z <? 0).
  - cbn [Z.eqb]. unfold float_of_Z. f_equal.
    destruct (Z.pos r * 2 ^ p) as [|q|q] eqn:Eq; try lia.
    cbn [binary_normalize]. specialize (Hrs ltac:(lia)).
    apply binary_round_same; [lia|lia| |lia].
    apply digits2_bound; [lia|].
    pose proof (scaled_below z Hz) as Hsb. fold p in Hsb.
    assert (Z.pos q <= Z.abs z * 2 ^ p) by nia. lia.
  - cbn [Z.eqb]. unfold float_of_Z. f_equal.
    destruct (Z.neg r * 2 ^ p) as [|q|q] eqn:Eq; try lia.
    cbn [binary_normalize]. specialize (Hrs ltac:(lia)).
    apply binary_round_same; [lia|lia| |lia].
    apply digits2_bound; [lia|].
    pose proof (scaled_below z Hz) as Hsb. fold p in Hsb.
    assert (Z.pos q <= Z.abs z * 2 ^ p) by nia. lia.
Qed.
Lemma is_finite_whole (z : Z) : Z.abs z < 2 ^ 53 -> is_finite (float_of_Z z) = true.
Proof.
  intros Hb. destruct (Z.eq_dec z 0) as [->|Hz]; [reflexivity|].
  destruct (Prim2SF_float_of_Z z Hz Hb) as (M & HP & _).
  unfold is_finite, is_nan, is_infinity.
  rewrite !FloatAxioms.eqb_spec, FloatAxioms.abs_spec, HP.
  change (Prim2SF infinity) with (S754_infinity false).
  unfold SFeqb, SFabs, SFcompare.
  rewrite Z.compare_refl, Pos.compare_cont_refl.
  now destruct (z <? 0).
Qed.

End WholeDoubles.

(** ** degToCompass *)
Section CompassFacts.
Import Num Compass.

Lemma range_all_spec (n : nat) (lo : Z) (p : Z -> bool) :
  range_all n lo p = true ->
  forall d, lo <= d < lo + Z.of_nat n -> p d = true.
Proof.
  revert lo. induction n as [|n IH]; intros lo H d Hd; [lia|].
  simpl in H. apply andb_prop in H as [Hlo Hrest].
  destruct (Z.eq_dec d lo) as [->|Hne]; [exact Hlo|].
  apply (IH (lo + 1)); [exact Hrest|lia].
Qed.

(** On each of the 719 whole residues that [deg % 360] can be, the rest of
    the computation gives what it gives on the residue brought into
    [0, 360); so it does on the negative zero. *)
Lemma residues_agree :
  range_all (Z.to_nat 719) (-359) residue_agrees = true
  /\ fromResidue neg_zero = fromResidue (float_of_Z 0).
Proof. vm_compute. split; reflexivity. Qed.

Lemma degToCompass_fromResidue (deg : float) :
  is_finite deg = true ->
  degToCompass (Some deg) = fromResidue (js_rem deg 360).
Proof. intros H. unfold degToCompass, fromResidue, normalize. now rewrite H. Qed.

(** On a whole number of degrees the compass point is that of the residue
    in [0, 360). *)
Lemma degToCompass_whole (d : Z) :
  Z.abs d < 2 ^ 53 ->
  degToCompass (Some (float_of_Z d)) = fromResidue (float_of_Z (d mod 360)).
Proof.
  intros Hd.
  rewrite degToCompass_fromResidue by now apply is_finite_whole.
  rewrite js_rem_whole by lia.
  pose proof (Z.rem_bound_abs d 360 ltac:(lia)) as Hr.
  assert (Hm : Z.rem d 360 mod 360 = d mod 360).
  { rewrite (Z.quot_rem' d 360) at 2.
    rewrite Z.add_comm, Z.mul_comm. apply eq_sym, Z_mod_plus_full. }
  destruct (Z.eqb_spec (Z.rem d 360) 0) as [E|E].
  - rewrite <- Hm, E. change (0 mod 360) with 0.
    destruct (d <? 0); [exact (proj2 residues_agree)|reflexivity].
  - rewrite <- Hm.
    pose proof (range_all_spec _ _ _ (proj1 residues_agree) (Z.rem d 360)) as H.
    rewrite Z2Nat.id in H by lia.
    specialize (H ltac:(lia)). unfold residue_agrees in H.
    now apply bool_decide_eq_true in H.
Qed.

(** C9 (amended). The index into the 16-entry table that starts at N and
    goes clockwise is [round((((deg % 360) + 360) % 360) / 22.5) % 16], and
    on whole numbers of degrees (below 2^53 in size, where a double holds
    every whole number) the conversion has period 360:
    [degToCompass(d) = degToCompass(d + 360*k)]. *)
Theorem degToCompass_periodic_on_whole_degrees :
  (forall d k : Z,
      Z.abs d < 2 ^ 53 -> Z.abs (d + 360 * k) < 2 ^ 53 ->
      degToCompass (Some (float_of_Z d))
      = degToCompass (Some (float_of_Z (d + 360 * k))))
  /\ (forall deg : float,
         is_finite deg = true ->
         degToCompass (Some deg)
         = match Math_round (js_rem (js_rem deg 360 + 360)%float 360 / 22.5)%float with
           | Some r => if Z.rem r 16 <? 0 then None else dirs !! Z.to_nat (Z.rem r 16)
           | None => None
           end)
  /\ dirs = ["N"; "NNE"; "NE"; "ENE"; "E"; "ESE"; "SE"; "SSE";
             "S"; "SSW"; "SW"; "WSW"; "W"; "WNW"; "NW"; "NNW"]%string.
Proof.
  split; [|split].
  - intros d k Hd Hdk.
    rewrite (degToCompass_whole d Hd), (degToCompass_whole (d + 360 * k) Hdk).
    do 2 f_equal. rewrite Z.mul_comm. apply eq_sym, Z_mod_plus_full.
  - intros deg Hfin. unfold degToCompass, index, normalize. rewrite Hfin. simpl.
    now destruct (Math_round _).
  - reflexivity.
Qed.

Lemma degToCompass_periodic_witness :
  degToCompass (Some (float_of_Z 350)) = degToCompass (Some (float_of_Z (350 + 360 * -1)))
  /\ degToCompass (Some (float_of_Z 350)) = Some "N"%string
  /\ degToCompass (Some (float_of_Z 9007199254740990))
     = degToCompass (Some (float_of_Z (9007199254740990 + 360 * -25019997929830)))
  /\ degToCompass (Some (float_of_Z 9007199254740990)) = Some "NNE"%string.
Proof.
  split; [|split; [|split]].
  - apply (proj1 degToCompass_periodic_on_whole_degrees 350 (-1)); vm_compute; reflexivity.
  - vm_compute. reflexivity.
  - apply (proj1 degToCompass_periodic_on_whole_degrees
             9007199254740990 (-25019997929830)); vm_compute; reflexivity.
  - vm_compute. reflexivity.
Defined.

(** C9 as stated fails on doubles: [d = -191.25 - 2^-45] and [d + 360] are
    both doubles, the sum is exact, and the two compass points differ (the
    inner [+ 360] rounds one of them onto the boundary 168.75). *)
Lemma degToCompass_not_periodic_on_doubles :
  let d := (-0x1.7e80000000001p+7)%float in
  is_finite d = true
  /\ (d + 360 * float_of_Z 1)%float = 0x1.517ffffffffffp+7%float
  /\ degToCompass (Some d) = Some "SSE"%string
  /\ degToCompass (Some (d + 360 * float_of_Z 1)%float) = Some "S"%string
  /\ degToCompass (Some d) <> degToCompass (Some (d + 360 * float_of_Z 1)%float).
Proof.
  vm_compute. repeat split; try reflexivity. discriminate.
Qed.

End CompassFacts.

(** ** Auto-refresh scheduler *)
Section SchedulerFacts.
Import Scheduler.

Lemma step_config (s : State) (e : Event) :
  intervalMs (step s e) = intervalMs s /\ maxBackoffMs (step s e) = maxBackoffMs s.
Proof.
  destruct e; simpl.
  - destruct (existsb _ _); [|easy]. unfold tick_begin; simpl.
    now destruct (running s).
  - now destruct (running s).
  - easy.
  - now destruct (timerId s).
  - easy.
Qed.

Lemma run_config (es : list Event) (s : State) :
  intervalMs (run s es) = intervalMs s /\ maxBackoffMs (run s es) = maxBackoffMs s.
Proof.
  revert s. induction es as [|e es IH]; intros s; [easy|].
  unfold run in *. simpl. destruct (IH (step s e)) as [-> ->]. apply step_config.
Qed.

Lemma delay_after_bounds (s : State) (r : RenderOutcome) :
  0 <= intervalMs s <= maxBackoffMs s ->
  intervalMs s <= nextDelay s <= maxBackoffMs s ->
  intervalMs s <= delay_after s r <= maxBackoffMs s.
Proof. intros Hc Hd. destruct r as [[]|]; simpl; lia. Qed.

Lemma step_bounds (s : State) (e : Event) :
  0 <= intervalMs s <= maxBackoffMs s ->
  intervalMs s <= nextDelay s <= maxBackoffMs s ->
  intervalMs s <= nextDelay (step s e) <= maxBackoffMs s.
Proof.
  intros Hc Hd. destruct e; simpl.
  - destruct (existsb _ _); [|easy]. unfold tick_begin; simpl.
    now destruct (running s).
  - destruct (running s); [|easy]. simpl. now apply delay_after_bounds.
  - easy.
  - now destruct (timerId s).
  - easy.
Qed.

Lemma run_bounds (es : list Event) (s : State) :
  0 <= intervalMs s <= maxBackoffMs s ->
  intervalMs s <= nextDelay s <= maxBackoffMs s ->
  intervalMs s <= nextDelay (run s es) <= maxBackoffMs s.
Proof.
  revert s. induction es as [|e es IH]; intros s Hc Hd; [easy|].
  unfold run in *. simpl.
  destruct (step_config s e) as [Hi Hm].
  specialize (IH (step s e)). rewrite Hi, Hm in IH.
  apply IH; [exact Hc|]. now apply step_bounds.
Qed.

(** A tick that the guard lets through: the timer [t] fires, the render
    settles with [r]. *)
Lemma tick_delay (s : State) (t : positive) (d : Z) (r : RenderOutcome) :
  running s = false -> In (t, d) (armed s) ->
  let s' := run s [Fire t; Settle r] in
  nextDelay s' = delay_after s r
  /\ running s' = false
  /\ timerId s' = Some (nextHandle s)
  /\ In (nextHandle s, delay_after s r) (armed s')
  /\ intervalMs s' = intervalMs s /\ maxBackoffMs s' = maxBackoffMs s
  /\ nextHandle s' = Pos.succ (nextHandle s).
Proof.
  intros Hrun Harmed. unfold run; simpl.
  assert (existsb (fun a => Pos.eqb (fst a) t) (armed s) = true) as ->.
  { apply existsb_exists. exists (t, d). split; [exact Harmed|apply Pos.eqb_refl]. }
  unfold tick_begin; simpl. rewrite Hrun. simpl.
  unfold delay_after; simpl.
  repeat split. apply in_or_app. right. now left.
Qed.

(** C5. A successful tick resets the next delay to the base interval; a
    failed one (a throw, or [hadError]) doubles it, capped at
    [maxBackoffMs], and the new timer is armed with that delay.  With
    [intervalMs = 60000] and [maxBackoffMs = 300000], from any state whose
    delay is the base interval, three failures in a row give 120000, 240000
    and 300000. *)
Theorem tick_backoff :
  (forall (s : State) (t : positive) (d : Z) (r : RenderOutcome),
      running s = false -> In (t, d) (armed s) ->
      let s' := run s [Fire t; Settle r] in
      nextDelay s' = (if failed r then Z.min (nextDelay s * 2) (maxBackoffMs s)
                      else intervalMs s)
      /\ timerId s' = Some (nextHandle s)
      /\ In (nextHandle s, nextDelay s') (armed s'))
  /\ (forall (s : State) (t : positive) (d : Z) (r1 r2 r3 : RenderOutcome),
         running s = false -> In (t, d) (armed s) ->
         intervalMs s = 60000 -> maxBackoffMs s = 300000 -> nextDelay s = 60000 ->
         failed r1 = true -> failed r2 = true -> failed r3 = true ->
         let s1 := run s [Fire t; Settle r1] in
         let s2 := run s1 [Fire (nextHandle s); Settle r2] in
         let s3 := run s2 [Fire (nextHandle s1); Settle r3] in
         nextDelay s1 = 120000 /\ nextDelay s2 = 240000 /\ nextDelay s3 = 300000).
Proof.
  assert (Hd : forall s r, delay_after s r
                = if failed r then Z.min (nextDelay s * 2) (maxBackoffMs s)
                  else intervalMs s).
  { intros s r. now destruct r as [[]|]. }
  split.
  - intros s t d r Hrun Harmed s'.
    destruct (tick_delay s t d r Hrun Harmed) as (H1 & _ & H3 & H4 & _).
    fold s' in H1, H3, H4. rewrite H1, <- Hd. auto.
  - intros s t d r1 r2 r3 Hrun Harmed Hi Hm Hn F1 F2 F3 s1 s2 s3.
    destruct (tick_delay s t d r1 Hrun Harmed)
      as (D1 & R1 & _ & A1 & I1 & M1 & N1). fold s1 in D1, R1, A1, I1, M1, N1.
    destruct (tick_delay s1 _ _ r2 R1 A1)
      as (D2 & R2 & _ & A2 & I2 & M2 & _). fold s2 in D2, R2, A2, I2, M2.
    destruct (tick_delay s2 _ _ r3 R2 A2) as (D3 & _). fold s3 in D3.
    rewrite Hd, F1, Hn, Hm in D1.
    rewrite Hd, F2, D1, M1, Hm in D2.
    rewrite Hd, F3, D2, M2, M1, Hm in D3.
    rewrite D1, D2, D3. repeat split.
Qed.

Lemma tick_backoff_witness :
  let s := startAlertsAutoRefresh (Some 60000) (Some 300000) in
  let s1 := run s [Fire 1%positive; Settle Threw] in
  let s2 := run s1 [Fire (nextHandle s); Settle (Returned true)] in
  let s3 := run s2 [Fire (nextHandle s1); Settle Threw] in
  nextDelay s1 = 120000 /\ nextDelay s2 = 240000 /\ nextDelay s3 = 300000.
Proof.
  apply (proj2 tick_backoff (startAlertsAutoRefresh (Some 60000) (Some 300000))
           1%positive 60000 Threw (Returned true) Threw);
    first [reflexivity | now left].
Defined.

(** C10 (amended). With [0 <= intervalMs <= maxBackoffMs], whatever happens
    to the scheduler (timers firing, renders settling well or badly, the page
    hiding and showing, cancellation), the next delay stays within
    [[intervalMs, maxBackoffMs]]. *)
Theorem nextDelay_within_bounds (opt_intervalMs opt_maxBackoffMs : option Z)
        (es : list Event) :
  let s0 := startAlertsAutoRefresh opt_intervalMs opt_maxBackoffMs in
  0 <= intervalMs s0 -> intervalMs s0 <= maxBackoffMs s0 ->
  nextDelay s0 = intervalMs s0
  /\ intervalMs s0 <= nextDelay (run s0 es) <= maxBackoffMs s0.
Proof.
  intros s0 H0 Hle. split; [reflexivity|].
  apply run_bounds; [lia|]. change (nextDelay s0) with (intervalMs s0). lia.
Qed.

Lemma nextDelay_within_bounds_witness :
  let s0 := startAlertsAutoRefresh None None in
  nextDelay s0 = 300000
  /\ 300000 <= nextDelay (run s0 [Fire 1%positive; Settle Threw; Hidden; Visible;
                                  Fire 3%positive; Settle (Returned true)])
     <= 1800000.
Proof.
  apply (nextDelay_within_bounds None None
           [Fire 1%positive; Settle Threw; Hidden; Visible;
            Fire 3%positive; Settle (Returned true)]);
    vm_compute; discriminate.
Defined.

(** C10 as stated fails: [maxBackoffMs >= intervalMs] alone does not keep
    the delay above a negative base interval, which a failure doubles
    downwards. *)
Lemma nextDelay_below_negative_interval :
  let s0 := startAlertsAutoRefresh (Some (-1)) (Some 5) in
  let s := run s0 [Fire 1%positive; Settle (Returned true)] in
  maxBackoffMs s0 >= intervalMs s0
  /\ nextDelay s = -2
  /\ ~ (intervalMs s0 <= nextDelay s <= maxBackoffMs s0).
Proof.
  vm_compute. split; [discriminate|]. split; [reflexivity|].
  intros [H _]. now apply H.
Qed.

End SchedulerFacts.

(** ** The de-duplication loop *)
Section UniqueFacts.
Import Js.
Context {A : Type} (key : A -> string).

Lemma fold_unique_step (l : list A) (seen : gset string) (acc : list A) :
  snd (fold_left (unique_step key) l (seen, acc)) = acc ++ unique_from key seen l.
Proof.
  revert seen acc. induction l as [|f l IH]; intros seen acc; simpl.
  - now rewrite app_nil_r.
  - destruct (bool_decide (key f ∈ seen)); [apply IH|].
    rewrite IH, <- app_assoc. reflexivity.
Qed.

Lemma unique_by_from (l : list A) : unique_by key l = unique_from key ∅ l.
Proof. unfold unique_by. now rewrite fold_unique_step. Qed.

Lemma unique_from_In (l : list A) (seen : gset string) (f : A) :
  In f (unique_from key seen l) -> In f l /\ key f ∉ seen.
Proof.
  revert seen. induction l as [|x l IH]; intros seen; simpl; [tauto|].
  destruct (bool_decide (key x ∈ seen)) eqn:E.
  - intros H. destruct (IH _ H). auto.
  - apply bool_decide_eq_false in E. intros [->|H]; [auto|].
    destruct (IH _ H) as [? Hn]. split; [auto|].
    intros Hs. apply Hn, elem_of_union. now right.
Qed.

Lemma unique_from_NoDup (l : list A) (seen : gset string) :
  NoDup (map key (unique_from key seen l)).
Proof.
  revert seen. induction l as [|x l IH]; intros seen; simpl; [constructor|].
  destruct (bool_decide (key x ∈ seen)); [apply IH|].
  simpl. constructor; [|apply IH].
  intros Hin. apply list_elem_of_In in Hin. apply in_map_iff in Hin as (g & Hk & Hg).
  apply unique_from_In in Hg as [_ Hn]. rewrite Hk in Hn. set_solver.
Qed.

Lemma unique_from_sublist (l : list A) (seen : gset string) :
  sublist (unique_from key seen l) l.
Proof.
  revert seen. induction l as [|x l IH]; intros seen; simpl; [constructor|].
  destruct (bool_decide (key x ∈ seen)).
  - apply sublist_cons, IH.
  - apply sublist_skip, IH.
Qed.

(** Who is kept is the first of [l] with its key. *)
Lemma unique_from_is_first (l : list A) (seen : gset string) (g : A) :
  In g (unique_from key seen l) ->
  find (fun x => String.eqb (key x) (key g)) l = Some g.
Proof.
  revert seen. induction l as [|x l IH]; intros seen; simpl; [tauto|].
  destruct (bool_decide (key x ∈ seen)) eqn:E.
  - intros H. pose proof (unique_from_In _ _ _ H) as [_ Hn].
    apply bool_decide_eq_true in E.
    destruct (String.eqb_spec (key x) (key g)) as [Heq|_]; [|eauto].
    rewrite Heq in E. contradiction.
  - intros [->|H]; [now rewrite String.eqb_refl|].
    pose proof (unique_from_In _ _ _ H) as [_ Hn].
    destruct (String.eqb_spec (key x) (key g)) as [Heq|_]; [|eauto].
    rewrite Heq in Hn. set_solver.
Qed.

(** Every key that is new to [seen] keeps its first bearer. *)
Lemma unique_from_keeps_first (l : list A) (seen : gset string) (f : A) :
  In f l -> key f ∉ seen ->
  exists g, find (fun x => String.eqb (key x) (key f)) l = Some g
            /\ In g (unique_from key seen l) /\ key g = key f.
Proof.
  revert seen. induction l as [|x l IH]; intros seen; simpl; [tauto|].
  intros Hin Hn.
  destruct (String.eqb_spec (key x) (key f)) as [Heq|Hne].
  - exists x. rewrite <- Heq in Hn.
    rewrite bool_decide_eq_false_2 by exact Hn. split; [reflexivity|].
    split; [now left|exact Heq].
  - destruct Hin as [->|Hin]; [congruence|].
    destruct (bool_decide (key x ∈ seen)).
    + apply IH; assumption.
    + destruct (IH ({[ key x ]} ∪ seen) Hin) as (g & ? & ? & ?).
      { rewrite elem_of_union, elem_of_singleton. intros [?|?]; congruence. }
      exists g. split; [assumption|]. split; [now right|assumption].
Qed.

End UniqueFacts.

(** ** Alert identity and aggregation *)
Section AlertsFacts.
Import Js Doc Env Alerts.

Local Open Scope string_scope.

Lemma or_str_truthy (a : option string) (s : string) :
  a = Some s -> s <> "" -> truthy a = true /\ or_str a "" = s.
Proof.
  intros -> Hs. simpl. destruct (String.eqb_spec s ""); [contradiction|]. auto.
Qed.

(** C8 (amended). The identity key of a feature is its id when present:
    [f.id], else [properties.id], else [properties['@id']]; otherwise it is
    the event name (or "Unknown"), a bar, and the first that is present
    of [sent], [effective] and [onset], in that order (or nothing). *)
Theorem alertKey_cases (f : Feature) :
  let p := props_of f in
  (forall s, f_id f = Some s -> s <> "" -> alertKey f = s)
  /\ (truthy (f_id f) = false ->
      forall s, p_id p = Some s -> s <> "" -> alertKey f = s)
  /\ (truthy (f_id f) = false -> truthy (p_id p) = false ->
      forall s, p_at_id p = Some s -> s <> "" -> alertKey f = s)
  /\ (truthy (f_id f) = false -> truthy (p_id p) = false ->
      truthy (p_at_id p) = false ->
      alertKey f
      = or_str (event p) "Unknown" ++ "|"
        ++ hd "" (List.filter (fun s => negb (String.eqb s ""))
                    (omap (fun s => s) [sent p; effective p; onset p]))).
Proof.
  intros p. unfold alertKey. fold p. repeat split.
  - intros s Hs Hne. destruct (or_str_truthy _ _ Hs Hne) as [-> ->]. reflexivity.
  - intros -> s Hs Hne. destruct (or_str_truthy _ _ Hs Hne) as [-> ->]. reflexivity.
  - intros -> -> s Hs Hne. destruct (or_str_truthy _ _ Hs Hne) as [-> ->]. reflexivity.
  - intros -> -> ->. do 2 f_equal.
    destruct (sent p) as [a|], (effective p) as [b|], (onset p) as [c|]; simpl;
      repeat match goal with
             | |- context [String.eqb ?x ""] => destruct (String.eqb_spec x ""); simpl
             end; congruence.
Qed.

Lemma alertKey_cases_witness :
  alertKey (Demo.alert None "Flood Warning" "Severe" None
              (Some "2024-06-01T14:05:00Z") (Some "2024-06-01T14:00:00Z") [])
  = "Flood Warning|2024-06-01T14:05:00Z".
Proof.
  apply (proj2 (proj2 (proj2 (alertKey_cases
           (Demo.alert None "Flood Warning" "Severe" None
              (Some "2024-06-01T14:05:00Z") (Some "2024-06-01T14:00:00Z") []))))
           eq_refl eq_refl eq_refl).
Defined.

(** C8 as stated fails: for an alert sent at 14:05 whose onset was 14:00 the
    key carries the time it was sent, not the earliest of its
    timestamps. *)
Lemma alertKey_not_earliest :
  let h := Demo.host (fun _ => Rejected "") (fun _ => Rejected "") (fun _ => Rejected "") in
  let f := Demo.alert None "Flood Warning" "Severe" (Some "2024-06-01T14:05:00Z")
             (Some "2024-06-01T14:05:00Z") (Some "2024-06-01T14:00:00Z") [] in
  alertKey f = "Flood Warning|2024-06-01T14:05:00Z"
  /\ alertKey_spec h f = "Flood Warning|2024-06-01T14:00:00Z"
  /\ alertKey f <> alertKey_spec h f.
Proof. vm_compute. repeat split. discriminate. Qed.

End AlertsFacts.

(** ** The aggregator *)
Section AggregatorFacts.
Import Js Doc Env Alerts.

Local Open Scope string_scope.

Variable h : Host.

Lemma features_runRequest (l u : string) :
  features (runRequest h (l, u)) = queryFeatures h u.
Proof. unfold queryFeatures, runRequest. simpl. now destruct (getJSON_alerts h u). Qed.

Lemma label_runRequest (r : string * string) : label (runRequest h r) = fst r.
Proof. unfold runRequest. now destruct (getJSON_alerts h (snd r)). Qed.

(** A rejected or empty answer contributes nothing. *)
Lemma queryFeatures_rejected (u e : string) :
  getJSON_alerts h u = Rejected e -> queryFeatures h u = [].
Proof. unfold queryFeatures, runRequest. simpl. now intros ->. Qed.

Lemma label_prefixes (s : string) :
  String.prefix "point:" ("point:" ++ s) = true
  /\ String.prefix "zone:" ("zone:" ++ s) = true
  /\ String.prefix "point:" ("zone:" ++ s) = false
  /\ String.prefix "zone:" ("point:" ++ s) = false.
Proof. repeat split; simpl; now destruct s. Qed.

Lemma pointFeatures_results (lat lon : string) (zoneCodes : list string) :
  pointFeatures (alertResults h lat lon zoneCodes)
  = queryFeatures h (alertsUrlFromPoint h lat lon).
Proof.
  unfold pointFeatures, alertResults. rewrite map_app.
  induction zoneCodes as [|z zs IH].
  - cbn [map app find]. rewrite label_runRequest. cbn [fst].
    rewrite (proj1 (label_prefixes _)). apply features_runRequest.
  - cbn [map app find]. rewrite label_runRequest. cbn [fst].
    rewrite (proj1 (proj2 (proj2 (label_prefixes _)))). exact IH.
Qed.

Lemma zoneFeaturesAll_results (lat lon : string) (zoneCodes : list string) :
  zoneFeaturesAll (alertResults h lat lon zoneCodes)
  = flat_map (fun z => queryFeatures h (alertsUrlFromZone h z)) zoneCodes.
Proof.
  unfold zoneFeaturesAll, alertResults. rewrite map_app.
  induction zoneCodes as [|z zs IH].
  - cbn [map app List.filter flat_map]. rewrite label_runRequest. cbn [fst].
    now rewrite (proj2 (proj2 (proj2 (label_prefixes _)))).
  - cbn [map app List.filter flat_map]. rewrite label_runRequest. cbn [fst].
    rewrite (proj1 (proj2 (label_prefixes _))). cbn [flat_map].
    rewrite features_runRequest. f_equal. exact IH.
Qed.

Lemma filter_none {A} (keep : A -> bool) (l : list A) :
  (forall x, In x l -> keep x = false) -> List.filter keep l = [].
Proof.
  induction l as [|x l IH]; intros H; [reflexivity|]. simpl.
  rewrite (H x (or_introl eq_refl)). apply IH. intros y Hy. apply H. now right.
Qed.

Lemma includes_In (xs : list string) (x : string) :
  includes xs x = true <-> In x xs.
Proof.
  unfold includes. rewrite existsb_exists. split.
  - intros (y & Hy & E). apply String.eqb_eq in E. now subst.
  - intros H. exists x. split; [exact H|apply String.eqb_refl].
Qed.

Lemma inZones_spec (zoneCodes : list string) (f : Feature) :
  inZones zoneCodes f = true
  <-> exists z, In z (zonesFromAlert f) /\ In z zoneCodes.
Proof.
  unfold inZones. rewrite existsb_exists.
  split; intros (z & Hz & Hc); exists z; (split; [exact Hz|]); now apply includes_In.
Qed.

Lemma allAlerts_eq (lat lon : string) (points : option Points) :
  allAlerts h lat lon points
  = (queryFeatures h (alertsUrlFromPoint h lat lon)
     ++ List.filter (inZones (zoneCodesFromPoints h points))
          (flat_map (fun z => queryFeatures h (alertsUrlFromZone h z))
             (zoneCodesFromPoints h points)))%list.
Proof.
  unfold allAlerts, merged, zoneFiltered.
  now rewrite pointFeatures_results, zoneFeaturesAll_results.
Qed.

Lemma fetch_resolved (lat lon : string) (points : option Points) :
  getJSON_points h (API ++ "/points/" ++ lat ++ "," ++ lon) = Resolved points ->
  fetchAlertsCombined h lat lon
  = Resolved (unique_from alertKey ∅ (allAlerts h lat lon points)).
Proof. intros H. unfold fetchAlertsCombined. now rewrite H, unique_by_from. Qed.

End AggregatorFacts.

Section AggregatorClaims.
Import Js Doc Env Alerts.

Local Open Scope string_scope.

(** C1. The aggregator's list is the merged list (point features, then the
    zone features that passed the filter) with, for every identity key, the
    first feature that bears it and no other: no two features of the result
    have the same key, the order of the merged list is kept, and each
    feature of the merged list is represented by the first one with its
    key. *)
Theorem fetchAlertsCombined_keeps_first (h : Host) (lat lon : string)
        (points : option Points) :
  getJSON_points h (API ++ "/points/" ++ lat ++ "," ++ lon) = Resolved points ->
  let zoneCodes := zoneCodesFromPoints h points in
  let results := alertResults h lat lon zoneCodes in
  let all := (pointFeatures results ++ zoneFiltered zoneCodes results)%list in
  exists unique,
    fetchAlertsCombined h lat lon = Resolved unique
    /\ NoDup (map alertKey unique)
    /\ (forall f g, In f unique -> In g unique -> alertKey f = alertKey g -> f = g)
    /\ sublist unique all
    /\ (forall f, In f all ->
          exists g, find (fun x => String.eqb (alertKey x) (alertKey f)) all = Some g
                    /\ In g unique /\ alertKey g = alertKey f)
    /\ (forall g, In g unique ->
          find (fun x => String.eqb (alertKey x) (alertKey g)) all = Some g).
Proof.
  intros Hp zoneCodes results all.
  exists (unique_from alertKey ∅ all). split; [now apply fetch_resolved|].
  pose proof (unique_from_NoDup alertKey all ∅) as Hnd.
  split; [exact Hnd|]. split; [|split; [apply unique_from_sublist|split]].
  - intros f g Hf Hg Hk.
    apply (NoDup_fmap_1 alertKey) in Hnd. revert Hf Hg.
    rewrite <- !list_elem_of_In. intros Hf Hg.
    apply list_elem_of_lookup in Hf as [i Hi], Hg as [j Hj].
    assert (i = j) as ->; [|congruence].
    pose proof (unique_from_NoDup alertKey all ∅) as Hnd'.
    eapply NoDup_lookup; [exact Hnd'| |].
    + rewrite list_lookup_fmap, Hi. reflexivity.
    + rewrite list_lookup_fmap, Hj. simpl. now rewrite Hk.
  - intros f Hf. apply unique_from_keeps_first; [exact Hf|set_solver].
  - intros g Hg. eapply unique_from_is_first; exact Hg.
Qed.

(** Point query and a zone query answer the same alert with different
    texts; the point's is kept. *)
Lemma fetchAlertsCombined_keeps_first_witness :
  let h := Demo.alerts_host
             [(Demo.point_alerts_url, Demo.features_doc [Demo.flood_point]);
              (Demo.zone_alerts_url "TX209", Demo.features_doc [Demo.flood_zone]);
              (Demo.zone_alerts_url "TX453", Demo.features_doc [Demo.heat_zone; Demo.flood_zone])] in
  fetchAlertsCombined h Demo.LAT Demo.LON = Resolved [Demo.flood_point; Demo.heat_zone]
  /\ exists unique,
       fetchAlertsCombined h Demo.LAT Demo.LON = Resolved unique
       /\ NoDup (map alertKey unique).
Proof.
  intros h. split; [vm_compute; reflexivity|].
  destruct (fetchAlertsCombined_keeps_first h Demo.LAT Demo.LON Demo.two_zones eq_refl)
    as (unique & Hu & Hnd & _).
  exists unique. split; assumption.
Defined.

(** C4. A feature of a zone query is in the merged result only if its own
    UGC list shares a code with the zone codes of the point; the features of
    the point query pass unfiltered.  A feature whose UGC list is
    [["ZZ999"]] does not pass for the zone codes [["TX209"; "TX453"]]. *)
Theorem zone_features_filtered_by_zone_codes (h : Host) (lat lon : string)
        (points : option Points) :
  getJSON_points h (API ++ "/points/" ++ lat ++ "," ++ lon) = Resolved points ->
  let zoneCodes := zoneCodesFromPoints h points in
  let fromPoint := queryFeatures h (alertsUrlFromPoint h lat lon) in
  let fromZones :=
    flat_map (fun z => queryFeatures h (alertsUrlFromZone h z)) zoneCodes in
  let shares f := exists z, In z (zonesFromAlert f) /\ In z zoneCodes in
  exists unique,
    fetchAlertsCombined h lat lon = Resolved unique
    /\ allAlerts h lat lon points
       = (fromPoint ++ List.filter (inZones zoneCodes) fromZones)%list
    /\ (forall f, In f unique -> In f fromPoint \/ (In f fromZones /\ shares f))
    /\ (forall f, In f fromZones -> ~ shares f -> ~ In f fromPoint -> ~ In f unique)
    /\ (forall f, In f fromPoint -> exists g, In g unique /\ alertKey g = alertKey f)
    /\ (forall f, In f fromZones -> shares f ->
          exists g, In g unique /\ alertKey g = alertKey f)
    /\ (forall f, zonesFromAlert f = ["ZZ999"] -> inZones ["TX209"; "TX453"] f = false).
Proof.
  intros Hp zoneCodes fromPoint fromZones shares.
  exists (unique_from alertKey ∅ (allAlerts h lat lon points)).
  split; [now apply fetch_resolved|].
  pose proof (allAlerts_eq h lat lon points) as Hall.
  fold zoneCodes fromPoint fromZones in Hall. split; [exact Hall|].
  assert (Hin : forall f, In f (allAlerts h lat lon points)
                          <-> In f fromPoint \/ (In f fromZones /\ shares f)).
  { intros f. rewrite Hall, in_app_iff, filter_In, inZones_spec. reflexivity. }
  assert (Hkept : forall f, In f (allAlerts h lat lon points) ->
            exists g, In g (unique_from alertKey ∅ (allAlerts h lat lon points))
                      /\ alertKey g = alertKey f).
  { intros f Hf.
    destruct (unique_from_keeps_first alertKey _ ∅ f Hf) as (g & _ & Hg & Hk);
      [set_solver|eauto]. }
  repeat split.
  - intros f Hf. apply Hin. now apply unique_from_In in Hf as [Hf _].
  - intros f Hz Hn Hnp Hf. apply unique_from_In in Hf as [Hf _].
    apply Hin in Hf as [?|[_ ?]]; contradiction.
  - intros f Hf. apply Hkept, Hin. now left.
  - intros f Hf Hs. apply Hkept, Hin. now right.
  - intros f Hz. unfold inZones. rewrite Hz. reflexivity.
Qed.

(** The zone query for TX209 also answers with an alert of a neighbouring
    zone, whose UGC list is [["ZZ999"]]: it is not in the result. *)
Lemma zone_features_filtered_witness :
  let h := Demo.alerts_host
             [(Demo.point_alerts_url, Demo.features_doc [Demo.flood_point]);
              (Demo.zone_alerts_url "TX209", Demo.features_doc [Demo.neighbour; Demo.flood_zone]);
              (Demo.zone_alerts_url "TX453", Demo.features_doc [Demo.heat_zone])] in
  zoneCodesFromPoints h Demo.two_zones = ["TX209"; "TX453"]
  /\ zonesFromAlert Demo.neighbour = ["ZZ999"]
  /\ fetchAlertsCombined h Demo.LAT Demo.LON = Resolved [Demo.flood_point; Demo.heat_zone]
  /\ exists unique,
       fetchAlertsCombined h Demo.LAT Demo.LON = Resolved unique
       /\ ~ In Demo.neighbour unique.
Proof.
  intros h. do 3 (split; [vm_compute; reflexivity|]).
  destruct (zone_features_filtered_by_zone_codes h Demo.LAT Demo.LON Demo.two_zones eq_refl)
    as (unique & Hu & _ & _ & Hout & _).
  exists unique. split; [exact Hu|]. apply Hout.
  - vm_compute. tauto.
  - vm_compute. intros (z & [<-|[]] & [E|[E|[]]]); discriminate E.
  - vm_compute. intros [E|[]]. discriminate E.
Defined.

(** C7. When the [/points] lookup has answered and the alert queries that
    are then issued bring nothing (the point query no feature, the zone
    queries none that passes the zone filter, a failed query counting as
    empty), the aggregation resolves with the empty list.  The render then
    builds no card and counts zero; it reports no error on a page that has
    [#alerts-list], and [hadError] on one that lacks it (the "No active
    alerts" card cannot be appended). *)
Theorem no_alerts_resolves_empty (h : Host) (now : Z) (lat lon : string)
        (points : option Points) :
  getJSON_points h (API ++ "/points/" ++ lat ++ "," ++ lon) = Resolved points ->
  queryFeatures h (alertsUrlFromPoint h lat lon) = [] ->
  (forall z f, In z (zoneCodesFromPoints h points) ->
               In f (queryFeatures h (alertsUrlFromZone h z)) ->
               inZones (zoneCodesFromPoints h points) f = false) ->
  fetchAlertsCombined h lat lon = Resolved []
  /\ renderAlertsForPrimary h now lat lon
     = {| cards := []; activeCount := 0; hadError := negb (has_alerts_list h) |}.
Proof.
  intros Hp Hpoint Hzones.
  assert (Hf : fetchAlertsCombined h lat lon = Resolved []).
  { rewrite (fetch_resolved h lat lon points Hp), allAlerts_eq, Hpoint.
    cbn [app].
    assert (List.filter (inZones (zoneCodesFromPoints h points))
              (flat_map (fun z => queryFeatures h (alertsUrlFromZone h z))
                 (zoneCodesFromPoints h points)) = []) as ->; [|reflexivity].
    apply filter_none. intros f Hin.
    apply in_flat_map in Hin as (z & Hz & Hin). exact (Hzones z f Hz Hin). }
  split; [exact Hf|]. unfold renderAlertsForPrimary. rewrite Hf.
  now destruct (has_alerts_list h).
Qed.

(** The point query answers with no feature, the query for TX209 fails and
    the one for TX453 brings only an alert of a neighbouring zone; on the
    same page without [#alerts-list] the aggregation is the same and the
    render reports an error. *)
Lemma no_alerts_resolves_empty_witness :
  let h := Demo.alerts_host
             [(Demo.point_alerts_url, Demo.features_doc []);
              (Demo.zone_alerts_url "TX453", Demo.features_doc [Demo.neighbour])] in
  getJSON_alerts h (Demo.zone_alerts_url "TX209")
  = Rejected "Request failed (404 Not Found): "
  /\ (fetchAlertsCombined h Demo.LAT Demo.LON = Resolved []
      /\ renderAlertsForPrimary h Demo.noon Demo.LAT Demo.LON
         = {| cards := []; activeCount := 0; hadError := false |})
  /\ (fetchAlertsCombined (Demo.without_list h) Demo.LAT Demo.LON = Resolved []
      /\ renderAlertsForPrimary (Demo.without_list h) Demo.noon Demo.LAT Demo.LON
         = {| cards := []; activeCount := 0; hadError := true |}).
Proof.
  intros h. split; [vm_compute; reflexivity|]. split.
  - apply (no_alerts_resolves_empty h Demo.noon Demo.LAT Demo.LON Demo.two_zones).
    + reflexivity.
    + vm_compute. reflexivity.
    + intros z f Hz Hf. vm_compute in Hz.
      destruct Hz as [<-|[<-|[]]]; vm_compute in Hf.
      * destruct Hf.
      * destruct Hf as [<-|[]]. vm_compute. reflexivity.
  - apply (no_alerts_resolves_empty (Demo.without_list h) Demo.noon Demo.LAT Demo.LON
             Demo.two_zones).
    + reflexivity.
    + vm_compute. reflexivity.
    + intros z f Hz Hf. vm_compute in Hz.
      destruct Hz as [<-|[<-|[]]]; vm_compute in Hf.
      * destruct Hf.
      * destruct Hf as [<-|[]]. vm_compute. reflexivity.
Defined.

End AggregatorClaims.

(** ** Endpoint cache *)
Section EndpointFacts.
Import Js Doc Endpoints.

Variable net : Network.

Lemma resolve_hit (lat lon : string) (s : Session) (v : EndpointSet) :
  endpointCache s !! keyFromLatLon lat lon = Some v ->
  resolveEndpointsForPoint net lat lon s = (Resolved v, s).
Proof. intros H. unfold resolveEndpointsForPoint. now rewrite H. Qed.

(** The cache only grows: an entry stays what it is. *)
Lemma resolve_keeps_entries (lat lon : string) (s : Session) (k : string)
      (v : EndpointSet) :
  endpointCache s !! k = Some v ->
  endpointCache (snd (resolveEndpointsForPoint net lat lon s)) !! k = Some v.
Proof.
  intros H. unfold resolveEndpointsForPoint.
  destruct (endpointCache s !! keyFromLatLon lat lon) eqn:E; [exact H|].
  destruct (net _ _) as [e|points]; [exact H|].
  destruct (_ || _); [exact H|]. simpl.
  rewrite lookup_insert_ne; [exact H|]. intros <-. congruence.
Qed.

Lemma later_keeps_entries (s s' : Session) (k : string) (v : EndpointSet) :
  later net s s' ->
  endpointCache s !! k = Some v -> endpointCache s' !! k = Some v.
Proof.
  induction 1 as [|s lat lon s' _ IH]; [auto|].
  intros H. apply resolve_keeps_entries, IH, H.
Qed.

Lemma resolve_success_caches (lat lon : string) (s s1 : Session) (v : EndpointSet) :
  resolveEndpointsForPoint net lat lon s = (Resolved v, s1) ->
  endpointCache s1 !! keyFromLatLon lat lon = Some v.
Proof.
  unfold resolveEndpointsForPoint.
  destruct (endpointCache s !! keyFromLatLon lat lon) eqn:E.
  - intros [= <- <-]. exact E.
  - destruct (net _ _) as [e|points]; [discriminate|].
    destruct (_ || _); [discriminate|].
    intros [= <- <-]. simpl. apply lookup_insert_eq.
Qed.

(** C6. After a resolution that succeeded, every later call with the same
    coordinate pair, whatever was resolved in between, returns the same
    EndpointSet, served from the cache under the coordinate-string key: the
    session is left as it was, with no request added, while a call that
    misses the cache sends one. *)
Theorem resolveEndpointsForPoint_cached (lat lon : string) (s s1 : Session)
        (v : EndpointSet) :
  resolveEndpointsForPoint net lat lon s = (Resolved v, s1) ->
  endpointCache s1 !! keyFromLatLon lat lon = Some v
  /\ (forall s2, later net s1 s2 ->
        resolveEndpointsForPoint net lat lon s2 = (Resolved v, s2)
        /\ requests (snd (resolveEndpointsForPoint net lat lon s2)) = requests s2)
  /\ (endpointCache s !! keyFromLatLon lat lon = None ->
      length (requests s1) = S (length (requests s))).
Proof.
  intros H. pose proof (resolve_success_caches _ _ _ _ _ H) as Hc.
  split; [exact Hc|]. split.
  - intros s2 Hl.
    pose proof (later_keeps_entries _ _ _ _ Hl Hc) as Hc2.
    rewrite (resolve_hit _ _ _ _ Hc2). auto.
  - intros Hmiss. revert H. unfold resolveEndpointsForPoint. rewrite Hmiss.
    destruct (net _ _) as [e|points]; [discriminate|].
    destruct (_ || _); [discriminate|].
    now intros [= <- <-].
Qed.

End EndpointFacts.

(** A network that answers the first request only: the second call for the
    page's coordinates still resolves, to the same value, with one request
    sent in all. *)
Lemma resolveEndpointsForPoint_cached_witness :
  let net : Endpoints.Network :=
    fun n url => if (n =? 0)%nat then Demo.answer [(Demo.points_url, Demo.two_zones)] url
                 else Js.Rejected "Request timed out. Please retry." in
  let first := Endpoints.resolveEndpointsForPoint net Demo.LAT Demo.LON Endpoints.fresh in
  let second := Endpoints.resolveEndpointsForPoint net Demo.LAT Demo.LON (snd first) in
  fst second = fst first
  /\ Endpoints.requests (snd second) = [Demo.points_url]
  /\ exists v, fst first = Js.Resolved v.
Proof.
  intros net first second.
  destruct (fst first) as [e|v] eqn:E; [vm_compute in E; discriminate E|].
  assert (H : first = (Js.Resolved v, snd first)).
  { rewrite <- E. now destruct first. }
  destruct (resolveEndpointsForPoint_cached net Demo.LAT Demo.LON Endpoints.fresh
              (snd first) v H) as (_ & Hlater & _).
  destruct (Hlater (snd first) (Endpoints.later_refl net _)) as [H2 H3].
  subst second. rewrite H2. simpl. split; [reflexivity|].
  split; [vm_compute; reflexivity|eauto].
Defined.

(** ** Array.prototype.sort *)
Section SortFacts.
Import Js.
Context {A : Type} (cmp : A -> A -> option Z).

Lemma sort_insert_Permutation (x : A) (l : list A) :
  Permutation (sort_insert cmp x l) (x :: l).
Proof.
  induction l as [|y l IH]; simpl; [reflexivity|].
  destruct (cmp_le cmp x y); [reflexivity|].
  rewrite IH. apply perm_swap.
Qed.

Lemma sort_Permutation (l : list A) : Permutation (sort cmp l) l.
Proof.
  induction l as [|x l IH]; simpl; [reflexivity|].
  rewrite sort_insert_Permutation. now apply perm_skip.
Qed.

(** On the elements that satisfy [P] the comparator follows a transitive
    order [R]: it answers "not after" only for [R x y], and "after" only for
    [R y x]. *)
Context (P : A -> Prop) (R : A -> A -> Prop).
Hypothesis cmp_le_R : forall x y, P x -> P y -> cmp_le cmp x y = true -> R x y.
Hypothesis cmp_gt_R : forall x y, P x -> P y -> cmp_le cmp x y = false -> R y x.
Hypothesis R_trans : forall x y z, P x -> P y -> P z -> R x y -> R y z -> R x z.

Lemma sort_insert_sorted (x : A) (l : list A) :
  P x -> Forall P l -> StronglySorted R l -> StronglySorted R (sort_insert cmp x l).
Proof.
  intros Hx HP Hs. induction Hs as [|y l Hs IH Hy]; simpl.
  - repeat constructor.
  - apply Forall_cons in HP as [Py Pl].
    destruct (cmp_le cmp x y) eqn:E.
    + apply cmp_le_R in E; [|assumption..].
      constructor; [now constructor|].
      constructor; [exact E|].
      rewrite List.Forall_forall in Hy, Pl |- *. intros z Hz.
      apply (R_trans x y z); auto.
    + apply cmp_gt_R in E; [|assumption..].
      constructor; [now apply IH|].
      rewrite (sort_insert_Permutation x l). now constructor.
Qed.

Lemma sort_sorted (l : list A) : Forall P l -> StronglySorted R (sort cmp l).
Proof.
  induction l as [|x l IH]; intros HP; simpl; [constructor|].
  apply Forall_cons in HP as [Px Pl].
  apply sort_insert_sorted; [exact Px| |now apply IH].
  now rewrite sort_Permutation.
Qed.

(** The head of the sorted list is one of the list and is before every
    other element. *)
Lemma sort_head (l : list A) (best : A) (rest : list A) :
  Forall P l -> sort cmp l = best :: rest ->
  In best l /\ Forall (R best) rest /\ Permutation (best :: rest) l.
Proof.
  intros HP E. pose proof (sort_sorted l HP) as Hs.
  pose proof (sort_Permutation l) as Hp. rewrite E in Hs, Hp.
  split; [apply (Permutation_in _ Hp); now left|].
  split; [now apply StronglySorted_inv in Hs|exact Hp].
Qed.

Lemma sort_nil (l : list A) : sort cmp l = [] -> l = [].
Proof.
  intros E. pose proof (sort_Permutation l) as Hp. rewrite E in Hp.
  now apply Permutation_nil in Hp.
Qed.

End SortFacts.

(** ** The order of the alert cards *)
Section AlertOrderFacts.
Import Js Doc Env Alerts.

Local Open Scope string_scope.

Variables (h : Host) (now : Z).

Lemma sortable_inv (f : Feature) :
  sortable h now f = true ->
  severityRank f = Number (rankOf f) /\ alertTime h now f = Some (timeOf h now f).
Proof.
  unfold sortable, rankOf, timeOf.
  destruct (severityRank f); try discriminate.
  destruct (alertTime h now f); [auto|discriminate].
Qed.

Lemma compareAlerts_order (a b : Feature) :
  sortable h now a = true -> sortable h now b = true ->
  cmp_le (compareAlerts h now) a b = true <-> alert_order h now a b.
Proof.
  intros Ha Hb.
  destruct (sortable_inv a Ha) as [Ra Ta], (sortable_inv b Hb) as [Rb Tb].
  unfold cmp_le, compareAlerts, alert_order. rewrite Ra, Rb, Ta, Tb. simpl.
  destruct (Z.eqb_spec (rankOf b) (rankOf a)) as [E|E]; simpl;
    rewrite Z.leb_le; lia.
Qed.

Lemma cmp_le_ranks (x y : Feature) (rx ry : Z) :
  severityRank x = Number rx -> severityRank y = Number ry -> rx <> ry ->
  cmp_le (compareAlerts h now) x y = (ry <? rx)%Z.
Proof.
  intros Hx Hy Hne. unfold cmp_le, compareAlerts. rewrite Hx, Hy. simpl.
  destruct (Z.eqb_spec ry rx) as [E|E]; [congruence|]. simpl.
  destruct (Z.leb_spec (ry - rx) 0), (Z.ltb_spec ry rx); lia.
Qed.

Lemma alert_order_total (a b : Feature) : alert_order h now a b \/ alert_order h now b a.
Proof. unfold alert_order. lia. Qed.

Lemma alert_order_trans (a b c : Feature) :
  alert_order h now a b -> alert_order h now b c -> alert_order h now a c.
Proof. unfold alert_order. lia. Qed.

Lemma assoc_other (s : string) :
  ~ In s (map fst SEVERITY_ORDER) -> assoc s SEVERITY_ORDER = None.
Proof.
  intros H. simpl in *.
  repeat match goal with
         | |- context [String.eqb s ?k] =>
             destruct (String.eqb_spec s k); [subst; tauto|]
         end.
  reflexivity.
Qed.

Lemma not_includes (xs : list string) (x : string) :
  ~ In x xs -> includes xs x = false.
Proof.
  intros H. unfold includes. induction xs as [|y ys IH]; [reflexivity|]. simpl.
  destruct (String.eqb_spec x y) as [->|_]; [elim H; now left|].
  apply IH. intros Hin. apply H. now right.
Qed.

End AlertOrderFacts.

Section AlertOrderClaims.
Import Js Doc Env Alerts.

Local Open Scope string_scope.

(** C2 (amended). The cards handed to the page are the aggregator's list
    sorted by severity descending, with Extreme=5, Severe=4, Moderate=3,
    Minor=2, Unknown=1 and 0 for a severity that is missing or is not a name
    of the table (names of inherited members of the table object apart),
    and within equal severity ascending by the time of the first that is
    present of onset and effective, in that order, or else of the clock;
    alerts of severities [Minor, Extreme, Severe, Unknown] come out as
    [Extreme, Severe, Minor, Unknown]. *)
Theorem alerts_sorted_by_severity_then_first_stamp (h : Host) (now : Z) :
  (forall f, (severityOf f = Some "Extreme" -> severityRank f = Number 5)
          /\ (severityOf f = Some "Severe" -> severityRank f = Number 4)
          /\ (severityOf f = Some "Moderate" -> severityRank f = Number 3)
          /\ (severityOf f = Some "Minor" -> severityRank f = Number 2)
          /\ (severityOf f = Some "Unknown" -> severityRank f = Number 1)
          /\ (severityOf f = None -> severityRank f = Number 0)
          /\ (forall s, severityOf f = Some s ->
                ~ In s (map fst SEVERITY_ORDER) -> ~ In s Object_prototype ->
                severityRank f = Number 0))
  /\ (forall f p, properties f = Some p ->
        (forall s, onset p = Some s -> s <> "" ->
                   alertTime h now f = Date_getTime h s)
        /\ (truthy (onset p) = false ->
            forall s, effective p = Some s -> s <> "" ->
                      alertTime h now f = Date_getTime h s)
        /\ (truthy (onset p) = false -> truthy (effective p) = false ->
            alertTime h now f = Some now))
  /\ (forall active,
        Forall (fun f => sortable h now f = true) active ->
        Permutation (sort (compareAlerts h now) active) active
        /\ StronglySorted (alert_order h now) (sort (compareAlerts h now) active))
  /\ (forall a b c d,
        severityOf a = Some "Minor" -> severityOf b = Some "Extreme" ->
        severityOf c = Some "Severe" -> severityOf d = Some "Unknown" ->
        sort (compareAlerts h now) [a; b; c; d] = [b; c; a; d])
  /\ (forall lat lon active,
        fetchAlertsCombined h lat lon = Resolved active ->
        cards (renderAlertsForPrimary h now lat lon)
        = sort (compareAlerts h now) active).
Proof.
  split; [|split; [|split; [|split]]].
  - intros f. unfold severityRank.
    repeat split; try (intros ->; reflexivity).
    intros s -> Hs Hp. unfold SEVERITY_ORDER_get.
    now rewrite (assoc_other s Hs), (not_includes _ _ Hp).
  - intros f p Hp. unfold alertTime. rewrite Hp. repeat split.
    + intros s Hs Hne. unfold or_field. rewrite Hs. simpl.
      destruct (String.eqb_spec s ""); [contradiction|]. simpl.
      now destruct (String.eqb_spec s "").
    + intros Ho s Hs Hne. unfold or_field. rewrite Ho, Hs.
      now destruct (String.eqb_spec s "").
    + intros Ho He. unfold or_field. rewrite Ho.
      destruct (effective p) as [s|]; [|reflexivity].
      simpl in He. now destruct (String.eqb s "").
  - intros active Hall. split; [apply sort_Permutation|].
    apply (sort_sorted _ (fun f => sortable h now f = true)); [| | |exact Hall].
    + intros x y Hx Hy. now apply compareAlerts_order.
    + intros x y Hx Hy E.
      destruct (alert_order_total h now x y) as [Hxy|Hyx]; [|exact Hyx].
      apply (compareAlerts_order h now x y Hx Hy) in Hxy. congruence.
    + intros x y z _ _ _. apply alert_order_trans.
  - intros a b c d Ha Hb Hc Hd.
    assert (Ra : severityRank a = Number 2) by (unfold severityRank; now rewrite Ha).
    assert (Rb : severityRank b = Number 5) by (unfold severityRank; now rewrite Hb).
    assert (Rc : severityRank c = Number 4) by (unfold severityRank; now rewrite Hc).
    assert (Rd : severityRank d = Number 1) by (unfold severityRank; now rewrite Hd).
    unfold sort. cbn [foldr sort_insert].
    rewrite (cmp_le_ranks h now c d 4 1 Rc Rd) by discriminate.
    change (1 <? 4)%Z with true. cbn [sort_insert].
    rewrite (cmp_le_ranks h now b c 5 4 Rb Rc) by discriminate.
    change (4 <? 5)%Z with true. cbn [sort_insert].
    rewrite (cmp_le_ranks h now a b 2 5 Ra Rb) by discriminate.
    change (5 <? 2)%Z with false. cbn [sort_insert].
    rewrite (cmp_le_ranks h now a c 2 4 Ra Rc) by discriminate.
    change (4 <? 2)%Z with false. cbn [sort_insert].
    rewrite (cmp_le_ranks h now a d 2 1 Ra Rd) by discriminate.
    reflexivity.
  - intros lat lon active Hf. unfold renderAlertsForPrimary. rewrite Hf.
    destruct active; [now destruct (has_alerts_list h)|reflexivity].
Qed.

(** Four alerts of the page's zones, by severity and then by onset. *)
Lemma alerts_sorted_witness :
  let h := Demo.alerts_host [] in
  let active := [Demo.heat_zone; Demo.flood_watch; Demo.storm_warning; Demo.flood_point] in
  sort (compareAlerts h Demo.evening) active
  = [Demo.flood_point; Demo.storm_warning; Demo.flood_watch; Demo.heat_zone]
  /\ StronglySorted (alert_order h Demo.evening) (sort (compareAlerts h Demo.evening) active).
Proof.
  intros h active. split; [vm_compute; reflexivity|].
  apply (proj1 (proj2 (proj2 (alerts_sorted_by_severity_then_first_stamp h Demo.evening)))).
  repeat constructor.
Defined.

(** C2 as stated fails on the tie-break: of two Severe alerts, the flood
    watch (in effect since 08:00, onset on 3 June) has the earlier "earliest
    of onset, effective and now", yet its card comes after the storm
    warning's, whose onset is the earlier one. *)
Lemma cards_not_sorted_by_earliest_stamp :
  let h := Demo.alerts_host
             [(Demo.point_alerts_url,
               Demo.features_doc [Demo.flood_watch; Demo.storm_warning])] in
  cards (renderAlertsForPrimary h Demo.evening Demo.LAT Demo.LON)
  = [Demo.storm_warning; Demo.flood_watch]
  /\ severityRank Demo.storm_warning = severityRank Demo.flood_watch
  /\ (earliestOf h Demo.evening Demo.flood_watch
      < earliestOf h Demo.evening Demo.storm_warning)%Z
  /\ ~ StronglySorted (spec_order h Demo.evening)
         (cards (renderAlertsForPrimary h Demo.evening Demo.LAT Demo.LON)).
Proof.
  intros h.
  assert (Hc : cards (renderAlertsForPrimary h Demo.evening Demo.LAT Demo.LON)
               = [Demo.storm_warning; Demo.flood_watch]) by (vm_compute; reflexivity).
  assert (Ht : (earliestOf h Demo.evening Demo.flood_watch
                < earliestOf h Demo.evening Demo.storm_warning)%Z)
    by (vm_compute; reflexivity).
  split; [exact Hc|]. split; [reflexivity|]. split; [exact Ht|].
  rewrite Hc. intros Hs. apply StronglySorted_inv in Hs as [_ Hall].
  apply Forall_inv in Hall. unfold spec_order in Hall.
  assert (Hr : rankOf Demo.storm_warning = rankOf Demo.flood_watch) by reflexivity.
  lia.
Qed.

End AlertOrderClaims.

(** ** Observation selector *)
Section ObservationFacts.
Import Js Doc Env Observations.

Variables (h : Host) (now : Z).

Lemma score_eq_spec (p : ObsProps) : score p = score_spec p.
Proof.
  unfold score, score_spec.
  destruct (has_value (temperature p)), (truthy (textDescription p)),
    (has_value (relativeHumidity p)), (has_value (windSpeed p)),
    (has_value (windDirection p)); reflexivity.
Qed.

Lemma usable_of_In (results : list (fetched Candidate)) (props : ObsProps)
      (station : string) :
  In (props, station) (usable_of results)
  <-> In (Resolved {| p := Some props; id := station |}) results.
Proof.
  unfold usable_of. rewrite <- !list_elem_of_In, list_elem_of_omap. split.
  - intros (r & Hr & E). destruct r as [e|[[q|] i]]; try discriminate.
    simpl in E. now injection E as -> ->.
  - intros H. eexists. split; [exact H|reflexivity].
Qed.

Lemma compareObs_by_score (a b : ObsProps * string) :
  (cmp_le (compareObs h now) a b = true -> by_score a b)
  /\ (cmp_le (compareObs h now) a b = false -> by_score b a).
Proof.
  unfold cmp_le, compareObs, by_score.
  destruct (Z.eqb_spec (score (fst b)) (score (fst a))) as [E|E]; simpl.
  - split; intros _; lia.
  - rewrite Z.leb_le, Z.leb_gt. lia.
Qed.

Lemma compareObs_by_time (a b : ObsProps * string) :
  dated h now (fst a) = true -> dated h now (fst b) = true ->
  (cmp_le (compareObs h now) a b = true -> by_score_then_time h now a b)
  /\ (cmp_le (compareObs h now) a b = false -> by_score_then_time h now b a).
Proof.
  unfold dated, cmp_le, compareObs, by_score_then_time, obsTimeOf.
  destruct (obsTime h now (fst a)) as [ta|]; [|discriminate].
  destruct (obsTime h now (fst b)) as [tb|]; [|discriminate]. intros _ _.
  destruct (Z.eqb_spec (score (fst b)) (score (fst a))) as [E|E]; simpl;
    rewrite Z.leb_le, Z.leb_gt; lia.
Qed.

Lemma reads_time_obsTime (p : ObsProps) (t : Z) :
  reads_time h now p t <-> obsTime h now p = Some t.
Proof.
  unfold reads_time, obsTime. destruct (timestamp p) as [s|]; simpl.
  - destruct (String.eqb_spec s "") as [->|Hs]; simpl.
    + split.
      * intros [(s' & E & Hne & _)|[_ ->]]; [|reflexivity].
        injection E as <-. now contradiction Hne.
      * intros E. injection E as <-. now right.
    + split.
      * intros [(s' & E & _ & Ht)|[E _]]; [|discriminate].
        now injection E as <-.
      * intros Ht. left. now exists s.
  - split.
    + intros [(s' & E & _)|[_ ->]]; [discriminate|reflexivity].
    + intros E. injection E as <-. now right.
Qed.

Lemma selectBest_spec (results : list (fetched Candidate)) :
  match selectBest h now results with
  | Rejected _ => usable_of results = []
  | Resolved best =>
      (exists station, In (best, station) (usable_of results))
      /\ (forall c, In c (usable_of results) -> score (fst c) <= score best)
      /\ (Forall (fun c => dated h now (fst c) = true) (usable_of results) ->
          forall c, In c (usable_of results) -> score (fst c) = score best ->
                    obsTimeOf h now best <= obsTimeOf h now (fst c))
  end.
Proof.
  unfold selectBest.
  destruct (sort (compareObs h now) (usable_of results)) as [|[best station] rest] eqn:E.
  - now apply sort_nil in E.
  - split; [|split].
    + exists station.
      apply (Permutation_in _ (sort_Permutation (compareObs h now) _)).
      rewrite E. now left.
    + destruct (sort_head (compareObs h now) (fun _ => True) by_score) with
        (l := usable_of results) (best := (best, station)) (rest := rest)
        as (_ & Hall & Hp); [| | | |exact E|].
      * intros x y _ _. apply compareObs_by_score.
      * intros x y _ _. apply compareObs_by_score.
      * unfold by_score. intros; lia.
      * now apply List.Forall_forall.
      * intros c Hc. apply (Permutation_in _ (Permutation_sym Hp)) in Hc as [<-|Hc].
        -- simpl. lia.
        -- rewrite List.Forall_forall in Hall. exact (Hall c Hc).
    + intros Hd.
      destruct (sort_head (compareObs h now) (fun c => dated h now (fst c) = true)
                  (by_score_then_time h now)) with
        (l := usable_of results) (best := (best, station)) (rest := rest)
        as (_ & Hall & Hp); [| | |exact Hd|exact E|].
      * intros x y Hx Hy. now apply compareObs_by_time.
      * intros x y Hx Hy. now apply compareObs_by_time.
      * unfold by_score_then_time. intros; lia.
      * intros c Hc. apply (Permutation_in _ (Permutation_sym Hp)) in Hc as [<-|Hc].
        -- cbn [fst]. lia.
        -- rewrite List.Forall_forall in Hall. specialize (Hall c Hc).
           unfold by_score_then_time in Hall. cbn [fst] in Hall |- *. lia.
Qed.

End ObservationFacts.

Section ObservationClaims.
Import Js Doc Env Observations.

(** C3 (amended). Requests that failed or brought no properties body are no
    candidates; a candidate scores 3 with temperature, humidity, wind speed
    and wind direction, else 2 with temperature and description, else 1 with
    exactly one of these two, else 0; the selector returns a candidate and
    fails only without candidates.  When the time of every candidate can be
    read (its timestamp is a date, or it has none and the clock stands in),
    the candidate returned has the highest score and, among those of its
    score, the earliest time.  With a full observation from station A, the
    temperature alone from B and a failed request for C, it returns A's
    observation. *)
Theorem selectBest_highest_score_then_earliest (h : Host) (now : Z) :
  (forall p, score p = score_spec p)
  /\ (forall results props station,
        In (props, station) (usable_of results)
        <-> In (Resolved {| p := Some props; id := station |}) results)
  /\ (forall results,
        match selectBest h now results with
        | Rejected _ => usable_of results = []
        | Resolved best =>
            (exists station, In (best, station) (usable_of results))
            /\ ((forall c, In c (usable_of results) ->
                            exists t, reads_time h now (fst c) t) ->
                (forall c, In c (usable_of results) -> score (fst c) <= score best)
                /\ earliest_of_its_score h now (usable_of results) best)
        end)
  /\ (forall stations,
        getNearestObservationParallel h now stations
        = selectBest h now (map (request h) (subset stations)))
  /\ (forall results pA pB idA idB e,
        Permutation results
          [Resolved {| p := Some pA; id := idA |};
           Resolved {| p := Some pB; id := idB |};
           Rejected e] ->
        has_value (temperature pA) = true -> has_value (relativeHumidity pA) = true ->
        has_value (windSpeed pA) = true -> has_value (windDirection pA) = true ->
        has_value (temperature pB) = true -> has_value (relativeHumidity pB) = false ->
        has_value (windSpeed pB) = false -> has_value (windDirection pB) = false ->
        truthy (textDescription pB) = false ->
        selectBest h now results = Resolved pA).
Proof.
  split; [apply score_eq_spec|]. split; [apply usable_of_In|].
  split; [|split; [reflexivity|]].
  - intros results. pose proof (selectBest_spec h now results) as Hsel.
    destruct (selectBest h now results) as [msg|best]; [exact Hsel|].
    destruct Hsel as (Hin & Hmax & Htie). split; [exact Hin|].
    intros Hread. split; [exact Hmax|].
    assert (Hd : Forall (fun c => dated h now (fst c) = true) (usable_of results)).
    { apply List.Forall_forall. intros c Hc. destruct (Hread c Hc) as [t Ht].
      apply reads_time_obsTime in Ht. unfold dated. now rewrite Ht. }
    intros c tb tc Hc Hs Hb Ht. specialize (Htie Hd c Hc Hs).
    apply reads_time_obsTime in Hb, Ht. unfold obsTimeOf in Htie.
    now rewrite Hb, Ht in Htie.
  - intros results pA pB idA idB e Hperm At Ah As Ad Bt Bh Bs Bd Bx.
    assert (SA : score pA = 3) by (unfold score; now rewrite At, Ah, As, Ad).
    assert (SB : score pB = 1) by (unfold score; now rewrite Bt, Bh, Bx).
    assert (HA : In (pA, idA) (usable_of results)).
    { apply usable_of_In, (Permutation_in _ (Permutation_sym Hperm)). now left. }
    pose proof (selectBest_spec h now results) as Hsel.
    destruct (selectBest h now results) as [msg|best].
    + rewrite Hsel in HA. destruct HA.
    + destruct Hsel as ((station & Hbest) & Hmax & _).
      apply usable_of_In, (Permutation_in _ Hperm) in Hbest.
      destruct Hbest as [E|[E|[E|[]]]]; [congruence| |discriminate].
      specialize (Hmax _ HA). simpl in Hmax.
      assert (best = pB) by congruence. subst best. lia.
Qed.

(** Stations KGTU (all four measurements), KAUS (temperature only, though
    the older observation) and KRYW (request fails); and two full
    observations, of 14:00 at KGTU and of 08:00 at KAUS: the older one is
    returned, though the farther. *)
Lemma selectBest_witness :
  (getNearestObservationParallel Demo.stations_host Demo.evening Demo.three_stations
   = Resolved Demo.obs_A
   /\ score Demo.obs_A = 3 /\ score Demo.obs_B = 1)
  /\ (getNearestObservationParallel Demo.tie_host Demo.evening Demo.three_stations
      = Resolved Demo.obs_early
      /\ score Demo.obs_early = score Demo.obs_A
      /\ reads_time Demo.tie_host Demo.evening Demo.obs_early 1717228800000
      /\ reads_time Demo.tie_host Demo.evening Demo.obs_A 1717250400000
      /\ earliest_of_its_score Demo.tie_host Demo.evening
           (usable_of (map (request Demo.tie_host) (subset Demo.three_stations)))
           Demo.obs_early).
Proof.
  split.
  - split; [|split; reflexivity].
    apply (proj2 (proj2 (proj2 (proj2
             (selectBest_highest_score_then_earliest Demo.stations_host Demo.evening))))
             _ Demo.obs_A Demo.obs_B
             "https://api.weather.gov/stations/KGTU"%string
             "https://api.weather.gov/stations/KAUS"%string
             "Request failed (404 Not Found): "%string);
      try reflexivity.
  - assert (E : getNearestObservationParallel Demo.tie_host Demo.evening Demo.three_stations
                = Resolved Demo.obs_early) by (vm_compute; reflexivity).
    assert (RE : reads_time Demo.tie_host Demo.evening Demo.obs_early 1717228800000).
    { left. exists "2024-06-01T08:00:00Z"%string. repeat split. discriminate. }
    assert (RA : reads_time Demo.tie_host Demo.evening Demo.obs_A 1717250400000).
    { left. exists "2024-06-01T14:00:00Z"%string. repeat split. discriminate. }
    split; [exact E|]. split; [reflexivity|]. split; [exact RE|]. split; [exact RA|].
    pose proof (proj1 (proj2 (proj2
                  (selectBest_highest_score_then_earliest Demo.tie_host Demo.evening)))
                  (map (request Demo.tie_host) (subset Demo.three_stations))) as H.
    change (selectBest Demo.tie_host Demo.evening
              (map (request Demo.tie_host) (subset Demo.three_stations)))
      with (getNearestObservationParallel Demo.tie_host Demo.evening Demo.three_stations)
      in H.
    rewrite E in H. apply H.
    intros c Hc. vm_compute in Hc. destruct Hc as [<-|[<-|[]]].
    + now exists 1717250400000.
    + now exists 1717228800000.
Defined.

(** C3 as stated fails when a timestamp is no date: of three full
    observations, of 14:00, with the timestamp "not-a-date" and of 08:00,
    in this order of the stations, the one of 14:00 is returned, though the
    one of 08:00 has the same score and the earlier timestamp: against the
    undated observation the comparator answers NaN, which the sort reads as
    "equal", and the three are left in the order of the stations.  In the
    same way, of the undated observation and the one of 08:00 alone, which
    compare as equal, the undated one is returned when its station comes
    first. *)
Lemma selectBest_not_earliest_with_undated :
  let h := Demo.undated_host in
  let candidates := usable_of (map (request h) (subset Demo.three_stations)) in
  let two :=
    [Resolved {| p := Some Demo.obs_undated; id := "https://api.weather.gov/stations/KAUS" |};
     Resolved {| p := Some Demo.obs_early; id := "https://api.weather.gov/stations/KRYW" |}] in
  (getNearestObservationParallel h Demo.evening Demo.three_stations = Resolved Demo.obs_A
   /\ In (Demo.obs_early, "https://api.weather.gov/stations/KRYW"%string) candidates
   /\ score Demo.obs_early = score Demo.obs_A
   /\ reads_time h Demo.evening Demo.obs_A 1717250400000
   /\ reads_time h Demo.evening Demo.obs_early 1717228800000
   /\ ~ earliest_of_its_score h Demo.evening candidates Demo.obs_A)
  /\ (selectBest h Demo.evening two = Resolved Demo.obs_undated
      /\ score Demo.obs_undated = score Demo.obs_early
      /\ (forall t, ~ reads_time h Demo.evening Demo.obs_undated t)).
Proof.
  intros h candidates two.
  assert (RE : reads_time h Demo.evening Demo.obs_early 1717228800000).
  { left. exists "2024-06-01T08:00:00Z"%string. repeat split. discriminate. }
  assert (RA : reads_time h Demo.evening Demo.obs_A 1717250400000).
  { left. exists "2024-06-01T14:00:00Z"%string. repeat split. discriminate. }
  assert (Hin : In (Demo.obs_early, "https://api.weather.gov/stations/KRYW"%string)
                   candidates).
  { vm_compute. right. right. left. reflexivity. }
  split.
  - split; [vm_compute; reflexivity|]. split; [exact Hin|]. split; [reflexivity|].
    split; [exact RA|]. split; [exact RE|].
    intros H. specialize (H _ _ _ Hin eq_refl RA RE). lia.
  - split; [vm_compute; reflexivity|]. split; [reflexivity|].
    intros t Ht. apply reads_time_obsTime in Ht. discriminate Ht.
Qed.

End ObservationClaims.

(** * Further properties *)

(** ** The de-duplication loop, continued *)
Section UniqueMore.
Import Js.
Context {A : Type} (key : A -> string).

(** A list whose keys are distinct and new goes through unchanged. *)
Lemma unique_from_distinct (l : list A) (seen : gset string) :
  NoDup (map key l) -> (forall f, In f l -> key f ∉ seen) ->
  unique_from key seen l = l.
Proof.
  revert seen. induction l as [|x l IH]; intros seen Hnd Hnew; [reflexivity|].
  simpl. rewrite bool_decide_eq_false_2 by (apply Hnew; now left).
  f_equal. simpl in Hnd. apply NoDup_cons in Hnd as [Hx Hnd].
  apply IH; [exact Hnd|]. intros f Hf.
  rewrite elem_of_union, elem_of_singleton. intros [E|E].
  - apply Hx. rewrite <- E. apply list_elem_of_In, in_map, Hf.
  - apply (Hnew f); [now right|exact E].
Qed.

Lemma unique_by_idempotent (l : list A) :
  unique_by key (unique_by key l) = unique_by key l.
Proof.
  rewrite !unique_by_from. apply unique_from_distinct.
  - apply unique_from_NoDup.
  - intros f _. apply not_elem_of_empty.
Qed.

Lemma unique_by_keys (l : list A) :
  list_to_set (map key (unique_by key l)) =@{gset string} list_to_set (map key l).
Proof.
  rewrite unique_by_from. apply set_eq. intros k.
  rewrite !elem_of_list_to_set, !list_elem_of_In, !in_map_iff. split.
  - intros (f & <- & Hf). apply unique_from_In in Hf as [Hf _]. eauto.
  - intros (f & <- & Hf).
    destruct (unique_from_keeps_first key l ∅ f Hf) as (g & _ & Hg & Hk);
      [apply not_elem_of_empty|eauto].
Qed.

Lemma unique_by_length (l : list A) :
  length (unique_by key l) = size (list_to_set (map key l) : gset string).
Proof.
  rewrite <- unique_by_keys, size_list_to_set, length_map; [reflexivity|].
  rewrite unique_by_from. apply unique_from_NoDup.
Qed.

End UniqueMore.

(** ** Splitting at slashes *)
Section SplitFacts.
Import Js Zones.

Local Open Scope string_scope.

Lemma append_cons (c : ascii) (a b : string) : String c a ++ b = String c (a ++ b).
Proof. reflexivity. Qed.

Lemma append_assoc (a b c : string) : (a ++ b) ++ c = a ++ (b ++ c).
Proof.
  induction a as [|x a IH]; [reflexivity|].
  rewrite !append_cons. now rewrite IH.
Qed.

Lemma append_empty_l (a : string) : "" ++ a = a.
Proof. reflexivity. Qed.

Lemma append_empty_r (a : string) : a ++ "" = a.
Proof. induction a as [|x a IH]; [reflexivity|]. rewrite append_cons. now rewrite IH. Qed.

Lemma split_slash_cons (s : string) : exists piece pieces, split_slash s = piece :: pieces.
Proof.
  induction s as [|c s (piece & pieces & IH)]; [now exists "", []|].
  cbn [split_slash]. destruct (Ascii.eqb c "/"); [eauto|]. rewrite IH. eauto.
Qed.

Lemma split_slash_app (a b : string) :
  split_slash (a ++ String "/" b) = (split_slash a ++ split_slash b)%list.
Proof.
  induction a as [|c a IH]; [reflexivity|].
  rewrite append_cons. cbn [split_slash]. rewrite IH.
  destruct (Ascii.eqb c "/"); [reflexivity|].
  destruct (split_slash_cons a) as (piece & pieces & ->). reflexivity.
Qed.

Lemma split_slash_no_slash (z : string) : has_slash z = false -> split_slash z = [z].
Proof.
  induction z as [|c z IH]; [reflexivity|]. cbn [has_slash split_slash].
  destruct (Ascii.eqb c "/"); [discriminate|]. intros H. now rewrite (IH H).
Qed.

Lemma split_slash_pieces (s : string) :
  List.Forall (fun piece => has_slash piece = false) (split_slash s).
Proof.
  induction s as [|c s IH]; [repeat constructor|]. cbn [split_slash].
  destruct (Ascii.eqb c "/") eqn:E; [now constructor|].
  destruct (split_slash s) as [|piece pieces]; [repeat constructor; cbn; now rewrite E|].
  apply Forall_inv in IH as Hp. apply Forall_inv_tail in IH.
  constructor; [|exact IH]. cbn [has_slash]. now rewrite E.
Qed.

Lemma split_slash_slashes (k : nat) :
  split_slash (slashes k) = repeat "" (S k).
Proof. induction k as [|k IH]; [reflexivity|]. cbn [slashes split_slash]. now rewrite IH. Qed.

Lemma split_segment_slashes (z : string) (k : nat) :
  has_slash z = false -> split_slash (z ++ slashes k) = z :: repeat "" k.
Proof.
  intros Hz. destruct k as [|k].
  - cbn [slashes repeat]. rewrite append_empty_r. now apply split_slash_no_slash.
  - cbn [slashes]. rewrite split_slash_app, (split_slash_no_slash z Hz), split_slash_slashes.
    reflexivity.
Qed.

Lemma join_split (s : string) : join_slash (split_slash s) = s.
Proof.
  induction s as [|c s IH]; [reflexivity|]. cbn [split_slash].
  destruct (split_slash_cons s) as (piece & pieces & E). rewrite E in IH |- *.
  destruct (Ascii.eqb_spec c "/") as [->|Hc].
  - change (join_slash ("" :: piece :: pieces))
      with ("" ++ String "/" (join_slash (piece :: pieces))).
    now rewrite IH.
  - destruct pieces as [|q pieces].
    + cbn [join_slash] in IH |- *. now rewrite IH.
    + change (join_slash (String c piece :: q :: pieces))
        with (String c piece ++ String "/" (join_slash (q :: pieces))).
      change (join_slash (piece :: q :: pieces))
        with (piece ++ String "/" (join_slash (q :: pieces))) in IH.
      rewrite append_cons. now rewrite IH.
Qed.

Lemma join_at (l1 l2 : list string) (z : string) :
  exists before,
    join_slash (l1 ++ z :: l2) = before ++ join_slash (z :: l2) /\ ends_segment before.
Proof.
  induction l1 as [|x l1 (before & E & Hb)]; [exists ""; split; [reflexivity|now left]|].
  exists (x ++ String "/" before). split.
  - destruct (l1 ++ z :: l2)%list as [|y rest] eqn:El; [now destruct l1|].
    change (((x :: l1) ++ z :: l2)%list) with (x :: (l1 ++ z :: l2))%list. rewrite El.
    change (join_slash (x :: y :: rest)) with (x ++ String "/" (join_slash (y :: rest))).
    rewrite E, append_assoc, append_cons. reflexivity.
  - right. destruct Hb as [->|[b ->]]; [now exists x|].
    exists (x ++ String "/" b). now rewrite append_assoc, append_cons.
Qed.

Lemma join_empties (z : string) (k : nat) :
  join_slash (z :: repeat "" k) = z ++ slashes k.
Proof.
  revert z. induction k as [|k IH]; intros z.
  - cbn [repeat join_slash slashes]. now rewrite append_empty_r.
  - cbn [repeat slashes].
    change (join_slash (z :: "" :: repeat "" k))
      with (z ++ String "/" (join_slash ("" :: repeat "" k))).
    now rewrite IH.
Qed.

Lemma all_empty_repeat (l : list string) :
  List.Forall (fun piece => (negb (String.eqb piece "")) = false) l ->
  l = repeat "" (length l).
Proof.
  induction 1 as [|x l Hx _ IH]; [reflexivity|]. cbn [length repeat].
  destruct (String.eqb_spec x ""); [|discriminate]. subst x. now rewrite <- IH.
Qed.

Lemma last_filter {A} (f : A -> bool) (l : list A) (z : A) :
  last (List.filter f l) = Some z
  <-> exists l1 l2, l = (l1 ++ z :: l2)%list /\ f z = true
                    /\ List.Forall (fun x => f x = false) l2.
Proof.
  split.
  - induction l as [|x l IH] using rev_ind; [discriminate|].
    rewrite List.filter_app. cbn [List.filter]. destruct (f x) eqn:Hx.
    + rewrite last_snoc. intros E. injection E as <-.
      exists l, []. repeat split; [exact Hx|constructor].
    + rewrite app_nil_r. intros H. destruct (IH H) as (l1 & l2 & -> & Hz & Hall).
      exists l1, (l2 ++ [x])%list. rewrite <- app_assoc. repeat split; [exact Hz|].
      apply List.Forall_app. split; [exact Hall|]. now constructor.
  - intros (l1 & l2 & -> & Hz & Hall). rewrite List.filter_app. cbn [List.filter].
    rewrite Hz. assert (List.filter f l2 = []) as ->.
    { induction Hall as [|x l2 Hx _ IH]; [reflexivity|]. cbn [List.filter]. now rewrite Hx. }
    apply last_snoc.
Qed.

(** The last of the non-empty pieces is the last segment. *)
Lemma last_segment_spec (path z : string) :
  last (List.filter (fun s => negb (String.eqb s "")) (split_slash path)) = Some z
  <-> last_segment z path.
Proof.
  rewrite last_filter. split.
  - intros (l1 & l2 & E & Hz & Hall).
    assert (Hne : z <> "") by (intros ->; discriminate).
    split; [exact Hne|]. split.
    + pose proof (split_slash_pieces path) as Hp. rewrite E in Hp.
      apply List.Forall_app in Hp as [_ Hp]. now apply Forall_inv in Hp.
    + destruct (join_at l1 l2 z) as (before & Hj & Hb).
      exists before, (length l2). split; [|exact Hb].
      rewrite <- (join_split path), E, Hj, (all_empty_repeat l2 Hall), join_empties.
      now rewrite repeat_length.
  - intros (Hne & Hz & before & k & -> & Hb).
    assert (Hs : exists l1, split_slash (before ++ z ++ slashes k)
                            = (l1 ++ z :: repeat "" k)%list).
    { destruct Hb as [->|[b ->]].
      - exists []. now apply split_segment_slashes.
      - exists (split_slash b).
        rewrite append_assoc, append_cons, append_empty_l, split_slash_app.
        now rewrite (split_segment_slashes z k Hz). }
    destruct Hs as [l1 ->]. exists l1, (repeat "" k). split; [reflexivity|]. split.
    + destruct (String.eqb_spec z ""); [contradiction|reflexivity].
    + apply List.Forall_forall. intros x Hx. apply repeat_spec in Hx. now subst x.
Qed.

(** The last piece is what follows the last slash. *)
Lemma after_last_slash_spec (u z : string) :
  last (split_slash u) = Some z <-> after_last_slash z u.
Proof.
  rewrite last_Some. split.
  - intros (l1 & E). split.
    + pose proof (split_slash_pieces u) as Hp. rewrite E in Hp.
      apply List.Forall_app in Hp as [_ Hp]. now apply Forall_inv in Hp.
    + destruct (join_at l1 [] z) as (before & Hj & Hb).
      exists before. split; [|exact Hb]. now rewrite <- (join_split u), E, Hj.
  - intros (Hz & before & -> & Hb). destruct Hb as [->|[b ->]].
    + exists []. now apply split_slash_no_slash.
    + exists (split_slash b).
      rewrite append_assoc, append_cons, append_empty_l, split_slash_app.
      now rewrite (split_slash_no_slash z Hz).
Qed.

End SplitFacts.

(** ** The aggregator, continued *)
Section AggregatorMore.
Import Js Doc Env Alerts Variation Zones.

Local Open Scope string_scope.

Lemma omap_length_le {A B} (f : A -> option B) (l : list A) :
  (length (omap f l) <= length l)%nat.
Proof.
  induction l as [|x l IH]; [reflexivity|].
  change (omap f (x :: l)) with (match f x with
                                 | Some y => y :: omap f l
                                 | None => omap f l
                                 end).
  destruct (f x); cbn [length]; lia.
Qed.

Lemma append_inj_l (s a b : string) : s ++ a = s ++ b -> a = b.
Proof. induction s as [|c s IH]; simpl; [auto|]. intros [= H]. auto. Qed.

Lemma url_runRequest (h : Host) (r : string * string) : url (runRequest h r) = snd r.
Proof. unfold runRequest. now destruct (getJSON_alerts h (snd r)). Qed.

Lemma zoneCodes_candidates (h : Host) (points : option Points) (z : string) :
  In z (omap (fun c => if truthy c then c else None)
          (let props := match points with
                        | Some d => points_properties d
                        | None => None
                        end in
           [zoneCode h (match props with Some p => forecastZone p | None => None end);
            zoneCode h (match props with Some p => county p | None => None end);
            zoneCode h (match props with Some p => fireWeatherZone p | None => None end)]))
  <-> z <> "" /\ exists u, In (Some u) (zone_refs points) /\ u <> ""
                           /\ zoneCode h (Some u) = Some z.
Proof.
  rewrite <- list_elem_of_In, list_elem_of_omap. split.
  - intros (c & Hc & Hz). apply list_elem_of_In in Hc.
    assert (Ht : c = Some z /\ z <> "").
    { destruct c as [s|]; simpl in Hz; [|discriminate].
      destruct (String.eqb_spec s ""); simpl in Hz; [discriminate|].
      injection Hz as ->. auto. }
    destruct Ht as [-> Hne]. split; [exact Hne|].
    assert (Hzc : forall r, zoneCode h r = Some z ->
                            exists u, r = Some u /\ u <> "" /\ zoneCode h (Some u) = Some z).
    { intros [u|] Hr; [|discriminate]. exists u. split; [reflexivity|]. split; [|exact Hr].
      intros ->. discriminate. }
    unfold zone_refs.
    destruct points as [[[p|]]|]; cbn [points_properties] in Hc;
      destruct Hc as [Hc|[Hc|[Hc|[]]]]; try discriminate;
      apply Hzc in Hc as (u & Hu & Hne' & Hcode);
      exists u; (split; [rewrite <- Hu; simpl; auto|split; assumption]).
  - intros (Hne & u & Hu & Hune & Hzc).
    exists (Some z). split.
    + apply list_elem_of_In.
      unfold zone_refs in Hu.
      destruct points as [[[p|]]|]; simpl in Hu; try tauto.
      cbn [points_properties].
      destruct Hu as [Hu|[Hu|[Hu|[]]]]; rewrite Hu, Hzc; simpl; auto.
    + simpl. now destruct (String.eqb_spec z "").
Qed.

Lemma zoneCodes_distinct_bounded (h : Host) (points : option Points) :
  NoDup (zoneCodesFromPoints h points)
  /\ (length (zoneCodesFromPoints h points) <= 3)%nat.
Proof.
  unfold zoneCodesFromPoints. rewrite unique_by_from.
  set (cands := omap _ _). split.
  - pose proof (unique_from_NoDup (fun z : string => z) cands ∅) as H.
    now rewrite map_id in H.
  - pose proof (sublist_length _ _ (unique_from_sublist (fun z : string => z) cands ∅)).
    assert (Hc3 : (length cands <= 3)%nat).
    { subst cands. etransitivity; [apply omap_length_le|]. reflexivity. }
    lia.
Qed.

Lemma zoneCode_spec (h : Host) (u z : string) :
  u <> "" ->
  zoneCode h (Some u) = Some z
  <-> match URL_pathname h u with
      | Some pathname =>
          last (List.filter (fun s => negb (String.eqb s "")) (split_slash pathname)) = Some z
      | None => last (split_slash u) = Some z
      end.
Proof.
  intros Hu. unfold zoneCode. destruct (String.eqb_spec u ""); [contradiction|].
  now destruct (URL_pathname h u).
Qed.

(** X3. The zone codes of a point are distinct, non-empty and at most
    three, and are exactly the last path segments of the non-empty zone
    references of the [/points] answer: of a reference that parses as a URL,
    the last non-empty segment of its path (the query and the fragment are
    no part of it; a path without segment gives no code); of one that does
    not, what follows its last slash.  Without an answer body or without
    [properties] there are none. *)
Theorem zoneCodesFromPoints_spec (h : Host) (points : option Points) :
  NoDup (zoneCodesFromPoints h points)
  /\ (length (zoneCodesFromPoints h points) <= 3)%nat
  /\ (forall z, In z (zoneCodesFromPoints h points)
                <-> z <> "" /\ exists u, In (Some u) (zone_refs points) /\ u <> ""
                      /\ match URL_pathname h u with
                         | Some pathname => last_segment z pathname
                         | None => after_last_slash z u
                         end)
  /\ (zone_refs points = [] -> zoneCodesFromPoints h points = []).
Proof.
  split; [apply zoneCodes_distinct_bounded|].
  split; [apply zoneCodes_distinct_bounded|].
  unfold zoneCodesFromPoints. rewrite unique_by_from.
  set (cands := omap _ _).
  assert (Hin : forall z, In z (unique_from (fun z => z) ∅ cands) <-> In z cands).
  { intros z. split.
    - intros H. now apply unique_from_In in H.
    - intros H.
      destruct (unique_from_keeps_first (fun z => z) cands ∅ z H) as (g & _ & Hg & ->);
        [apply not_elem_of_empty|exact Hg]. }
  split.
  - intros z. rewrite Hin. subst cands. rewrite zoneCodes_candidates.
    split; intros (Hz & u & Hu & Hne & Hc); (split; [exact Hz|]); exists u;
      (split; [exact Hu|]); (split; [exact Hne|]).
    + apply (zoneCode_spec h u z Hne) in Hc. destruct (URL_pathname h u).
      * now apply last_segment_spec.
      * now apply after_last_slash_spec.
    + apply (zoneCode_spec h u z Hne). destruct (URL_pathname h u).
      * now apply last_segment_spec.
      * now apply after_last_slash_spec.
  - intros Hrefs.
    destruct (unique_from (fun z => z) ∅ cands) as [|z rest] eqn:E; [reflexivity|].
    assert (Hz : In z cands) by (apply Hin; now left).
    apply zoneCodes_candidates in Hz as (_ & u & Hu & _). rewrite Hrefs in Hu. destruct Hu.
Qed.

(** The county zone of the page is given with a trailing slash, a query
    that has a slash in it and a fragment: its code is still TX453. *)
Lemma zoneCodesFromPoints_spec_witness :
  let h := Demo.alerts_host [] in
  let county_ref := "https://api.weather.gov/zones/county/TX453/?view=a/b#top" in
  let points := Some {| points_properties := Some
    {| forecastZone := None; county := Some county_ref; fireWeatherZone := Some "";
       forecastHourly := None; forecast := None; observationStations := None |} |} in
  URL_pathname h county_ref = Some "/zones/county/TX453/"
  /\ In "TX453" (zoneCodesFromPoints h points)
  /\ zoneCodesFromPoints h points = ["TX453"].
Proof.
  intros h county_ref points. split; [reflexivity|]. split; [|vm_compute; reflexivity].
  apply (proj1 (proj2 (proj2 (zoneCodesFromPoints_spec h points)))).
  split; [discriminate|]. exists county_ref.
  split; [right; left; reflexivity|]. split; [discriminate|].
  change (URL_pathname h county_ref) with (Some "/zones/county/TX453/").
  split; [discriminate|]. split; [reflexivity|].
  exists "/zones/county/", 1%nat. split; [reflexivity|]. right. now exists "/zones/county".
Defined.


(** X1. The aggregator's list is a fixed point of the de-duplication: run
    through the loop again it comes out unchanged. *)
Theorem fetchAlertsCombined_idempotent (h : Host) (lat lon : string)
        (unique : list Feature) :
  fetchAlertsCombined h lat lon = Resolved unique ->
  unique_by alertKey unique = unique.
Proof.
  unfold fetchAlertsCombined. destruct (getJSON_points h _); [discriminate|].
  intros [= <-]. apply unique_by_idempotent.
Qed.

Lemma fetchAlertsCombined_idempotent_witness :
  let h := Demo.alerts_host
             [(Demo.point_alerts_url, Demo.features_doc [Demo.flood_point]);
              (Demo.zone_alerts_url "TX453", Demo.features_doc [Demo.heat_zone; Demo.flood_zone])] in
  unique_by alertKey [Demo.flood_point; Demo.heat_zone] = [Demo.flood_point; Demo.heat_zone].
Proof.
  intros h. apply (fetchAlertsCombined_idempotent h Demo.LAT Demo.LON).
  vm_compute. reflexivity.
Defined.

(** X2. The number of alerts that the page counts is the number of distinct
    identity keys among the point features and the zone features that passed
    the filter. *)
Theorem activeCount_is_number_of_keys (h : Host) (now : Z) (lat lon : string)
        (points : option Points) :
  getJSON_points h (API ++ "/points/" ++ lat ++ "," ++ lon) = Resolved points ->
  activeCount (renderAlertsForPrimary h now lat lon)
  = size (list_to_set (map alertKey (allAlerts h lat lon points)) : gset string).
Proof.
  intros Hp. unfold renderAlertsForPrimary, fetchAlertsCombined. rewrite Hp.
  rewrite <- unique_by_length.
  destruct (unique_by alertKey (allAlerts h lat lon points)) as [|f active] eqn:E;
    [now destruct (has_alerts_list h)|].
  cbn [activeCount]. apply Permutation_length, sort_Permutation.
Qed.

Lemma activeCount_is_number_of_keys_witness :
  let h := Demo.alerts_host
             [(Demo.point_alerts_url, Demo.features_doc [Demo.flood_point]);
              (Demo.zone_alerts_url "TX209", Demo.features_doc [Demo.flood_zone]);
              (Demo.zone_alerts_url "TX453", Demo.features_doc [Demo.heat_zone; Demo.flood_zone])] in
  length (allAlerts h Demo.LAT Demo.LON Demo.two_zones) = 4%nat
  /\ activeCount (renderAlertsForPrimary h Demo.noon Demo.LAT Demo.LON) = 2%nat.
Proof.
  intros h. split; [vm_compute; reflexivity|].
  rewrite (activeCount_is_number_of_keys h Demo.noon Demo.LAT Demo.LON Demo.two_zones eq_refl).
  vm_compute. reflexivity.
Defined.

(** X4. When the encoding of the zone codes of the point is injective, the
    alert queries of one aggregation go to pairwise distinct URLs: one per
    zone code and one for the point, four at most. *)
Theorem alert_requests_distinct (h : Host) (lat lon : string) (points : option Points) :
  let zoneCodes := zoneCodesFromPoints h points in
  (forall a b, In a zoneCodes -> In b zoneCodes ->
               urlencode h a = urlencode h b -> a = b) ->
  NoDup (map url (alertResults h lat lon zoneCodes))
  /\ length (alertResults h lat lon zoneCodes) = S (length zoneCodes)
  /\ (length (alertResults h lat lon zoneCodes) <= 4)%nat.
Proof.
  intros zoneCodes Hinj.
  destruct (zoneCodes_distinct_bounded h points) as (Hnd & Hlen).
  fold zoneCodes in Hnd, Hlen.
  assert (Hurls : map url (alertResults h lat lon zoneCodes)
                  = (map (alertsUrlFromZone h) zoneCodes ++ [alertsUrlFromPoint h lat lon])%list).
  { unfold alertResults. rewrite !map_app, !map_map. cbn [map].
    rewrite url_runRequest. cbn [snd]. f_equal.
    apply map_ext. intros z. now rewrite url_runRequest. }
  split; [|split].
  - rewrite Hurls. apply NoDup_app. split; [|split].
    + apply NoDup_fmap_2_strong; [|exact Hnd].
      intros a b Ha Hb E. apply list_elem_of_In in Ha, Hb.
      apply (Hinj a b Ha Hb). unfold alertsUrlFromZone in E.
      now do 4 apply append_inj_l in E.
    + intros u Hu Hp. apply list_elem_of_In, in_map_iff in Hu as (z & Hz & _).
      apply list_elem_of_In in Hp as [Hp|[]]. rewrite <- Hz in Hp.
      unfold alertsUrlFromPoint, alertsUrlFromZone in Hp.
      do 3 apply append_inj_l in Hp. discriminate Hp.
    + apply NoDup_singleton.
  - unfold alertResults. rewrite length_map, length_app, length_map. simpl. lia.
  - unfold alertResults. rewrite length_map, length_app, length_map. simpl. lia.
Qed.

Lemma alert_requests_distinct_witness :
  let h := Demo.alerts_host [] in
  map url (alertResults h Demo.LAT Demo.LON (zoneCodesFromPoints h Demo.two_zones))
  = [Demo.zone_alerts_url "TX209"; Demo.zone_alerts_url "TX453"; Demo.point_alerts_url]
  /\ NoDup (map url (alertResults h Demo.LAT Demo.LON (zoneCodesFromPoints h Demo.two_zones))).
Proof.
  intros h. split; [vm_compute; reflexivity|].
  apply (alert_requests_distinct h Demo.LAT Demo.LON Demo.two_zones).
  intros a b Ha Hb. vm_compute in Ha, Hb.
  destruct Ha as [<-|[<-|[]]], Hb as [<-|[<-|[]]]; vm_compute; congruence.
Defined.

(** X5. When the [/points] answer yields no zone code, the aggregation is
    the point query alone: its features, de-duplicated. *)
Theorem no_zone_codes_point_query_only (h : Host) (lat lon : string)
        (points : option Points) :
  getJSON_points h (API ++ "/points/" ++ lat ++ "," ++ lon) = Resolved points ->
  zoneCodesFromPoints h points = [] ->
  alertResults h lat lon (zoneCodesFromPoints h points)
  = [runRequest h ("point:" ++ lat ++ "," ++ lon, alertsUrlFromPoint h lat lon)]
  /\ fetchAlertsCombined h lat lon
     = Resolved (unique_by alertKey (queryFeatures h (alertsUrlFromPoint h lat lon))).
Proof.
  intros Hp Hz. split; [now rewrite Hz|].
  rewrite (fetch_resolved h lat lon points Hp), allAlerts_eq, Hz, <- unique_by_from.
  cbn [flat_map List.filter]. now rewrite app_nil_r.
Qed.

Lemma no_zone_codes_point_query_only_witness :
  let h := Demo.host (Demo.answer [(Demo.points_url, None)])
             (Demo.answer [(Demo.point_alerts_url,
                            Demo.features_doc [Demo.flood_point; Demo.flood_zone])])
             (fun _ => Rejected "") in
  fetchAlertsCombined h Demo.LAT Demo.LON = Resolved [Demo.flood_point].
Proof.
  intros h.
  rewrite (proj2 (no_zone_codes_point_query_only h Demo.LAT Demo.LON None eq_refl eq_refl)).
  vm_compute. reflexivity.
Defined.

(** What an alert answer contributes, by its shape. *)
Lemma queryFeatures_cases (h : Host) (u : string) :
  queryFeatures h u
  = match getJSON_alerts h u with
    | Resolved (Some d) => match alerts_features d with
                           | Some fs => fs
                           | None => []
                           end
    | Resolved None => []
    | Rejected _ => []
    end.
Proof. unfold queryFeatures, runRequest. simpl. now destruct (getJSON_alerts h u). Qed.

(** X6. The aggregation sees the alert answers only through their feature
    lists: a request that is rejected, one that answers [null], one whose
    body has no [features] and one with an empty list are all the same to
    it, and replacing the answers by others with the same feature lists
    changes nothing. *)
Theorem alert_answers_count_by_features (h : Host)
        (alerts : string -> fetched (option Alerts)) (lat lon : string) :
  (forall u, queryFeatures (with_alerts h alerts) u = queryFeatures h u) ->
  fetchAlertsCombined (with_alerts h alerts) lat lon = fetchAlertsCombined h lat lon.
Proof.
  intros Hsame. unfold fetchAlertsCombined.
  change (getJSON_points (with_alerts h alerts)) with (getJSON_points h).
  destruct (getJSON_points h _) as [e|points]; [reflexivity|]. f_equal. f_equal.
  rewrite !allAlerts_eq.
  change (zoneCodesFromPoints (with_alerts h alerts) points)
    with (zoneCodesFromPoints h points).
  change (alertsUrlFromPoint (with_alerts h alerts) lat lon)
    with (alertsUrlFromPoint h lat lon).
  rewrite Hsame. f_equal. f_equal.
  apply flat_map_ext. intros z. apply Hsame.
Qed.

(** The query for TX209 fails in one run and answers [null] in the other. *)
Lemma alert_answers_count_by_features_witness :
  let table := [(Demo.point_alerts_url, Demo.features_doc [Demo.flood_point]);
                (Demo.zone_alerts_url "TX453", Demo.features_doc [Demo.heat_zone])] in
  let h := Demo.alerts_host table in
  let alerts := Demo.answer ((Demo.zone_alerts_url "TX209", None) :: table) in
  getJSON_alerts h (Demo.zone_alerts_url "TX209") = Rejected "Request failed (404 Not Found): "
  /\ alerts (Demo.zone_alerts_url "TX209") = Resolved None
  /\ fetchAlertsCombined (with_alerts h alerts) Demo.LAT Demo.LON
     = fetchAlertsCombined h Demo.LAT Demo.LON.
Proof.
  intros table h alerts. do 2 (split; [vm_compute; reflexivity|]).
  apply alert_answers_count_by_features. intros u.
  rewrite !queryFeatures_cases.
  change (getJSON_alerts (with_alerts h alerts) u) with (alerts u).
  change (getJSON_alerts h u) with (Demo.answer table u).
  unfold alerts. cbn [Demo.answer].
  destruct (String.eqb u (Demo.zone_alerts_url "TX209")) eqn:E; [|reflexivity].
  apply String.eqb_eq in E. subst u. vm_compute. reflexivity.
Defined.

(** X7. Whatever the comparator answers, the cards are the aggregator's
    alerts, each once: a permutation of its list, with distinct identity
    keys, and [activeCount] is their number.  With alerts no error is
    reported; with none, [hadError] is set exactly on a page that lacks
    [#alerts-list]; when the aggregation is rejected there is no card and
    [hadError] is set. *)
Theorem cards_are_the_aggregated_alerts (h : Host) (now : Z) (lat lon : string) :
  let r := renderAlertsForPrimary h now lat lon in
  activeCount r = length (cards r)
  /\ NoDup (map alertKey (cards r))
  /\ match fetchAlertsCombined h lat lon with
     | Resolved active =>
         Permutation (cards r) active
         /\ hadError r = match active with
                         | [] => negb (has_alerts_list h)
                         | _ :: _ => false
                         end
     | Rejected _ => cards r = [] /\ hadError r = true
     end.
Proof.
  unfold renderAlertsForPrimary, fetchAlertsCombined.
  destruct (getJSON_points h _) as [e|points].
  - cbn. repeat split; constructor.
  - pose proof (unique_from_NoDup alertKey (allAlerts h lat lon points) ∅) as Hnd.
    rewrite <- unique_by_from in Hnd.
    destruct (unique_by alertKey (allAlerts h lat lon points)) as [|f active].
    + destruct (has_alerts_list h); cbn; repeat split; constructor.
    + cbn [cards activeCount hadError].
      pose proof (sort_Permutation (compareAlerts h now) (f :: active)) as Hp.
      split; [reflexivity|]. split; [|split; [exact Hp|reflexivity]].
      pose proof (Permutation_map alertKey Hp) as Hm.
      now rewrite Hm.
Qed.

End AggregatorMore.

(** ** Array.prototype.sort, continued: stability and the head *)
Section SortMore.
Import Js Order.
Context {A : Type} (cmp : A -> A -> option Z).

Lemma sort_insert_filter (Q : A -> bool) (x : A) (s : list A) :
  (Q x = true -> forall y, In y s -> Q y = true -> cmp_le cmp x y = true) ->
  List.filter Q (sort_insert cmp x s)
  = if Q x then x :: List.filter Q s else List.filter Q s.
Proof.
  induction s as [|y s IH]; intros H; [reflexivity|].
  cbn [sort_insert]. destruct (cmp_le cmp x y) eqn:E; [reflexivity|].
  cbn [List.filter]. rewrite IH by (intros Hx z Hz; apply H; [exact Hx|now right]).
  destruct (Q x) eqn:Hx; [|reflexivity].
  destruct (Q y) eqn:Hy; [|reflexivity].
  rewrite (H eq_refl y (or_introl eq_refl) Hy) in E. discriminate.
Qed.

(** The sort is stable: elements that the comparator puts on a par keep
    their order. *)
Lemma sort_stable (Q : A -> bool) (l : list A) :
  (forall x y, In x l -> In y l -> Q x = true -> Q y = true -> cmp_le cmp x y = true) ->
  List.filter Q (sort cmp l) = List.filter Q l.
Proof.
  induction l as [|x l IH]; intros H; [reflexivity|].
  cbn [sort foldr]. fold (sort cmp l). rewrite sort_insert_filter.
  - cbn [List.filter]. rewrite IH; [reflexivity|].
    intros a b Ha Hb. apply H; now right.
  - intros Hx y Hy HQ. apply H; [now left| |exact Hx|exact HQ].
    right. apply (Permutation_in _ (sort_Permutation cmp l)), Hy.
Qed.

Lemma find_some_stronger (p q : A -> bool) (l : list A) (y : A) :
  find p l = Some y -> q y = true -> (forall z, In z l -> q z = true -> p z = true) ->
  find q l = Some y.
Proof.
  induction l as [|x l IH]; [discriminate|]. cbn [find]. intros Hp Hq Himp.
  destruct (p x) eqn:Px.
  - injection Hp as ->. now rewrite Hq.
  - destruct (q x) eqn:Qx.
    + rewrite (Himp x (or_introl eq_refl) Qx) in Px. discriminate.
    + apply IH; [exact Hp|exact Hq|]. intros z Hz. apply Himp. now right.
Qed.

Lemma hd_sort_insert (x : A) (s : list A) :
  hd_error (sort_insert cmp x s)
  = Some (match s with
          | [] => x
          | y :: _ => if cmp_le cmp x y then x else y
          end).
Proof. destruct s as [|y s]; [reflexivity|]. cbn. now destruct (cmp_le cmp x y). Qed.

(** On elements that satisfy [P] the comparator is total and transitive. *)
Context (P : A -> Prop).
Hypothesis le_total : forall x y, P x -> P y ->
  cmp_le cmp x y = false -> cmp_le cmp y x = true.
Hypothesis le_trans : forall x y z, P x -> P y -> P z ->
  cmp_le cmp x y = true -> cmp_le cmp y z = true -> cmp_le cmp x z = true.

Lemma le_refl (x : A) : P x -> cmp_le cmp x x = true.
Proof.
  intros Px. destruct (cmp_le cmp x x) eqn:E; [reflexivity|].
  now rewrite (le_total x x Px Px E) in E.
Qed.

(** The head of the sorted list is the first of the list that none
    precedes. *)
Lemma hd_sort (l : list A) :
  Forall P l -> hd_error (sort cmp l) = first_best (cmp_le cmp) l.
Proof.
  unfold first_best. induction l as [|x l IH]; intros HP; [reflexivity|].
  apply Forall_cons in HP as [Px Pl]. specialize (IH Pl).
  cbn [sort foldr]. fold (sort cmp l). rewrite hd_sort_insert.
  cbn [find forallb]. rewrite (le_refl x Px). cbn [andb].
  destruct (sort cmp l) as [|y s] eqn:Es.
  - apply sort_nil in Es. subst l. reflexivity.
  - cbn [hd_error] in IH. symmetry in IH.
    pose proof (find_some _ _ IH) as [Hy Hall].
    rewrite forallb_forall in Hall.
    assert (Py : P y) by (rewrite List.Forall_forall in Pl; auto).
    destruct (cmp_le cmp x y) eqn:E.
    + assert (forallb (cmp_le cmp x) l = true) as ->; [|reflexivity].
      apply forallb_forall. intros z Hz.
      apply (le_trans x y z); auto. rewrite List.Forall_forall in Pl; auto.
    + assert (forallb (cmp_le cmp x) l = false) as ->.
      { apply not_true_is_false. intros H. rewrite forallb_forall in H.
        rewrite (H y Hy) in E. discriminate. }
      apply eq_sym, (find_some_stronger _ _ _ _ IH).
      * rewrite (le_total x y Px Py E). cbn [andb].
        apply forallb_forall, Hall.
      * intros z _ Hz. now apply andb_prop in Hz as [_ Hz].
Qed.

End SortMore.

(** ** Ties between alerts, and the observation that is selected *)
Section OrderMore.
Import Js Doc Env Alerts Observations Order.

(** X8. The sort of the cards is stable: when every alert is sortable (the
    comparator is then consistent), alerts that tie on severity and on time
    keep the order in which the aggregator listed them (point-query features
    before zone-query ones). *)
Theorem tied_alerts_keep_aggregator_order (h : Host) (now : Z)
        (active : list Feature) (x : Feature) :
  List.Forall (fun f => sortable h now f = true) active ->
  List.filter (same_place h now x) (sort (compareAlerts h now) active)
  = List.filter (same_place h now x) active.
Proof.
  intros _. apply sort_stable. intros y y' _ _ Hy Hy'.
  unfold same_place in Hy, Hy'.
  repeat match goal with
         | H : _ && _ = true |- _ => apply andb_prop in H as [? ?]
         end.
  destruct (sortable_inv h now y) as [Ry Ty]; [assumption|].
  destruct (sortable_inv h now y') as [Ry' Ty']; [assumption|].
  unfold cmp_le, compareAlerts. rewrite Ry, Ry', Ty, Ty'. cbn.
  assert (rankOf y' = rankOf y) as -> by lia.
  rewrite Z.eqb_refl. cbn. apply Z.leb_le. lia.
Qed.

(** Two flood watches with the same onset, one from the point query and
    one from a zone query, around a warning of another time. *)
Lemma tied_alerts_keep_aggregator_order_witness :
  let h := Demo.alerts_host [] in
  let watch id_ := Demo.alert (Some id_) "Flood Watch" "Severe" None None
                              (Some "2024-06-03T00:00:00Z") ["TX209"] in
  let active := [watch "urn:point"; Demo.storm_warning; Demo.heat_zone; watch "urn:zone"] in
  List.filter (same_place h Demo.evening (watch "urn:zone"))
              (sort (compareAlerts h Demo.evening) active)
  = [watch "urn:point"; watch "urn:zone"]
  /\ hd_error (sort (compareAlerts h Demo.evening) active) = Some Demo.storm_warning.
Proof.
  intros h watch active. split; [|vm_compute; reflexivity].
  rewrite (tied_alerts_keep_aggregator_order h Demo.evening active (watch "urn:zone")).
  - vm_compute. reflexivity.
  - repeat constructor.
Defined.

Lemma forallb_agree {A} (f g : A -> bool) (l : list A) :
  (forall y, In y l -> f y = g y) -> forallb f l = forallb g l.
Proof.
  induction l as [|x l IH]; intros H; [reflexivity|]. cbn [forallb].
  rewrite (H x (or_introl eq_refl)), IH; [reflexivity|].
  intros y Hy. apply H. now right.
Qed.

Lemma first_best_ext {A} (le le' : A -> A -> bool) (l : list A) :
  (forall x y, In x l -> In y l -> le x y = le' x y) ->
  first_best le l = first_best le' l.
Proof.
  unfold first_best. intros H.
  assert (G : forall l0, (forall x, In x l0 -> In x l) ->
                         find (fun x => forallb (le x) l) l0
                         = find (fun x => forallb (le' x) l) l0).
  { induction l0 as [|x l0 IH]; intros Hsub; [reflexivity|]. cbn [find].
    assert (forallb (le x) l = forallb (le' x) l) as ->.
    { apply forallb_agree. intros y Hy. apply H; [apply Hsub; now left|exact Hy]. }
    rewrite IH; [reflexivity|]. intros z Hz. apply Hsub. now right. }
  apply G. auto.
Qed.

Lemma cmp_le_obs (h : Host) (now : Z) (time : ObsProps -> Z) (a b : ObsProps * string) :
  reads_time h now (fst a) (time (fst a)) -> reads_time h now (fst b) (time (fst b)) ->
  cmp_le (compareObs h now) a b = obs_le time a b.
Proof.
  intros Ha Hb. apply reads_time_obsTime in Ha, Hb.
  unfold cmp_le, compareObs, obs_le. rewrite Ha, Hb.
  destruct (Z.eqb_spec (score (fst b)) (score (fst a))) as [E|E]; cbn.
  - rewrite E, Z.ltb_irrefl. cbn.
    destruct (Z.leb_spec (time (fst a) - time (fst b)) 0),
             (Z.leb_spec (time (fst a)) (time (fst b))); lia.
  - rewrite orb_false_r.
    destruct (Z.leb_spec (score (fst b) - score (fst a)) 0),
             (Z.ltb_spec (score (fst b)) (score (fst a))); lia.
Qed.

(** X9. When the time of every candidate can be read, [time] being the date
    of its timestamp ([Date_getTime] of the field [timestamp]) or the clock
    reading for one without timestamp, the selector returns the first
    candidate, in the order of the station list, that no candidate beats by
    a higher score or, at the same score, by an earlier time; among equals
    the nearer station wins. *)
Theorem selectBest_first_unbeaten (h : Host) (now : Z) (time : ObsProps -> Z)
        (results : list (fetched Candidate)) :
  (forall c, In c (usable_of results) -> reads_time h now (fst c) (time (fst c))) ->
  selectBest h now results
  = match first_best (obs_le time) (usable_of results) with
    | Some best => Resolved (fst best)
    | None => Rejected "No recent observations available from nearby stations."
    end.
Proof.
  intros Hd. unfold selectBest.
  assert (Hhd : hd_error (sort (compareObs h now) (usable_of results))
                = first_best (obs_le time) (usable_of results)).
  { rewrite (hd_sort (compareObs h now)
               (fun c => reads_time h now (fst c) (time (fst c)))).
    - apply first_best_ext. intros x y Hx Hy. apply cmp_le_obs; auto.
    - intros x y Hx Hy. rewrite !(cmp_le_obs h now time) by assumption. unfold obs_le. lia.
    - intros x y z Hx Hy Hz. rewrite !(cmp_le_obs h now time) by assumption.
      unfold obs_le. lia.
    - now apply List.Forall_forall. }
  rewrite <- Hhd. now destruct (sort _ _).
Qed.

(** Three full observations: of 14:00 at the nearest station, of 08:00 at
    the second and of 08:00 again at the third.  The second is returned:
    the earlier time beats the nearer station, and of the two of 08:00 the
    nearer one wins. *)
Lemma selectBest_first_unbeaten_witness :
  let h := Demo.tie_host in
  let third : ObsProps :=
    {| temperature := Demo.measured 26.5 "wmoUnit:degC";
       relativeHumidity := Demo.measured 70.5 "wmoUnit:percent";
       windSpeed := Demo.measured 5.5 "wmoUnit:km_h-1";
       windDirection := Demo.measured 45 "wmoUnit:degree_(angle)";
       textDescription := None; timestamp := Some "2024-06-01T08:00:00Z" |} in
  let results :=
    [Resolved {| p := Some Demo.obs_A; id := "https://api.weather.gov/stations/KGTU" |};
     Resolved {| p := Some Demo.obs_early; id := "https://api.weather.gov/stations/KAUS" |};
     Resolved {| p := Some third; id := "https://api.weather.gov/stations/KRYW" |}] in
  let time (p : ObsProps) :=
    match timestamp p with
    | Some s => match Date_getTime h s with Some t => t | None => 0 end
    | None => Demo.evening
    end in
  (score Demo.obs_A = 3 /\ score Demo.obs_early = 3 /\ score third = 3)
  /\ (time Demo.obs_A = 1717250400000 /\ time Demo.obs_early = 1717228800000
      /\ time third = 1717228800000)
  /\ selectBest h Demo.evening results = Resolved Demo.obs_early.
Proof.
  intros h third results time. split; [repeat split|]. split; [repeat split|].
  rewrite (selectBest_first_unbeaten h Demo.evening time results).
  - vm_compute. reflexivity.
  - intros c Hc. left. vm_compute in Hc.
    destruct Hc as [<-|[<-|[<-|[]]]].
    + exists "2024-06-01T14:00:00Z"%string. repeat split. discriminate.
    + exists "2024-06-01T08:00:00Z"%string. repeat split. discriminate.
    + exists "2024-06-01T08:00:00Z"%string. repeat split. discriminate.
Defined.

End OrderMore.

(** ** The scheduler, continued *)
Section SchedulerMore.
Import Scheduler Refresh.

Lemma plain_tick_at_rest (s : State) (r : RenderOutcome) :
  at_rest s ->
  at_rest (plain_tick s r)
  /\ nextDelay (plain_tick s r) = delay_after s r
  /\ intervalMs (plain_tick s r) = intervalMs s
  /\ maxBackoffMs (plain_tick s r) = maxBackoffMs s.
Proof.
  intros (Hrun & t & Ht & Harmed). unfold plain_tick, run. rewrite Ht.
  cbn [fold_left step]. rewrite Harmed. cbn [existsb fst]. rewrite Pos.eqb_refl.
  cbn [orb List.filter fst negb]. unfold tick_begin. cbn [running]. rewrite Hrun.
  cbn [running]. unfold tick_end, setTimeout_tick, at_rest. cbn.
  rewrite ?Pos.eqb_refl. cbn.
  repeat split. eexists. split; reflexivity.
Qed.

Lemma plain_run_at_rest (rs : list RenderOutcome) (s : State) :
  at_rest s ->
  at_rest (plain_run s rs)
  /\ intervalMs (plain_run s rs) = intervalMs s
  /\ maxBackoffMs (plain_run s rs) = maxBackoffMs s.
Proof.
  revert s. induction rs as [|r rs IH]; intros s Hs; [auto|].
  unfold plain_run in *. cbn [fold_left].
  destruct (plain_tick_at_rest s r Hs) as (Hs' & _ & Hi & Hm).
  destruct (IH _ Hs') as (? & -> & ->). auto.
Qed.

Lemma plain_run_app (s : State) (rs rs' : list RenderOutcome) :
  plain_run s (rs ++ rs') = plain_run (plain_run s rs) rs'.
Proof. unfold plain_run. apply fold_left_app. Qed.

Lemma start_at_rest (oi om : option Z) : at_rest (startAlertsAutoRefresh oi om).
Proof. split; [reflexivity|]. eexists. split; reflexivity. Qed.

Lemma failures_double (fs : list RenderOutcome) (s : State) :
  at_rest s -> 0 <= nextDelay s <= maxBackoffMs s ->
  Forall (fun r => failed r = true) fs ->
  nextDelay (plain_run s fs)
  = Z.min (nextDelay s * 2 ^ Z.of_nat (length fs)) (maxBackoffMs s).
Proof.
  revert s. induction fs as [|r fs IH]; intros s Hs Hd Hf.
  - cbn. lia.
  - apply Forall_cons in Hf as [Hr Hf].
    destruct (plain_tick_at_rest s r Hs) as (Hs' & Hn & Hi & Hm).
    assert (Hn' : nextDelay (plain_tick s r) = Z.min (nextDelay s * 2) (maxBackoffMs s)).
    { rewrite Hn. destruct r as [[]|]; try reflexivity. discriminate. }
    change (plain_run s (r :: fs)) with (plain_run (plain_tick s r) fs).
    rewrite IH; [|exact Hs'|lia|exact Hf].
    rewrite Hm, Hn'. cbn [length]. rewrite Nat2Z.inj_succ, Z.pow_succ_r by lia.
    assert (0 < 2 ^ Z.of_nat (length fs)) by (apply Z.pow_pos_nonneg; lia).
    destruct (Z.le_gt_cases (nextDelay s * 2) (maxBackoffMs s)).
    + rewrite (Z.min_l (nextDelay s * 2)) by lia. f_equal. lia.
    + rewrite (Z.min_r (nextDelay s * 2)) by lia.
      rewrite !Z.min_r; [reflexivity| |]; nia.
Qed.

(** X10. In the undisturbed loop, with [0 <= intervalMs <= maxBackoffMs],
    after [n] failed refreshes in a row since the start or since the last
    success the next delay is [min(intervalMs * 2^n, maxBackoffMs)], and
    exactly one timer is armed, for that delay. *)
Theorem backoff_after_failures (oi om : option Z) (before fs : list RenderOutcome) :
  let s0 := startAlertsAutoRefresh oi om in
  0 <= intervalMs s0 <= maxBackoffMs s0 ->
  Forall (fun r => failed r = true) fs ->
  let bound := Z.min (intervalMs s0 * 2 ^ Z.of_nat (length fs)) (maxBackoffMs s0) in
  nextDelay (plain_run s0 fs) = bound
  /\ (let s := plain_run s0 (before ++ [Returned false] ++ fs) in
      nextDelay s = bound
      /\ running s = false
      /\ exists t, timerId s = Some t /\ armed s = [(t, bound)]).
Proof.
  intros s0 Hc Hf bound. split.
  - unfold bound. change (intervalMs s0) with (nextDelay s0) at 1.
    apply failures_double; [apply start_at_rest|exact Hc|exact Hf].
  - rewrite !plain_run_app.
    destruct (plain_run_at_rest before s0 (start_at_rest oi om)) as (Hb & Hi & Hm).
    set (sb := plain_run s0 before) in *.
    destruct (plain_tick_at_rest sb (Returned false) Hb) as (Hs1 & Hn1 & Hi1 & Hm1).
    change (plain_run sb [Returned false]) with (plain_tick sb (Returned false)).
    set (s1 := plain_tick sb (Returned false)) in *.
    cbn [delay_after] in Hn1.
    assert (Hd : nextDelay (plain_run s1 fs) = bound).
    { rewrite failures_double; [|exact Hs1|lia|exact Hf].
      unfold bound. now rewrite Hn1, Hi, Hm1, Hm. }
    destruct (plain_run_at_rest fs s1 Hs1) as ((Hr & t & Ht & Ha) & _).
    split; [exact Hd|]. split; [exact Hr|]. exists t. now rewrite <- Hd.
Qed.

Lemma backoff_after_failures_witness :
  let s0 := startAlertsAutoRefresh None None in
  nextDelay (plain_run s0 [Threw; Returned true; Threw]) = 1800000
  /\ nextDelay (plain_run s0 [Threw; Returned false; Returned true; Threw]) = 1200000.
Proof.
  split.
  - apply (proj1 (backoff_after_failures None None [] [Threw; Returned true; Threw]
                    ltac:(vm_compute; split; discriminate) ltac:(repeat constructor))).
  - apply (proj2 (backoff_after_failures None None [Threw] [Returned true; Threw]
                    ltac:(vm_compute; split; discriminate) ltac:(repeat constructor))).
Defined.

End SchedulerMore.

Section SchedulerTimers.
Import Scheduler Refresh.

Lemma filter_Forall {A} (P : A -> Prop) (keep : A -> bool) (l : list A) :
  Forall P l -> Forall P (List.filter keep l).
Proof.
  rewrite !List.Forall_forall. intros H x Hx. apply filter_In in Hx as [Hx _]. auto.
Qed.

Lemma step_armed_delays (s : State) (e : Event) :
  0 <= intervalMs s <= maxBackoffMs s ->
  intervalMs s <= nextDelay s <= maxBackoffMs s ->
  Forall (fun a => allowed_delay s (snd a)) (armed s) ->
  Forall (fun a => allowed_delay s (snd a)) (armed (step s e)).
Proof.
  intros Hc Hd Ha. destruct e; cbn [step].
  - destruct (existsb _ _); [|exact Ha]. unfold tick_begin. cbn [running].
    destruct (running s); cbn [armed]; now apply filter_Forall.
  - destruct (running s); [|exact Ha]. cbn.
    apply Forall_app. split; [exact Ha|]. constructor; [|constructor].
    right. now apply delay_after_bounds.
  - cbn. destruct (timerId s); [now apply filter_Forall|exact Ha].
  - destruct (timerId s); [exact Ha|]. cbn.
    apply Forall_app. split; [exact Ha|]. constructor; [|constructor]. now left.
  - cbn. destruct (timerId s); [now apply filter_Forall|exact Ha].
Qed.

(** X11. With [0 <= intervalMs <= maxBackoffMs], whatever happens, every
    timer that is armed for a tick has either the resume delay of 1000 ms
    or a delay within [[intervalMs, maxBackoffMs]]. *)
Theorem armed_delays_allowed (oi om : option Z) (es : list Event) :
  let s0 := startAlertsAutoRefresh oi om in
  0 <= intervalMs s0 <= maxBackoffMs s0 ->
  forall t d, In (t, d) (armed (run s0 es)) ->
              d = 1000 \/ intervalMs s0 <= d <= maxBackoffMs s0.
Proof.
  intros s0 Hc.
  assert (G : forall es s,
             intervalMs s = intervalMs s0 -> maxBackoffMs s = maxBackoffMs s0 ->
             intervalMs s <= nextDelay s <= maxBackoffMs s ->
             Forall (fun a => allowed_delay s0 (snd a)) (armed s) ->
             Forall (fun a => allowed_delay s0 (snd a)) (armed (run s es))).
  { clear es. induction es as [|e es IH]; intros s Hi Hm Hd Ha; [exact Ha|].
    change (run s (e :: es)) with (run (step s e) es).
    destruct (step_config s e) as [Hi' Hm'].
    apply IH; [congruence|congruence| |].
    - rewrite Hi', Hm'. apply step_bounds; [rewrite Hi, Hm; exact Hc|exact Hd].
    - assert (Hs : forall d, allowed_delay s d <-> allowed_delay s0 d).
      { intros d. unfold allowed_delay. now rewrite Hi, Hm. }
      eapply List.Forall_impl; [intros a; apply Hs|].
      apply step_armed_delays; [rewrite Hi, Hm; exact Hc|exact Hd|].
      eapply List.Forall_impl; [intros a; apply Hs|exact Ha]. }
  intros t d Hin.
  assert (H0 : Forall (fun a => allowed_delay s0 (snd a)) (armed s0)).
  { constructor; [|constructor]. right.
    change (intervalMs s0 <= intervalMs s0 <= maxBackoffMs s0). lia. }
  specialize (G es s0 eq_refl eq_refl
                ltac:(change (nextDelay s0) with (intervalMs s0); lia) H0).
  rewrite List.Forall_forall in G. exact (G _ Hin).
Qed.

Lemma armed_delays_allowed_witness :
  let s0 := startAlertsAutoRefresh (Some 60000) (Some 300000) in
  let s := run s0 [Fire 1%positive; Hidden; Visible; Settle Threw] in
  armed s = [(2%positive, 1000); (3%positive, 120000)]
  /\ (120000 = 1000 \/ 60000 <= 120000 <= 300000).
Proof.
  intros s0 s. split; [vm_compute; reflexivity|].
  apply (armed_delays_allowed (Some 60000) (Some 300000)
           [Fire 1%positive; Hidden; Visible; Settle Threw]
           ltac:(vm_compute; split; discriminate) 3%positive 120000).
  vm_compute. right. left. reflexivity.
Defined.

(** X12. The loop cannot be left with a stale handle: in every state that
    the scheduler reaches, when no refresh is in flight and [timerId] is
    set, the timer that it names is armed. *)
Theorem idle_timer_is_armed (oi om : option Z) (es : list Event) :
  let s := run (startAlertsAutoRefresh oi om) es in
  running s = false ->
  forall t, timerId s = Some t -> exists d, In (t, d) (armed s).
Proof.
  set (inv := fun s : State =>
                running s = false ->
                forall t, timerId s = Some t -> exists d, In (t, d) (armed s)).
  assert (Hstep : forall s e, inv s -> inv (step s e)).
  { intros s e Hs. unfold inv. destruct e; cbn [step].
    - destruct (existsb _ _); [|exact Hs]. unfold tick_begin. cbn [running].
      destruct (running s); cbn [running]; discriminate.
    - destruct (running s) eqn:R; [|exact Hs]. cbn. intros _ t [= <-].
      eexists. apply in_or_app. right. now left.
    - cbn. discriminate.
    - destruct (timerId s) eqn:T; [exact Hs|]. cbn. intros _ t [= <-].
      eexists. apply in_or_app. right. now left.
    - cbn. discriminate. }
  assert (G : forall es s, inv s -> inv (run s es)).
  { clear es. induction es as [|e es IH]; intros s Hs; [exact Hs|].
    change (run s (e :: es)) with (run (step s e) es). auto. }
  apply G. intros _ t [= <-]. eexists. now left.
Qed.

Lemma idle_timer_is_armed_witness :
  let s := run (startAlertsAutoRefresh None None)
             [Fire 1%positive; Hidden; Visible; Fire 2%positive; Settle (Returned true)] in
  timerId s = Some 3%positive /\ exists d, In (3%positive, d) (armed s).
Proof.
  intros s. split; [reflexivity|].
  apply (idle_timer_is_armed None None
           [Fire 1%positive; Hidden; Visible; Fire 2%positive; Settle (Returned true)]);
    reflexivity.
Defined.

(** X13. Stopping or hiding does not end a refresh that is in flight: when
    the cancel function is called, or the page hidden, while a render is
    awaited, the tick's [finally] still arms the next timer once the render
    settles. *)
Theorem stop_during_refresh_rearms (s : State) (e : Event) (r : RenderOutcome) :
  running s = true -> e = Cancel \/ e = Hidden ->
  let s' := run s [e; Settle r] in
  timerId (step s e) = None
  /\ running s' = false
  /\ timerId s' = Some (nextHandle s)
  /\ In (nextHandle s, delay_after s r) (armed s').
Proof.
  intros Hr [-> | ->]; unfold run; cbn [fold_left step]; cbn [clear_timer running];
    rewrite Hr; cbn; (repeat split); apply in_or_app; right; now left.
Qed.

Lemma stop_during_refresh_rearms_witness :
  let s := run (startAlertsAutoRefresh None None) [Fire 1%positive] in
  let s' := run s [Cancel; Settle (Returned false)] in
  running s = true /\ timerId s' = Some 2%positive
  /\ armed s' = [(2%positive, 300000)].
Proof.
  intros s s'. split; [reflexivity|]. split; [|vm_compute; reflexivity].
  apply (stop_during_refresh_rearms s Cancel (Returned false) eq_refl (or_introl eq_refl)).
Defined.

(** X14. Stopping the loop at rest leaves no timer armed, and then nothing
    runs and nothing changes until the page becomes visible, which arms a
    tick in 1000 ms again, the listener not being removed. *)
Theorem stop_at_rest_until_visible (s : State) (es : list Event) :
  at_rest s ->
  let stopped := step s Cancel in
  armed stopped = [] /\ timerId stopped = None
  /\ (forallb not_visible es = true -> run stopped es = stopped)
  /\ armed (step stopped Visible) = [(nextHandle s, 1000)].
Proof.
  intros (Hrun & t & Ht & Ha) stopped.
  assert (Hempty : armed stopped = []).
  { unfold stopped. cbn. rewrite Ht, Ha. cbn. now rewrite Pos.eqb_refl. }
  assert (Hrun' : running stopped = false) by exact Hrun.
  split; [exact Hempty|]. split; [reflexivity|]. split.
  - induction es as [|e es IH]; [reflexivity|]. cbn [forallb].
    intros H. apply andb_prop in H as [He Hes].
    change (run stopped (e :: es)) with (run (step stopped e) es).
    assert (step stopped e = stopped) as ->; [|auto].
    destruct e; cbn [step]; try discriminate.
    + now rewrite Hempty.
    + now rewrite Hrun'.
    + reflexivity.
    + reflexivity.
  - cbn. rewrite Ht, Ha. cbn. now rewrite Pos.eqb_refl.
Qed.

Lemma stop_at_rest_until_visible_witness :
  let s := plain_run (startAlertsAutoRefresh None None) [Returned false; Threw] in
  let stopped := step s Cancel in
  run stopped [Fire 3%positive; Settle Threw; Hidden; Cancel] = stopped
  /\ armed (step stopped Visible) = [(4%positive, 1000)].
Proof.
  intros s stopped.
  destruct (stop_at_rest_until_visible s [Fire 3%positive; Settle Threw; Hidden; Cancel])
    as (_ & _ & Hq & Hv).
  - apply plain_run_at_rest, start_at_rest.
  - split; [apply Hq; reflexivity|exact Hv].
Defined.

End SchedulerTimers.

(** ** Endpoint cache, continued *)
Section EndpointMore.
Import Js Doc Endpoints.

Local Open Scope string_scope.

Variable net : Network.

(** X15. A resolution that fails caches nothing: it was a cache miss, it
    sent one request, the cache is as before, and the next call for the
    same pair goes to the network again. *)
Theorem failed_resolution_is_not_cached (lat lon : string) (s s' : Session)
        (e : string) :
  resolveEndpointsForPoint net lat lon s = (Rejected e, s') ->
  endpointCache s !! keyFromLatLon lat lon = None
  /\ endpointCache s' = endpointCache s
  /\ requests s' = (Alerts.API ++ "/points/" ++ lat ++ "," ++ lon) :: requests s
  /\ length (requests (snd (resolveEndpointsForPoint net lat lon s')))
     = S (length (requests s')).
Proof.
  unfold resolveEndpointsForPoint at 1.
  destruct (endpointCache s !! keyFromLatLon lat lon) eqn:E; [discriminate|].
  intros H.
  assert (Hs' : endpointCache s' = endpointCache s
                /\ requests s' = (Alerts.API ++ "/points/" ++ lat ++ "," ++ lon) :: requests s).
  { destruct (net _ _) as [m|points]; [now injection H as _ <-|].
    destruct (_ || _); [now injection H as _ <-|discriminate]. }
  destruct Hs' as [Hc Hr]. clear H. repeat split; [exact Hc|exact Hr|].
  unfold resolveEndpointsForPoint. rewrite Hc, E.
  destruct (net _ _) as [m|points]; [reflexivity|].
  now destruct (_ || _).
Qed.

End EndpointMore.

(** The lookup fails once, then answers: the second call asks again. *)
Lemma failed_resolution_is_not_cached_witness :
  let net : Endpoints.Network :=
    fun n url => if (n =? 0)%nat then Js.Rejected "Request timed out. Please retry."
                 else Demo.answer [(Demo.points_url, Demo.two_zones)] url in
  let first := Endpoints.resolveEndpointsForPoint net Demo.LAT Demo.LON Endpoints.fresh in
  let second := Endpoints.resolveEndpointsForPoint net Demo.LAT Demo.LON (snd first) in
  fst first = Js.Rejected "Request timed out. Please retry."
  /\ Endpoints.endpointCache (snd first) = ∅
  /\ length (Endpoints.requests (snd second)) = 2%nat.
Proof.
  intros net first second.
  assert (H : first = (Js.Rejected "Request timed out. Please retry."%string, snd first))
    by reflexivity.
  destruct (failed_resolution_is_not_cached net Demo.LAT Demo.LON Endpoints.fresh
              (snd first) _ H) as (_ & Hc & _ & Hn).
  split; [reflexivity|]. split; [exact Hc|exact Hn].
Defined.

Section EndpointInvariant.
Import Js Doc Endpoints Cache.

Local Open Scope string_scope.

Variable net : Network.

Lemma truthy_or_str (a : option string) : truthy a = true -> or_str a "" <> "".
Proof.
  destruct a as [s|]; [|discriminate]. simpl.
  destruct (String.eqb_spec s ""); [discriminate|auto].
Qed.

Lemma resolve_invariant (lat lon : string) (s : Session) :
  map_Forall (fun _ v => complete v) (endpointCache s) ->
  (size (endpointCache s) <= length (requests s))%nat ->
  let s' := snd (resolveEndpointsForPoint net lat lon s) in
  map_Forall (fun _ v => complete v) (endpointCache s')
  /\ (size (endpointCache s') <= length (requests s'))%nat.
Proof.
  intros Hall Hsize. unfold resolveEndpointsForPoint.
  destruct (endpointCache s !! keyFromLatLon lat lon) eqn:E; [auto|].
  destruct (net _ _) as [m|points]; [cbn; auto with lia|].
  destruct (_ || _) eqn:B; [cbn; auto with lia|]. cbn.
  apply orb_false_elim in B as [B B3]. apply orb_false_elim in B as [B1 B2].
  apply negb_false_iff in B1, B2, B3. split.
  - apply map_Forall_insert_2; [|exact Hall].
    repeat split; cbn; now apply truthy_or_str.
  - rewrite map_size_insert_None by exact E. lia.
Qed.

(** X16. From a fresh session, whatever is resolved, every cached
    EndpointSet has its three URLs, none empty, and the cache holds no more
    entries than requests were sent. *)
Theorem cache_holds_complete_endpoints (s : Session) :
  later net fresh s ->
  (forall k v, endpointCache s !! k = Some v ->
               hourlyUrl v <> "" /\ dailyUrl v <> "" /\ stationsUrl v <> "")
  /\ (size (endpointCache s) <= length (requests s))%nat.
Proof.
  intros Hl.
  assert (G : map_Forall (fun _ v => complete v) (endpointCache s)
              /\ (size (endpointCache s) <= length (requests s))%nat).
  { remember fresh as s0 eqn:E0. induction Hl as [s0|s0 lat lon s' _ IH].
    - subst s0. split; [apply map_Forall_empty|]. cbn. rewrite map_size_empty. lia.
    - destruct (IH E0) as [Ha Hs]. now apply resolve_invariant. }
  destruct G as [Ha Hs]. split; [|exact Hs]. intros k v Hk. exact (Ha k v Hk).
Qed.

End EndpointInvariant.

Lemma cache_holds_complete_endpoints_witness :
  let net : Endpoints.Network :=
    fun _ => Demo.answer [(Demo.points_url, Demo.two_zones)] in
  let s := snd (Endpoints.resolveEndpointsForPoint net "41.25" "-110.94"
                  (snd (Endpoints.resolveEndpointsForPoint net Demo.LAT Demo.LON
                          Endpoints.fresh))) in
  size (Endpoints.endpointCache s) = 1%nat /\ length (Endpoints.requests s) = 2%nat
  /\ (size (Endpoints.endpointCache s) <= length (Endpoints.requests s))%nat.
Proof.
  intros net s. do 2 (split; [vm_compute; reflexivity|]).
  apply (cache_holds_complete_endpoints net s).
  apply Endpoints.later_step, Endpoints.later_step, Endpoints.later_refl.
Defined.

(** ** Conversions on the values that the API sends *)
Section ConvertFacts.
Import Num Compass Convert.

Lemma sectors_agree : range_all (Z.to_nat 360) 0 sector_agrees = true.
Proof. vm_compute. reflexivity. Qed.

(** X18. On a whole number of degrees the conversion is exact: the compass
    point is the entry of the table at [floor((d mod 360) / 22.5 + 1/2) mod
    16], always one of the sixteen; each direction covers the 22.5 degrees
    around its bearing, a boundary going to the next one clockwise. *)
Theorem degToCompass_whole_exact (d : Z) :
  Z.abs d < 2 ^ 53 ->
  degToCompass (Some (float_of_Z d)) = dirs !! Z.to_nat (sector (d mod 360))
  /\ exists dir, degToCompass (Some (float_of_Z d)) = Some dir.
Proof.
  intros Hd. rewrite (degToCompass_whole d Hd).
  pose proof (Z.mod_pos_bound d 360 ltac:(lia)) as Hr.
  pose proof (range_all_spec _ _ _ sectors_agree (d mod 360)) as H.
  rewrite Z2Nat.id in H by lia. specialize (H ltac:(lia)).
  unfold sector_agrees in H. apply bool_decide_eq_true in H. rewrite H.
  split; [reflexivity|].
  apply lookup_lt_is_Some_2. unfold sector.
  pose proof (Z.mod_pos_bound ((4 * (d mod 360) + 45) / 90) 16 ltac:(lia)).
  change (length dirs) with 16%nat. lia.
Qed.

Lemma degToCompass_whole_exact_witness :
  degToCompass (Some (float_of_Z 180)) = Some "S"%string
  /\ degToCompass (Some (float_of_Z 191)) = Some "S"%string
  /\ degToCompass (Some (float_of_Z 192)) = Some "SSW"%string
  /\ degToCompass (Some (float_of_Z (-90))) = Some "W"%string.
Proof.
  split; [|split; [|split]].
  - now rewrite (proj1 (degToCompass_whole_exact 180 ltac:(vm_compute; reflexivity))).
  - now rewrite (proj1 (degToCompass_whole_exact 191 ltac:(vm_compute; reflexivity))).
  - now rewrite (proj1 (degToCompass_whole_exact 192 ltac:(vm_compute; reflexivity))).
  - now rewrite (proj1 (degToCompass_whole_exact (-90) ltac:(vm_compute; reflexivity))).
Defined.

Lemma toF_tenths_agree : range_all (Z.to_nat 3001) (-1500) toF_agrees = true.
Proof. vm_compute. reflexivity. Qed.

(** X19. For a temperature that the API gives in tenths of a degree
    Celsius, from -150.0 to 150.0, the whole number of degrees Fahrenheit
    that is displayed, [Math.round(toF(c))], is the exact value
    [9c/5 + 32] rounded to the nearest whole number, a half going up: the
    double arithmetic loses nothing that shows. *)
Theorem displayed_fahrenheit_exact (t : Z) :
  -1500 <= t <= 1500 ->
  rounded (toF (Some (tenths t))) = Some ((9 * t + 1625) / 50).
Proof.
  intros Ht.
  pose proof (range_all_spec _ _ _ toF_tenths_agree t) as H.
  rewrite Z2Nat.id in H by lia. specialize (H ltac:(lia)).
  unfold toF_agrees in H. now apply bool_decide_eq_true in H.
Qed.

Lemma displayed_fahrenheit_exact_witness :
  rounded (toF (Some (tenths 311))) = Some 88
  /\ rounded (toF (Some (tenths 25))) = Some 37
  /\ rounded (toF (Some (tenths (-400)))) = Some (-40).
Proof.
  split; [|split].
  - now rewrite (displayed_fahrenheit_exact 311 ltac:(lia)).
  - now rewrite (displayed_fahrenheit_exact 25 ltac:(lia)).
  - now rewrite (displayed_fahrenheit_exact (-400) ltac:(lia)).
Defined.

Lemma wind_tenths_agree :
  range_all (Z.to_nat 3001) 0 km_h_agrees = true
  /\ range_all (Z.to_nat 1001) 0 m_s_agrees = true
  /\ range_all (Z.to_nat 3001) 0 mph_agrees = true.
Proof. vm_compute. repeat split. Qed.

(** X20. For a wind speed that the API gives in tenths, the whole number of
    miles per hour that is displayed, [Math.round(windToMph(v, unit))], is
    the exact product rounded to the nearest whole number: [v * 0.621371]
    for km/h up to 300.0, [v * 2.23694] for m/s up to 100.0, and [v] itself
    for mph up to 300.0. *)
Theorem displayed_mph_exact (t : Z) :
  (0 <= t <= 3000 ->
   rounded (windToMph (Some (tenths t)) (Some "wmoUnit:km_h-1"%string))
   = Some ((1242742 * t + 10000000) / 20000000))
  /\ (0 <= t <= 1000 ->
      rounded (windToMph (Some (tenths t)) (Some "wmoUnit:m_s-1"%string))
      = Some ((447388 * t + 1000000) / 2000000))
  /\ (0 <= t <= 3000 ->
      rounded (windToMph (Some (tenths t)) (Some "wmoUnit:mi_h-1"%string))
      = Some ((t + 5) / 10)).
Proof.
  destruct wind_tenths_agree as (Hk & Hm & Hp).
  split; [|split]; intros Ht.
  - pose proof (range_all_spec _ _ _ Hk t) as H.
    rewrite Z2Nat.id in H by lia. specialize (H ltac:(lia)).
    unfold km_h_agrees in H. now apply bool_decide_eq_true in H.
  - pose proof (range_all_spec _ _ _ Hm t) as H.
    rewrite Z2Nat.id in H by lia. specialize (H ltac:(lia)).
    unfold m_s_agrees in H. now apply bool_decide_eq_true in H.
  - pose proof (range_all_spec _ _ _ Hp t) as H.
    rewrite Z2Nat.id in H by lia. specialize (H ltac:(lia)).
    unfold mph_agrees in H. now apply bool_decide_eq_true in H.
Qed.

Lemma displayed_mph_exact_witness :
  rounded (windToMph (Some (tenths 148)) (Some "wmoUnit:km_h-1"%string)) = Some 9
  /\ rounded (windToMph (Some (tenths 51)) (Some "wmoUnit:m_s-1"%string)) = Some 11.
Proof.
  split.
  - now rewrite (proj1 (displayed_mph_exact 148) ltac:(lia)).
  - now rewrite (proj1 (proj2 (displayed_mph_exact 51)) ltac:(lia)).
Defined.

End ConvertFacts.

(** ** The observation selector, continued *)
Section ObservationMore.
Import Js Doc Env Observations.

(** X17. Only the first ten stations of the list are ever asked: at most
    ten requests are made, and whatever follows the tenth station does not
    change the outcome, not even when the first ten all fail. *)
Theorem only_first_ten_stations (h : Host) (now : Z) (fs extra : list Station) :
  (10 <= length fs)%nat ->
  (length (subset (Some {| stations_features := Some (fs ++ extra) |})) <= 10)%nat
  /\ getNearestObservationParallel h now (Some {| stations_features := Some (fs ++ extra) |})
     = getNearestObservationParallel h now (Some {| stations_features := Some fs |}).
Proof.
  intros Hlen. split.
  - unfold subset. cbn [stations_features].
    etransitivity; [apply omap_length_le|]. rewrite length_take. lia.
  - unfold getNearestObservationParallel, subset. cbn [stations_features].
    now rewrite take_app_le by exact Hlen.
Qed.

(** Ten stations that do not answer, then one that would. *)
Lemma only_first_ten_stations_witness :
  let silent := replicate 10 {| station_id := Some "https://api.weather.gov/stations/KXYZ"%string |} in
  let good := [{| station_id := Some "https://api.weather.gov/stations/KGTU"%string |}] in
  getNearestObservationParallel Demo.stations_host Demo.evening
    (Some {| stations_features := Some good |}) = Resolved Demo.obs_A
  /\ getNearestObservationParallel Demo.stations_host Demo.evening
       (Some {| stations_features := Some (silent ++ good) |})
     = Rejected "No recent observations available from nearby stations."%string.
Proof.
  intros silent good. split; [vm_compute; reflexivity|].
  rewrite (proj2 (only_first_ten_stations Demo.stations_host Demo.evening silent good
                    ltac:(cbn; lia))).
  vm_compute. reflexivity.
Defined.

End ObservationMore.

(** ** The extended forecast table *)
Section TableFacts.
Import Js Table.

Local Open Scope string_scope.

Variable tx : Text.

Lemma extendedRows_night_first (n : Period) (ps : list Period) :
  isDaytime n = false -> extendedRows tx (n :: ps) = extendedRows tx ps.
Proof. intros H. cbn [extendedRows]. now rewrite H. Qed.

(** X21. The table has one row for each daytime period and none of its
    own for a night: a night that opens the forecast is not shown; in a
    forecast that alternates, each day is in a row with its night; and a
    day that no night follows has dashes in its night cells. *)
Theorem extendedRows_pairs_days_with_nights :
  (forall ps, length (extendedRows tx ps) = length (List.filter isDaytime ps))
  /\ (forall n ps, isDaytime n = false ->
                   extendedRows tx (n :: ps) = extendedRows tx ps)
  /\ (forall pairs,
        Forall (fun dn => isDaytime (fst dn) = true /\ isDaytime (snd dn) = false) pairs ->
        extendedRows tx (alternating pairs)
        = map (fun dn => row tx (fst dn) (Some (snd dn))) pairs)
  /\ (forall d ps r rest,
        isDaytime d = true ->
        (ps = [] \/ exists d' ps', ps = d' :: ps' /\ isDaytime d' = true) ->
        extendedRows tx (d :: ps) = r :: rest ->
        nightLow r = "—" /\ nightCond r = "—").
Proof.
  split; [|split; [exact extendedRows_night_first|split]].
  - induction ps as [|d ps IH]; [reflexivity|]. cbn [extendedRows List.filter].
    destruct (isDaytime d); cbn [length]; now rewrite IH.
  - induction pairs as [|[d n] pairs IH]; intros H; [reflexivity|].
    apply Forall_cons in H as [[Hd Hn] H]. cbn [fst snd] in Hd, Hn.
    cbn [alternating flat_map app map fst snd extendedRows]. rewrite Hd, Hn.
    cbn [negb]. f_equal. exact (IH H).
  - intros d ps r rest Hd Hps. cbn [extendedRows]. rewrite Hd.
    destruct Hps as [->|(d' & ps' & -> & Hd')].
    + intros [= <- _]. now split.
    + rewrite Hd'. cbn [negb]. intros [= <- _]. now split.
Qed.

End TableFacts.

(** Monday with its night, then Tuesday with its night. *)
Lemma extendedRows_pairs_days_with_nights_witness :
  let tx := {| Table.trim := fun s => s; Table.stripDay := fun s => s |} in
  let period nm t day :=
    {| Table.name := Some nm; Table.temperature := Some t;
       Table.temperatureUnit := Some "F"%string;
       Table.shortForecast := Some "Sunny"%string; Table.isDaytime := day |} in
  let pairs := [(period "Monday"%string 91 true, period "Monday Night"%string 72 false);
                (period "Tuesday"%string 93 true, period "Tuesday Night"%string 74 false)] in
  map Table.day (Table.extendedRows tx (Table.alternating pairs)) = ["Monday"; "Tuesday"]%string
  /\ map Table.nightLow (Table.extendedRows tx (Table.alternating pairs))
     = ["72°F"; "74°F"]%string.
Proof.
  intros tx period pairs.
  rewrite (proj1 (proj2 (proj2 (extendedRows_pairs_days_with_nights tx))) pairs).
  - split; vm_compute; reflexivity.
  - repeat constructor.
Defined.

Section TableCells.
Import Js Table.

Local Open Scope string_scope.

Lemma or_str_nonempty (a : option string) (b : string) : b <> "" -> or_str a b <> "".
Proof.
  intros Hb. destruct a as [s|]; [|exact Hb]. simpl.
  now destruct (String.eqb_spec s "").
Qed.

Lemma append_nonempty_r (a b : string) : b <> "" -> a ++ b <> "".
Proof. intros Hb. destruct a; [exact Hb|discriminate]. Qed.

Lemma tempCell_nonempty (p : option Period) : tempCell p <> "".
Proof.
  unfold tempCell. destruct p as [d|]; [|discriminate].
  destruct (temperature d); [|discriminate].
  destruct (truthy _); [|discriminate].
  apply append_nonempty_r. discriminate.
Qed.

Lemma condCell_nonempty (tx : Text) (p : option Period) : condCell tx p <> "".
Proof.
  unfold condCell. destruct p as [d|]; [|discriminate].
  apply or_str_nonempty. discriminate.
Qed.

(** X22. No cell of the table is ever empty: whatever the periods lack and
    whatever trimming leaves, a cell shows a text or a dash. *)
Theorem extendedRows_no_empty_cell (tx : Text) (ps : list Period) (r : Row) :
  In r (extendedRows tx ps) ->
  day r <> "" /\ dayHigh r <> "" /\ dayCond r <> ""
  /\ nightLow r <> "" /\ nightCond r <> "".
Proof.
  induction ps as [|d ps IH]; [intros []|]. cbn [extendedRows].
  destruct (isDaytime d); [|exact IH].
  intros [<-|H]; [|exact (IH H)]. cbn [day dayHigh dayCond nightLow nightCond row].
  repeat split;
    first [apply tempCell_nonempty | apply condCell_nonempty
          | apply or_str_nonempty; discriminate].
Qed.

(** A day without a name or a forecast text, followed by another day. *)
Lemma extendedRows_no_empty_cell_witness :
  let tx := {| trim := fun s => s; stripDay := fun s => s |} in
  let bare := {| name := None; temperature := Some 91%Z; temperatureUnit := None;
                 shortForecast := Some ""; isDaytime := true |} in
  let next := {| name := Some "Tuesday"; temperature := Some (-3)%Z;
                 temperatureUnit := Some "F"; shortForecast := Some "Sunny";
                 isDaytime := true |} in
  extendedRows tx [bare; next]
  = [ {| day := "—"; dayHigh := "—"; dayCond := "—"; nightLow := "—"; nightCond := "—" |};
      {| day := "Tuesday"; dayHigh := "-3°F"; dayCond := "Sunny";
         nightLow := "—"; nightCond := "—" |} ]
  /\ day (row tx bare None) <> "".
Proof.
  intros tx bare next. split; [vm_compute; reflexivity|].
  apply (extendedRows_no_empty_cell tx [bare; next] (row tx bare None)).
  now left.
Defined.

End TableCells.

(** ** The helpers that write to the page *)
Section DomFacts.
Import Dom.

Local Open Scope string_scope.

Lemma append_nonempty_l (a b : string) : a <> "" -> a ++ b <> "".
Proof. intros Ha. destruct a; [contradiction|discriminate]. Qed.

(** X23. [setText] never leaves an element empty or loading: on an element
    of the page it writes the text, or a dash for a text that is missing or
    empty, followed by the suffix when one is given; what it writes is
    never empty; it takes the class [loading] away and touches no other
    class and no other element; for an id that is not on the page it does
    nothing. *)
Theorem setText_writes_something (id : string) (text suffix : option string)
        (doc : Document) :
  (doc !! id = None -> setText id text suffix doc = doc)
  /\ (forall el, doc !! id = Some el ->
        exists el', setText id text suffix doc !! id = Some el'
                    /\ (text = None \/ text = Some "" ->
                        textContent el' = "—" ++ default "" suffix)
                    /\ (forall t, text = Some t -> t <> "" ->
                                  textContent el' = t ++ default "" suffix)
                    /\ textContent el' <> ""
                    /\ ("loading" ∉ classList el')
                    /\ (forall c, c <> "loading" ->
                                  (c ∈ classList el') <-> (c ∈ classList el)))
  /\ (forall j, j <> id -> setText id text suffix doc !! j = doc !! j).
Proof.
  unfold setText. split; [|split].
  - now intros ->.
  - intros el ->. eexists. split; [apply lookup_insert_eq|]. cbn [textContent classList].
    split; [|split; [|split; [|split]]].
    + intros [->| ->]; now destruct suffix.
    + intros t -> Ht. destruct (String.eqb_spec t ""); [contradiction|].
      now destruct suffix.
    + apply append_nonempty_l. destruct text as [t|]; [|discriminate].
      now destruct (String.eqb_spec t "").
    + set_solver.
    + intros c Hc. set_solver.
  - intros j Hj. destruct (doc !! id); [|reflexivity].
    now apply lookup_insert_ne.
Qed.

(** An empty text is shown as a dash, a temperature with its unit. *)
Lemma setText_writes_something_witness :
  let doc : Document :=
    {[ "current-temp" := {| textContent := ""; classList := {[ "value"; "loading" ]} |} ]} in
  (exists el', setText "current-temp" (Some "") None doc !! "current-temp" = Some el'
               /\ textContent el' = "—" /\ ("loading" ∉ classList el'))
  /\ (exists el', setText "current-temp" (Some "72") (Some " °F") doc !! "current-temp"
                  = Some el'
                  /\ textContent el' = "72 °F").
Proof.
  intros doc. split.
  - destruct (proj1 (proj2 (setText_writes_something "current-temp" (Some "") None doc))
                _ (lookup_singleton_eq _ _)) as (el' & H1 & H2 & _ & _ & H3 & _).
    exists el'. split; [exact H1|]. split; [|exact H3].
    rewrite H2; [reflexivity|now right].
  - destruct (proj1 (proj2 (setText_writes_something "current-temp" (Some "72")
                              (Some " °F") doc))
                _ (lookup_singleton_eq _ _)) as (el' & H1 & _ & H2 & _).
    exists el'. split; [exact H1|]. rewrite (H2 "72"); [reflexivity|reflexivity|discriminate].
Defined.

(** X24. [hideError] wipes what [showError] wrote: hiding after showing
    gives the page that hiding alone gives, hiding twice is hiding once, and
    a hidden error element has no text and the class [is-hidden]. *)
Theorem hideError_undoes_showError (id : string) (msg : option string) (doc : Document) :
  hideError id (showError id msg doc) = hideError id doc
  /\ hideError id (hideError id doc) = hideError id doc
  /\ match doc !! id with
     | Some el => exists el', hideError id doc !! id = Some el'
                              /\ textContent el' = ""
                              /\ "is-hidden" ∈ classList el'
     | None => hideError id doc = doc /\ showError id msg doc = doc
     end.
Proof.
  unfold hideError, showError. destruct (doc !! id) as [el|] eqn:E.
  - unfold Document in *.
    rewrite !lookup_insert_eq, !insert_insert_eq. cbn. repeat split.
    + f_equal. f_equal. apply set_eq. intros c.
      destruct (decide (c = "is-hidden")); set_solver.
    + f_equal. f_equal. set_solver.
    + eexists. split; [reflexivity|]. split; [reflexivity|set_solver].
  - rewrite E. auto.
Qed.

End DomFacts.

(** ** The fetch helper *)
Section FetchFacts.
Import Js Fetch.

Local Open Scope string_scope.

(** X25. [getJSON] resolves only with the parsed body of an ok response.
    It reports "Request timed out. Please retry." exactly when [fetch]
    itself was aborted: a response that is not ok is reported as "Request
    failed (status statusText): " followed by the first 160 code units of
    its body (the whole body when it is shorter), and by nothing when the
    body cannot be read, a timeout during the reading included; its JSON is
    not looked at. *)
Theorem getJSON_outcomes {J} (reply : Reply J) :
  (forall j, getJSON reply = Json (Resolved j)
             <-> exists status statusText text,
                   reply = Response true status statusText text (Resolved j))
  /\ (getJSON reply = Threw timed_out <-> reply = Aborted)
  /\ (forall status statusText text json,
        reply = Response false status statusText text json ->
        let body := match text with Some t => t | None => [] end in
        exists snippet rest,
          getJSON reply = Threw (request_failed status statusText ++ snippet)%list
          /\ body = (snippet ++ rest)%list
          /\ (length snippet <= 160)%nat
          /\ (length snippet = 160%nat \/ rest = [])).
Proof.
  split; [|split].
  - intros j. split.
    + destruct reply as [|e|[] status st text json]; cbn; try discriminate.
      intros E. injection E as ->. eauto.
    + intros (status & st & text & ->). reflexivity.
  - split; [|now intros ->].
    destruct reply as [|e|[] status st text json]; intros E;
      [reflexivity|discriminate E|discriminate E|].
    exfalso. unfold getJSON, request_failed, timed_out in E.
    injection E as E. vm_compute in E.
    repeat (injection E as _ E). discriminate E.
  - intros status st text json -> body. cbn.
    exists (take 160 body), (drop 160 body). split; [reflexivity|].
    split; [now rewrite take_drop|].
    rewrite length_take. split; [lia|].
    destruct (Nat.le_gt_cases 160 (length body)) as [H|H]; [left; lia|].
    right. apply drop_ge. lia.
Qed.

(** A 404 whose body is 200 times the letter e with an acute accent, one
    code unit each: 160 of them are quoted.  A 503 whose body cannot be read
    is not reported as a timeout. *)
Lemma getJSON_outcomes_witness :
  let not_found : Reply unit :=
    Response false 404 (units_of "Not Found") (Some (repeat 233%N 200)) (Rejected "") in
  let unread : Reply unit :=
    Response false 503 (units_of "Service Unavailable") None (Rejected "") in
  (getJSON not_found
   = Threw (units_of "Request failed (404 Not Found): " ++ repeat 233%N 160)%list
   /\ exists snippet rest,
        getJSON not_found = Threw (request_failed 404 (units_of "Not Found") ++ snippet)%list
        /\ repeat 233%N 200 = (snippet ++ rest)%list /\ length snippet = 160%nat)
  /\ (getJSON unread = Threw (units_of "Request failed (503 Service Unavailable): ")
      /\ getJSON unread <> Threw timed_out).
Proof.
  intros not_found unread. split.
  - split; [vm_compute; reflexivity|].
    destruct (proj2 (proj2 (getJSON_outcomes not_found)) _ _ _ _ eq_refl)
      as (snippet & rest & H1 & H2 & H3 & H4).
    exists snippet, rest. split; [exact H1|]. split; [exact H2|].
    destruct H4 as [H4| ->]; [exact H4|].
    rewrite app_nil_r in H2. cbn [not_found] in H2. subst snippet.
    rewrite repeat_length in H3. lia.
  - split; [vm_compute; reflexivity|].
    intros E. apply (proj1 (proj2 (getJSON_outcomes unread))) in E. discriminate E.
Defined.

End FetchFacts.
